(** * Bridggy client: a shallow embedding of [src/index.ts]

    The client exchanges a long-lived proxy token for a short-lived access
    token, decides when the access token is stale, rewrites a request so that
    it goes through the proxy, and interprets the proxy's out-of-band error
    headers with a single conditional retry.

    JavaScript strings are sequences of UTF-16 code units ([list N]).  The
    platform built-ins whose behaviour is fixed by a standard and on which the
    code's own logic rests ([btoa], [atob], [TextEncoder], [Headers]) are
    written out; the ones that are only called at the boundary ([JSON.parse],
    [JSON.stringify], [new URL], the transport [fetch], the browser's
    [window]) are variables of the section that holds the client. *)

From Stdlib Require Import List NArith ZArith Lia Bool String Ascii DecimalString.
From Stdlib Require DecimalFacts DecimalPos.
Import ListNotations.

Set Implicit Arguments.

(** ** Strings *)

Definition jsstring := list N.

(** A literal of the source, as code units. *)
Definition js (s : string) : jsstring :=
  map N_of_ascii (list_ascii_of_string s).

Fixpoint str_eqb (a b : jsstring) : bool :=
  match a, b with
  | [], [] => true
  | x :: a', y :: b' => N.eqb x y && str_eqb a' b'
  | _, _ => false
  end.

(** [s.split(sep)] for a one-character separator: never the empty list. *)
Fixpoint split (sep : N) (s : jsstring) : list jsstring :=
  match s with
  | [] => [[]]
  | c :: t =>
      if N.eqb c sep then [] :: split sep t
      else match split sep t with
           | seg :: segs => (c :: seg) :: segs
           | [] => [[c]]
           end
  end.

(** [s.replace(/c/g, d)]: every occurrence of one character by another. *)
Definition replace_all (c d : N) (s : jsstring) : jsstring :=
  map (fun x => if N.eqb x c then d else x) s.

(** [s.replace(/c+$/, '')]: the trailing run of [c] is dropped. *)
Fixpoint strip_trailing (c : N) (s : jsstring) : jsstring :=
  match s with
  | [] => []
  | x :: t =>
      match strip_trailing c t with
      | [] => if N.eqb x c then [] else [x]
      | t' => x :: t'
      end
  end.

(** [s.toLowerCase()] on the ASCII letters, which is all a header name has. *)
Definition lower_char (c : N) : N :=
  if (N.leb 65 c && N.leb c 90)%bool then (c + 32)%N else c.

Definition toLowerCase (s : jsstring) : jsstring := map lower_char s.

Fixpoint startsWith (s p : jsstring) : bool :=
  match p, s with
  | [], _ => true
  | x :: p', y :: s' => N.eqb x y && startsWith s' p'
  | _ :: _, [] => false
  end.

(** [arr.includes(x)] on an array of strings. *)
Definition includes (arr : list jsstring) (x : jsstring) : bool :=
  existsb (str_eqb x) arr.

(** Code-unit order, the order in which header names are sorted. *)
Fixpoint str_ltb (a b : jsstring) : bool :=
  match a, b with
  | _, [] => false
  | [], _ :: _ => true
  | x :: a', y :: b' => N.ltb x y || (N.eqb x y && str_ltb a' b')
  end.

(** A number printed by a template literal or by [toString()]: decimal. *)
Definition Z_toString (z : Z) : jsstring :=
  js (NilZero.string_of_int (Z.to_int z)).

(** ** Values and failures *)

(** What [JSON.parse] returns.  Numbers are the integers: the [exp] claim is
    a count of seconds and the clock a count of milliseconds, both far inside
    the range where the arithmetic of the source is exact. *)
Unset Elimination Schemes.
Inductive json :=
| JNull
| JBool (b : bool)
| JNum (z : Z)
| JStr (s : jsstring)
| JArr (items : list json)
| JObj (fields : list (jsstring * json)).
Set Elimination Schemes.

(** A JavaScript value that may also be [undefined] ([None]). *)
Definition jsval := option json.

Definition truthy (v : jsval) : bool :=
  match v with
  | None | Some JNull | Some (JBool false) | Some (JNum 0) | Some (JStr []) => false
  | _ => true
  end.

Inductive exn :=
| Error (msg : jsstring)          (* [new Error(msg)] *)
| TypeError (msg : jsstring)      (* [new TypeError(msg)] *)
| EngineTypeError                 (* raised by the engine: property of null, not a function *)
| SyntaxError                     (* [JSON.parse] on text that is not JSON *)
| InvalidCharacterError           (* [atob]/[btoa] on a character outside their domain *)
| Rejected (tag : N).             (* a failure reported by the transport or a body reader *)

Inductive Outcome (A : Type) :=
| Ok (a : A)
| Throw (e : exn).
Arguments Ok {A} a.
Arguments Throw {A} e.

Definition obind {A B} (m : Outcome A) (k : A -> Outcome B) : Outcome B :=
  match m with
  | Ok a => k a
  | Throw e => Throw e
  end.

(** [try { body } catch { throw e }] *)
Definition catch_rethrow {A} (body : Outcome A) (e : exn) : Outcome A :=
  match body with
  | Ok a => Ok a
  | Throw _ => Throw e
  end.

Declare Scope outcome_scope.
Delimit Scope outcome_scope with outcome.
Notation "x <- m ;; k" := (obind m (fun x => k))
  (at level 61, m at next level, right associativity) : outcome_scope.

Fixpoint assoc {A} (k : jsstring) (l : list (jsstring * A)) : option A :=
  match l with
  | [] => None
  | (k', v) :: t => if str_eqb k k' then Some v else assoc k t
  end.

(** [v.name] on a parsed value: a failure on [null], [undefined] where the
    value has no such member. *)
Definition prop (v : json) (name : jsstring) : Outcome jsval :=
  match v with
  | JNull => Throw EngineTypeError
  | JObj fields => Ok (assoc name fields)
  | _ => Ok None
  end.

(** ** Base64: [btoa] and [atob] *)

Module Base64.
Local Open Scope N_scope.

Definition pad : N := 61.  (* = *)

(** The character of a six-bit group: A-Z a-z 0-9 + / *)
Definition enc (s : N) : N :=
  if s <? 26 then 65 + s
  else if s <? 52 then 97 + (s - 26)
  else if s <? 62 then 48 + (s - 52)
  else if s =? 62 then 43
  else 47.

(** The six-bit group of a character, if it is in the alphabet. *)
Definition dec (c : N) : option N :=
  if (65 <=? c) && (c <=? 90) then Some (c - 65)
  else if (97 <=? c) && (c <=? 122) then Some (c - 97 + 26)
  else if (48 <=? c) && (c <=? 57) then Some (c - 48 + 52)
  else if c =? 43 then Some 62
  else if c =? 47 then Some 63
  else None.

Fixpoint encode (bs : list N) : jsstring :=
  match bs with
  | [] => []
  | [a] => [enc (a / 4); enc (a mod 4 * 16); pad; pad]
  | [a; b] => [enc (a / 4); enc (a mod 4 * 16 + b / 16); enc (b mod 16 * 4); pad]
  | a :: b :: c :: rest =>
      enc (a / 4) :: enc (a mod 4 * 16 + b / 16)
        :: enc (b mod 16 * 4 + c / 64) :: enc (c mod 64) :: encode rest
  end.

(** A character of the alphabet. *)
Definition plain (c : N) : Prop := exists s, s < 64 /\ c = enc s.

(** The characters of [encode] before its padding. *)
Fixpoint encode_body (bs : list N) : jsstring :=
  match bs with
  | [] => []
  | [a] => [enc (a / 4); enc (a mod 4 * 16)]
  | [a; b] => [enc (a / 4); enc (a mod 4 * 16 + b / 16); enc (b mod 16 * 4)]
  | a :: b :: c :: rest =>
      enc (a / 4) :: enc (a mod 4 * 16 + b / 16)
        :: enc (b mod 16 * 4 + c / 64) :: enc (c mod 64) :: encode_body rest
  end.

(** The padding of [encode]. *)
Fixpoint encode_padding (bs : list N) : jsstring :=
  match bs with
  | [] => []
  | [_] => [pad; pad]
  | [_; _] => [pad]
  | _ :: _ :: _ :: rest => encode_padding rest
  end.

(** [btoa(bin)]: every code unit of [bin] must be a byte. *)
Definition btoa (bin : jsstring) : Outcome jsstring :=
  if forallb (fun c => c <? 256) bin then Ok (encode bin)
  else Throw InvalidCharacterError.

Definition is_ascii_whitespace (c : N) : bool :=
  (c =? 9) || (c =? 10) || (c =? 12) || (c =? 13) || (c =? 32).

(** One or two trailing [=] are dropped (when the length is a multiple of
    four). *)
Definition drop_padding (s : jsstring) : jsstring :=
  match rev s with
  | p1 :: p2 :: r =>
      if p1 =? pad then (if p2 =? pad then rev r else rev (p2 :: r)) else s
  | [p1] => if p1 =? pad then [] else s
  | [] => s
  end.

Fixpoint sextets (s : jsstring) : option (list N) :=
  match s with
  | [] => Some []
  | c :: t =>
      match dec c, sextets t with
      | Some v, Some vs => Some (v :: vs)
      | _, _ => None
      end
  end.

(** Groups of four sextets give three bytes; a final group of three gives
    two bytes and one of two gives one byte, the spare bits discarded. *)
Fixpoint bytes_of_sextets (ss : list N) : list N :=
  match ss with
  | s1 :: s2 :: s3 :: s4 :: rest =>
      (s1 * 4 + s2 / 16) :: (s2 mod 16 * 16 + s3 / 4) :: (s3 mod 4 * 64 + s4)
        :: bytes_of_sextets rest
  | [s1; s2; s3] => [s1 * 4 + s2 / 16; s2 mod 16 * 16 + s3 / 4]
  | [s1; s2] => [s1 * 4 + s2 / 16]
  | _ => []
  end.

(** [atob(data)], the forgiving base64 decoder of the platform. *)
Definition atob (data : jsstring) : Outcome jsstring :=
  let d := filter (fun c => negb (is_ascii_whitespace c)) data in
  let d := if N.of_nat (List.length d) mod 4 =? 0 then drop_padding d else d in
  if N.of_nat (List.length d) mod 4 =? 1 then Throw InvalidCharacterError
  else match sextets d with
       | Some ss => Ok (bytes_of_sextets ss)
       | None => Throw InvalidCharacterError
       end.
End Base64.

(** ** [TextEncoder]: a string to its UTF-8 bytes *)

Module Utf8.
Local Open Scope N_scope.

Definition is_lead (c : N) : bool := (0xD800 <=? c) && (c <=? 0xDBFF).
Definition is_trail (c : N) : bool := (0xDC00 <=? c) && (c <=? 0xDFFF).

(** The code points of a string: a surrogate pair is one code point, a lone
    surrogate is replaced by U+FFFD. *)
Fixpoint code_points (s : jsstring) : list N :=
  match s with
  | [] => []
  | c :: t =>
      if is_lead c then
        match t with
        | d :: t' =>
            if is_trail d
            then (0x10000 + (c - 0xD800) * 0x400 + (d - 0xDC00)) :: code_points t'
            else 0xFFFD :: code_points t
        | [] => [0xFFFD]
        end
      else if is_trail c then 0xFFFD :: code_points t
      else c :: code_points t
  end.

Definition encode_cp (cp : N) : list N :=
  if cp <? 0x80 then [cp]
  else if cp <? 0x800 then [0xC0 + cp / 64; 0x80 + cp mod 64]
  else if cp <? 0x10000 then
    [0xE0 + cp / 4096; 0x80 + cp / 64 mod 64; 0x80 + cp mod 64]
  else
    [0xF0 + cp / 262144; 0x80 + cp / 4096 mod 64; 0x80 + cp / 64 mod 64;
     0x80 + cp mod 64].

(** [new TextEncoder().encode(s)] *)
Definition encode (s : jsstring) : list N :=
  flat_map encode_cp (code_points s).
(** The code units of a code point. *)
Definition utf16 (cp : N) : jsstring :=
  if cp <? 0x10000 then [cp]
  else [0xD800 + (cp - 0x10000) / 0x400; 0xDC00 + (cp - 0x10000) mod 0x400].

Definition is_continuation (b : N) : bool := (0x80 <=? b) && (b <? 0xC0).

(** The string of a sequence of UTF-8 bytes, as a decoder reads what
    [encode] wrote: [None] where a sequence is cut short or starts with a
    byte that cannot start one. *)
Fixpoint decode (bs : list N) : option jsstring :=
  match bs with
  | [] => Some []
  | b0 :: t =>
      if b0 <? 0x80 then option_map (cons b0) (decode t)
      else if b0 <? 0xC0 then None
      else if b0 <? 0xE0 then
        match t with
        | b1 :: t' =>
            if is_continuation b1
            then option_map (app (utf16 ((b0 - 0xC0) * 64 + (b1 - 0x80))))
                   (decode t')
            else None
        | _ => None
        end
      else if b0 <? 0xF0 then
        match t with
        | b1 :: b2 :: t' =>
            if is_continuation b1 && is_continuation b2
            then option_map
                   (app (utf16 (((b0 - 0xE0) * 64 + (b1 - 0x80)) * 64 + (b2 - 0x80))))
                   (decode t')
            else None
        | _ => None
        end
      else if b0 <? 0xF8 then
        match t with
        | b1 :: b2 :: b3 :: t' =>
            if is_continuation b1 && is_continuation b2 && is_continuation b3
            then option_map
                   (app (utf16 ((((b0 - 0xF0) * 64 + (b1 - 0x80)) * 64
                                 + (b2 - 0x80)) * 64 + (b3 - 0x80))))
                   (decode t')
            else None
        | _ => None
        end
      else None
  end.

(** Sixteen-bit code units in which every surrogate is half of a pair: the
    strings that [encode] does not alter by a replacement character. *)
Fixpoint well_formed (s : jsstring) : bool :=
  match s with
  | [] => true
  | c :: t =>
      (c <? 0x10000)
      && if is_lead c then
           match t with
           | d :: t' => is_trail d && well_formed t'
           | [] => false
           end
         else negb (is_trail c) && well_formed t
  end.
End Utf8.

(** The elements of a string are sixteen-bit code units. *)
Definition code_units (s : jsstring) : Prop := Forall (fun c => (c < 0x10000)%N) s.

(** ** The [Headers] class of the platform *)

(** A header list: (name, value) pairs in insertion order.  Names are valid
    header names and values are already normalised; names compare
    byte-case-insensitively. *)
Definition header_list := list (jsstring * jsstring).

Module Headers.

Definition name_eqb (a b : jsstring) : bool :=
  str_eqb (toLowerCase a) (toLowerCase b).

Definition values (h : header_list) (name : jsstring) : list jsstring :=
  map snd (filter (fun p => name_eqb (fst p) name) h).

Fixpoint join (sep : jsstring) (l : list jsstring) : jsstring :=
  match l with
  | [] => []
  | [x] => x
  | x :: t => x ++ sep ++ join sep t
  end.

Definition has (h : header_list) (name : jsstring) : bool :=
  existsb (fun p => name_eqb (fst p) name) h.

(** [h.get(name)]: [null] when absent, else the values joined by ", ". *)
Definition get (h : header_list) (name : jsstring) : option jsstring :=
  match values h name with
  | [] => None
  | vs => Some (join (js ", ") vs)
  end.

(** [h.delete(name)] *)
Definition delete (h : header_list) (name : jsstring) : header_list :=
  filter (fun p => negb (name_eqb (fst p) name)) h.

(** [h.set(name, value)]: the first header of that name takes the value and
    the others go; a new name is added at the end. *)
Fixpoint set (h : header_list) (name value : jsstring) : header_list :=
  match h with
  | [] => [(name, value)]
  | (n, v) :: t =>
      if name_eqb n name then (n, value) :: delete t name
      else (n, v) :: set t name value
  end.

Fixpoint insert_sorted (x : jsstring) (l : list jsstring) : list jsstring :=
  match l with
  | [] => [x]
  | y :: t =>
      if str_eqb x y then l
      else if str_ltb x y then x :: l
      else y :: insert_sorted x t
  end.

(** The lower-cased names, without duplicates, in ascending order. *)
Definition sorted_names (h : header_list) : list jsstring :=
  fold_right (fun p acc => insert_sorted (toLowerCase (fst p)) acc) [] h.

(** "Sort and combine": the pairs an iteration goes over.  One pair per
    name with the combined value, except [set-cookie], which keeps one pair
    per value. *)
Definition sort_and_combine (h : header_list) : header_list :=
  flat_map
    (fun name =>
       if str_eqb name (js "set-cookie")
       then map (fun v => (name, v)) (values h name)
       else match get h name with
            | Some v => [(name, v)]
            | None => []
            end)
    (sorted_names h).

(** [h.forEach(cb)], as Web IDL defines it for an interface with a pair
    iterator: the iteration keeps an index into the value pairs and takes
    the pairs afresh from the object after each call of [cb], which may have
    changed it:
    [while i < pairs.size: cb(pairs[i]); pairs := current pairs; i := i + 1].
    A callback that deletes the header it is called with therefore makes
    the iteration step over the pair that follows.  [None] when [fuel]
    iterations did not reach the end. *)
Fixpoint forEach_from (fuel : nat)
    (cb : jsstring -> jsstring -> header_list -> header_list)
    (i : nat) (h : header_list) : option header_list :=
  match nth_error (sort_and_combine h) i with
  | None => Some h
  | Some (key, value) =>
      match fuel with
      | O => None
      | S fuel' => forEach_from fuel' cb (S i) (cb value key h)
      end
  end.

(** A bound on the number of pairs of any header list no longer than [h]. *)
Definition bound (h : header_list) : nat := List.length h * S (List.length h).

End Headers.

(** ** Objects with named members *)

Inductive value :=
| VUndefined
| VString (s : jsstring)
| VHeaders (h : header_list)   (* a [Headers] object or another [HeadersInit] *)
| VOpaque (id : N).            (* any other value: a body, a signal, ... *)

(** An object literal: its own members in insertion order. *)
Definition object := list (jsstring * value).

Definition member (o : object) (k : jsstring) : value :=
  match assoc k o with
  | Some v => v
  | None => VUndefined
  end.

(** [o[k] = v] *)
Fixpoint put (o : object) (k : jsstring) (v : value) : object :=
  match o with
  | [] => [(k, v)]
  | (k', v') :: t => if str_eqb k k' then (k', v) :: t else (k', v') :: put t k v
  end.

(** [{ ...dst, ...src }]: the members of [src] written over [dst] in order. *)
Definition spread (dst src : object) : object :=
  fold_left (fun acc kv => put acc (fst kv) (snd kv)) src dst.

(** [const { k: _, ...rest } = o] *)
Definition rest_without (k : jsstring) (o : object) : object :=
  filter (fun kv => negb (str_eqb (fst kv) k)) o.

(** ** The data the client handles *)

Record URL := { href : jsstring }.

(** A [Request] object, through the getters the client reads. *)
Record Request := {
  req_url : jsstring;
  req_method : jsstring;
  req_headers : header_list;
  req_body : value;
  req_redirect : jsstring
}.

(** The first argument of [fetch] as it arrives at run time. *)
Inductive Input :=
| InString (s : jsstring)
| InURL (u : URL)
| InRequest (r : Request)
| InOther (id : N).

Record Response := {
  ok : bool;
  status : Z;
  resp_headers : header_list;
  json_body : Outcome json     (* what [await resp.json()] gives *)
}.

(** [Config] of [types.ts] *)
Record Config := {
  cfg_token : jsstring;
  cfg_retry : option bool
}.

(** The fields of a [Bridggy] instance; [None] is [undefined]. *)
Record Bridggy := {
  proxyToken : option jsstring;
  token : jsval;
  retry : option bool
}.

(** [new Bridggy()] *)
Definition fresh : Bridggy :=
  {| proxyToken := None; token := None; retry := None |}.

(** What the client does to the outside world, in order. *)
Inductive Event :=
| EvFetch (url : jsstring) (options : object)
| EvSleep (ms : Z).

Record Machine := {
  self : Bridggy;
  trace : list Event
}.

(** A computation of the client: it reads and writes the instance, adds to
    the trace, and returns or throws. *)
Definition M (A : Type) := Machine -> Outcome A * Machine.

Definition ret {A} (a : A) : M A := fun m => (Ok a, m).
Definition throw {A} (e : exn) : M A := fun m => (Throw e, m).
Definition lift {A} (o : Outcome A) : M A := fun m => (o, m).

Definition bind {A B} (c : M A) (k : A -> M B) : M B :=
  fun m =>
    match c m with
    | (Ok a, m') => k a m'
    | (Throw e, m') => (Throw e, m')
    end.

Declare Scope machine_scope.
Delimit Scope machine_scope with machine.
Notation "x <- c ;; k" := (bind c (fun x => k))
  (at level 61, c at next level, right associativity) : machine_scope.
Notation "c ;;; k" := (bind c (fun _ => k))
  (at level 61, right associativity) : machine_scope.

Definition this : M Bridggy := fun m => (Ok (self m), m).

Definition set_token (t : jsval) : M unit :=
  fun m =>
    (Ok tt,
     {| self := {| proxyToken := proxyToken (self m); token := t;
                   retry := retry (self m) |};
        trace := trace m |}).

(** ** Constants of [index.ts] *)

Definition HeaderStatus : jsstring := js "gg-x-status".
Definition HeaderError : jsstring := js "gg-x-error".
Definition HeaderOrigin : jsstring := js "Origin".
Definition HeaderToken : jsstring := js "gg-x-token".
Definition HeaderTimestamp : jsstring := js "gg-x-timestamp".
Definition HeaderSource : jsstring := js "gg-x-source".

Definition NonProxyHeaders : list jsstring :=
  [ js "user-agent"; js "x-forwarded-for"; js "cookie"; js "connection";
    js "keep-alive"; js "transfer-encoding"; js "upgrade-insecure-requests";
    js "priority" ].

Definition SourceName : jsstring := js "client".
Definition RetryDelay : Z := 2000.

(** The failures the class raises itself. *)
Definition NotConfigured : exn := Error (js "Config not provided").
Definition InvalidToken : exn := Error (js "Invalid token").
Definition InvalidOrMalformedToken : exn := Error (js "invalid or malformed token").
Definition UnsupportedInputType : exn := TypeError (js "Unsupported input type").

(** ** Pure helpers of the class *)

(** [!s] for a field that holds a string or [undefined]. *)
Definition falsy_str (s : option jsstring) : bool :=
  match s with
  | None | Some [] => true
  | Some _ => false
  end.

(** A value inside a template literal. *)
Fixpoint json_toString (v : json) : jsstring :=
  match v with
  | JNull => js "null"
  | JBool true => js "true"
  | JBool false => js "false"
  | JNum z => Z_toString z
  | JStr s => s
  | JArr items =>
      Headers.join (js ",")
        (map (fun x => match x with JNull => [] | _ => json_toString x end) items)
  | JObj _ => js "[object Object]"
  end.

Definition template (v : jsval) : jsstring :=
  match v with
  | None => js "undefined"
  | Some x => json_toString x
  end.

Definition template_str (v : option jsstring) : jsstring :=
  match v with
  | None => js "null"
  | Some s => s
  end.

(** The receiver of [token.split]: anything but a string has no [split]. *)
Definition as_string (v : jsval) : Outcome jsstring :=
  match v with
  | Some (JStr s) => Ok s
  | _ => Throw EngineTypeError
  end.

(** [b64urlEncode]: [btoa] over the UTF-8 bytes, then [+] to [-], [/] to [_]
    and the trailing [=] stripped. *)
Definition b64urlEncode (str : jsstring) : Outcome jsstring :=
  let utf8 := Utf8.encode str in
  let bin := fold_left (fun bin byte => bin ++ [byte]) utf8 [] in
  (b <- Base64.btoa bin;;
   Ok (strip_trailing 61 (replace_all 47 95 (replace_all 43 45 b))))%outcome.

(** The standard alphabet mapped to the URL-safe one, as [b64urlEncode] does
    after [btoa]. *)
Definition urlsafe_alphabet (s : jsstring) : jsstring :=
  replace_all 47 95 (replace_all 43 45 s).

(** The URL-safe alphabet mapped back to the standard one, as
    [getTokenPayload] does before [atob]. *)
Definition standard_alphabet (s : jsstring) : jsstring :=
  replace_all 95 47 (replace_all 45 43 s).

(** [getUrl] needs [new URL], given below; its message for a bad string. *)
Definition not_absolute_message (input : jsstring) : jsstring :=
  js "input string must be an absolute URL, got " ++ [34%N] ++ input ++ [34%N].

(** The test of line 77 on a lower-cased name. *)
Definition is_private (lowerKey : jsstring) : bool :=
  includes NonProxyHeaders lowerKey || startsWith lowerKey (js "sec-").

(** The callback of the header filter: a name in the deny list or starting
    with [sec-] is deleted. *)
Definition drop_if_private (_value key : jsstring) (headers : header_list)
  : header_list :=
  let lowerKey := toLowerCase key in
  if is_private lowerKey then Headers.delete headers key else headers.

(** [headers.forEach((_, key) => { ... headers.delete(key) ... })] *)
Definition remove_private_headers (headers : header_list) : header_list :=
  match Headers.forEach_from (S (Headers.bound headers)) drop_if_private 0 headers with
  | Some h => h
  | None => headers
  end.

(** [new Headers(init)] *)
Definition new_Headers (init : value) : Outcome header_list :=
  match init with
  | VUndefined => Ok []
  | VHeaders h => Ok h
  | _ => Throw EngineTypeError
  end.

(** [init || {}] *)
Definition init_members (init : option object) : object :=
  match init with
  | Some o => o
  | None => []
  end.

(** [x?.k] on an optional object. *)
Definition opt_member (o : option object) (k : jsstring) : value :=
  match o with
  | Some o => member o k
  | None => VUndefined
  end.

(** The text of the proxy's error header when [if (proxyError)] takes it for
    one: present and not empty. *)
Definition error_text (resp : Response) : option jsstring :=
  match Headers.get (resp_headers resp) HeaderError with
  | Some (c :: err) => Some (c :: err)
  | _ => None
  end.

(** ** The class *)

Section Client.

(** [JSON.parse]: [None] when the text is not JSON. *)
Variable JSON_parse : jsstring -> option json.
Variable JSON_stringify : json -> jsstring.
(** [new URL(s)]: [None] when [s] is not an absolute URL. *)
Variable URL_parse : jsstring -> option URL.
(** The global [fetch]: its answer may depend on what happened before. *)
Variable transport : list Event -> jsstring -> object -> Outcome Response.
(** [Date.now()], in milliseconds. *)
Variable clock : list Event -> Z.
(** [window.location.origin] where there is a [window]. *)
Variable window_origin : option jsstring.

Definition Date_now : M Z := fun m => (Ok (clock (trace m)), m).

Definition send (url : jsstring) (options : object) : M Response :=
  fun m =>
    (transport (trace m) url options,
     {| self := self m; trace := trace m ++ [EvFetch url options] |}).

Definition sleep (ms : Z) : M unit :=
  fun m => (Ok tt, {| self := self m; trace := trace m ++ [EvSleep ms] |}).

Definition configure (config : Config) (b : Bridggy) : Bridggy :=
  {| proxyToken := Some (cfg_token config);
     token := token b;
     retry := Some (match cfg_retry config with Some r => r | None => true end) |}.

Definition getTokenPayload (tok : jsstring) : Outcome json :=
  match nth_error (split 46 tok) 1 with
  | None | Some [] => Throw InvalidToken
  | Some payload =>
      (p <- Base64.atob (standard_alphabet payload);;
       match JSON_parse p with
       | Some v => Ok v
       | None => Throw SyntaxError
       end)%outcome
  end.

(** The body of the [try] of [isTokenExpired]. *)
Definition expiry_of (tok : jsval) (now : Z) : Outcome bool :=
  (s <- as_string tok;;
   data <- getTokenPayload s;;
   exp <- prop data (js "exp");;
   match exp with
   | Some (JNum exp) => Ok (now >? exp * 1000 - 60000)%Z
   | _ => Throw (Error (js "Malformed token"))
   end)%outcome.

Definition isTokenExpired_at (tok : jsval) (now : Z) : Outcome bool :=
  if negb (truthy tok) then Ok true
  else catch_rethrow (expiry_of tok now) InvalidOrMalformedToken.

Definition isTokenExpired : M bool :=
  (b <- this;;
   now <- Date_now;;
   lift (isTokenExpired_at (token b) now))%machine.

Definition exchange_endpoint (aud : jsval) : jsstring :=
  template aud ++ js "/token/exchange".

Definition exchange_options (now : Z) (proxyTok : jsstring) : object :=
  [ (js "method", VString (js "POST"));
    (js "headers",
     VHeaders [ (js "Content-Type", js "application/json");
                (HeaderTimestamp, Z_toString now);
                (HeaderSource, SourceName) ]);
    (js "body", VString (JSON_stringify (JObj [(js "token", JStr proxyTok)]))) ].

Definition exchange_failed_message (st : Z) : jsstring :=
  js "status: " ++ Z_toString st ++ js " proxy: Token exchange failed".

Definition exchange : M unit :=
  (b <- this;;
   now <- Date_now;;
   match proxyToken b with
   | None => throw EngineTypeError
   | Some proxyTok =>
       payload <- lift (getTokenPayload proxyTok);;
       aud <- lift (prop payload (js "aud"));;
       resp <- send (exchange_endpoint aud) (exchange_options now proxyTok);;
       if negb (ok resp) then throw (Error (exchange_failed_message (status resp)))
       else
         tokenResp <- lift (json_body resp);;
         t <- lift (prop tokenResp (js "token"));;
         set_token t
   end)%machine.

Definition getUrl (input : Input) : Outcome URL :=
  match input with
  | InString s =>
      match URL_parse s with
      | Some url => Ok url
      | None => Throw (TypeError (not_absolute_message s))
      end
  | InURL u => Ok u
  | InRequest r =>
      match URL_parse (req_url r) with
      | Some url => Ok url
      | None => Throw EngineTypeError
      end
  | InOther _ => Throw UnsupportedInputType
  end.

Definition proxy_url (scope : jsval) (encoded : jsstring) : jsstring :=
  js "https://" ++ template scope ++ js ".bridggy.com/proxy?u=" ++ encoded.

(** [input instanceof Request ? input.headers : init?.headers] *)
Definition caller_headers (input : Input) (init : option object) : value :=
  match input with
  | InRequest r => VHeaders (req_headers r)
  | _ => opt_member init (js "headers")
  end.

(** Lines 68 to 80: the header set of the outgoing request. *)
Definition assemble_headers (input : Input) (init : option object)
    (tok : jsstring) : Outcome header_list :=
  (h <- new_Headers (caller_headers input init);;
   let h := Headers.set h HeaderSource SourceName in
   let h := Headers.set h HeaderToken tok in
   let h := match window_origin with
            | Some origin => Headers.set h HeaderOrigin origin
            | None => h
            end in
   Ok (remove_private_headers h))%outcome.

(** Lines 83 to 90: the options of the outgoing request. *)
Definition assemble_options (input : Input) (init : option object)
    (headers : header_list) : object :=
  let restInit :=
    rest_without (js "headers") (init_members init) in
  let from_request (f : Request -> value) (k : jsstring) :=
    match input with
    | InRequest r => f r
    | _ => opt_member init k
    end in
  put
    (spread
       [ (js "method", from_request (fun r => VString (req_method r)) (js "method"));
         (js "body", from_request req_body (js "body"));
         (js "redirect", from_request (fun r => VString (req_redirect r)) (js "redirect")) ]
       restInit)
    (js "headers") (VHeaders headers).

Definition proxy_error_message (proxyStatus : option jsstring)
    (proxyError : jsstring) : jsstring :=
  js "status: " ++ template_str proxyStatus ++ js " " ++ proxyError.

(** [v === s] for a string [s]. *)
Definition strict_equal (v : value) (s : jsstring) : bool :=
  match v with
  | VString x => str_eqb x s
  | _ => false
  end.

(** The condition of the retry, line 100. *)
Definition should_retry (b : Bridggy) (i : nat) (req : object)
    (proxyStatus : option jsstring) : bool :=
  match retry b with Some true => true | _ => false end
  && Nat.eqb i 0
  && strict_equal (member req (js "method")) (js "GET")
  && match proxyStatus with Some s => str_eqb s (js "502") | None => false end.

(** Lines 92 to 112: [for (let i = 0; i < 2; i++)], with [left] the number
    of iterations still allowed. *)
Fixpoint dispatch (left i : nat) (proxyUrl : jsstring) (req : object)
  : M Response :=
  match left with
  | O => throw (Error (js "proxy: unexpected fetch failed after retries"))
  | S left' =>
      (resp <- send proxyUrl req;;
       let proxyError := Headers.get (resp_headers resp) HeaderError in
       let proxyStatus := Headers.get (resp_headers resp) HeaderStatus in
       match proxyError with
       | Some (c :: err) =>
           b <- this;;
           if should_retry b i req proxyStatus
           then sleep RetryDelay;;; dispatch left' (S i) proxyUrl req
           else throw (Error (proxy_error_message proxyStatus (c :: err)))
       | _ => ret resp
       end)%machine
  end.

(** Line 60: [if (this.isTokenExpired()) await this.exchange()] *)
Definition refresh : M unit :=
  (expired <- isTokenExpired;;
   if expired then exchange else ret tt)%machine.

Definition fetch (input : Input) (init : option object) : M Response :=
  (b <- this;;
   if falsy_str (proxyToken b) then throw NotConfigured
   else
     refresh;;;
     url <- lift (getUrl input);;
     b <- this;;
     tok <- lift (as_string (token b));;
     payload <- lift (getTokenPayload tok);;
     scope <- lift (prop payload (js "scope"));;
     encoded <- lift (b64urlEncode (href url));;
     let proxyUrl := proxy_url scope encoded in
     headers <- lift (assemble_headers input init tok);;
     let req := assemble_options input init headers in
     dispatch 2 0 proxyUrl req)%machine.

(** [fetch] on [m] gets through lines 58 to 90 and enters the loop of line 92
    with [proxyUrl] and [req], the machine being [m1] by then. *)
Definition reaches_dispatch (input : Input) (init : option object)
    (m m1 : Machine) (proxyUrl : jsstring) (req : object) : Prop :=
  falsy_str (proxyToken (self m)) = false
  /\ refresh m = (Ok tt, m1)
  /\ exists url tok payload scope encoded headers,
       getUrl input = Ok url
       /\ token (self m1) = Some (JStr tok)
       /\ getTokenPayload tok = Ok payload
       /\ prop payload (js "scope") = Ok scope
       /\ b64urlEncode (href url) = Ok encoded
       /\ assemble_headers input init tok = Ok headers
       /\ proxyUrl = proxy_url scope encoded
       /\ req = assemble_options input init headers.

End Client.

(** ** A concrete environment

    A small world in which the client can be run: a [JSON.parse] that knows
    the texts of the examples, a [URL] parser for absolute http(s) URLs that
    are already in normal form, a clock that stands still and transports that
    answer from a script. *)

Module Sample.

Definition quoted (s : jsstring) : jsstring := [34%N] ++ s ++ [34%N].

(** [{"exp":100}] *)
Definition text_exp100 : jsstring := js "{" ++ quoted (js "exp") ++ js ":100}".
(** [{"exp":2000,"scope":"localhost:8787"}] *)
Definition text_access : jsstring :=
  js "{" ++ quoted (js "exp") ++ js ":2000," ++ quoted (js "scope") ++ js ":"
     ++ quoted (js "localhost:8787") ++ js "}".
(** [{"exp":2000,"aud":"http://localhost:8787"}] *)
Definition text_proxy : jsstring :=
  js "{" ++ quoted (js "exp") ++ js ":2000," ++ quoted (js "aud") ++ js ":"
     ++ quoted (js "http://localhost:8787") ++ js "}".
(** [{"scope":"x"}] *)
Definition text_scope_only : jsstring :=
  js "{" ++ quoted (js "scope") ++ js ":" ++ quoted (js "x") ++ js "}".

Definition claims_exp100 : json := JObj [(js "exp", JNum 100)].
Definition claims_access : json :=
  JObj [(js "exp", JNum 2000); (js "scope", JStr (js "localhost:8787"))].
Definition claims_proxy : json :=
  JObj [(js "exp", JNum 2000); (js "aud", JStr (js "http://localhost:8787"))].
Definition claims_scope_only : json := JObj [(js "scope", JStr (js "x"))].

Definition parse (text : jsstring) : option json :=
  assoc text
    [ (text_exp100, claims_exp100); (text_access, claims_access);
      (text_proxy, claims_proxy); (text_scope_only, claims_scope_only) ].

Definition stringify (v : json) : jsstring :=
  match v with
  | JObj [(k, JStr s)] => js "{" ++ quoted k ++ js ":" ++ quoted s ++ js "}"
  | _ => js "null"
  end.

Definition url_parse (s : jsstring) : option URL :=
  if startsWith s (js "https://") || startsWith s (js "http://")
  then Some {| href := s |}
  else None.

(** The clock stands at 1000 s, well before the [exp] of the sample tokens
    (2000 s). *)
Definition clock (_ : list Event) : Z := 1000000.

Definition jwt_header : jsstring := js "eyJhbGciOiJIUzI1NiIsInR5cCI6IkpXVCJ9".

Definition token_exp100 : jsstring :=
  jwt_header ++ js ".eyJleHAiOjEwMH0=.signature".
Definition access_token : jsstring :=
  jwt_header ++ js ".eyJleHAiOjIwMDAsInNjb3BlIjoibG9jYWxob3N0Ojg3ODcifQ==.signature".
Definition proxy_token : jsstring :=
  jwt_header ++ js ".eyJleHAiOjIwMDAsImF1ZCI6Imh0dHA6Ly9sb2NhbGhvc3Q6ODc4NyJ9.signature".
Definition token_scope_only : jsstring :=
  jwt_header ++ js ".eyJzY29wZSI6IngifQ==.signature".
(** middle segment: base64 of [not json] *)
Definition token_not_json : jsstring :=
  jwt_header ++ js ".bm90IGpzb24=.signature".

Definition plain_response : Response :=
  {| ok := true; status := 200; resp_headers := [];
     json_body := Throw SyntaxError |}.

Definition proxy_failure (code text : jsstring) : Response :=
  {| ok := true; status := 200;
     resp_headers := [(HeaderError, text); (HeaderStatus, code)];
     json_body := Throw SyntaxError |}.

Definition bad_gateway : Response := proxy_failure (js "502") (js "Bad Gateway").

Definition exchange_granted : Response :=
  {| ok := true; status := 200; resp_headers := [];
     json_body := Ok (JObj [(js "token", JStr access_token)]) |}.

Definition exchange_denied : Response :=
  {| ok := false; status := 401; resp_headers := [];
     json_body := Throw SyntaxError |}.

Definition requests_so_far (tr : list Event) : nat :=
  List.length (filter (fun e => match e with EvFetch _ _ => true | _ => false end) tr).

(** The n-th call of the transport gets the n-th answer of the script, and
    [plain_response] when the script is over. *)
Definition scripted (script : list Response)
    (tr : list Event) (_ : jsstring) (_ : object) : Outcome Response :=
  Ok (nth (requests_so_far tr) script plain_response).

(** An instance as the tests of the repository prepare it: configured, with
    a fresh access token already in place. *)
Definition ready : Bridggy :=
  {| proxyToken := Some proxy_token; token := Some (JStr access_token);
     retry := Some true |}.

Definition destination : jsstring := js "https://api.example.com/data".

(** The same instance right after [configure], before any exchange. *)
Definition configured : Bridggy :=
  {| proxyToken := Some proxy_token; token := None; retry := Some true |}.

Definition machine (b : Bridggy) : Machine := {| self := b; trace := [] |}.

(** [{ method: 'GET' }] and [{ method: 'POST' }] *)
Definition GET : option object := Some [(js "method", VString (js "GET"))].
Definition POST : option object := Some [(js "method", VString (js "POST"))].

(** Where the request for [destination] goes, and with which headers. *)
Definition proxied_url : jsstring :=
  js "https://localhost:8787.bridggy.com/proxy?u=aHR0cHM6Ly9hcGkuZXhhbXBsZS5jb20vZGF0YQ".
Definition client_headers : header_list :=
  [(HeaderSource, SourceName); (HeaderToken, access_token)].
Definition outgoing (init : option object) : object :=
  assemble_options (InString destination) init client_headers.

(** A [Request] for [destination] with method POST. *)
Definition post_request : Request :=
  {| req_url := destination; req_method := js "POST"; req_headers := [];
     req_body := VOpaque 1; req_redirect := js "follow" |}.

(** [{ headers: { Connection: 'keep-alive', Cookie: 'session=123' } }] *)
Definition with_private_headers : option object :=
  Some [(js "headers",
         VHeaders [(js "Connection", js "keep-alive");
                   (js "Cookie", js "session=123")])].

End Sample.

(** ** The rest of the class, and measures of what it does *)

(** [constructor(config?)]: [if (config) this.configure(config)] *)
Definition constructor (config : option Config) : Bridggy :=
  match config with
  | Some c => configure c fresh
  | None => fresh
  end.

Section Preparation.

Variable JSON_parse : jsstring -> option json.
Variable URL_parse : jsstring -> option URL.
Variable window_origin : option jsstring.

(** Lines 62 to 90 of [fetch], which read the instance and touch nothing:
    the proxy URL and the options of the outgoing request. *)
Definition prepare (input : Input) (init : option object) (b : Bridggy)
  : Outcome (jsstring * object) :=
  (url <- getUrl URL_parse input;;
   tok <- as_string (token b);;
   payload <- getTokenPayload JSON_parse tok;;
   scope <- prop payload (js "scope");;
   encoded <- b64urlEncode (href url);;
   headers <- assemble_headers window_origin input init tok;;
   Ok (proxy_url scope encoded, assemble_options input init headers))%outcome.

End Preparation.

Definition is_request (e : Event) : bool :=
  match e with
  | EvFetch _ _ => true
  | EvSleep _ => false
  end.

(** How often the transport was called, and how often the client slept. *)
Definition count_requests (tr : list Event) : nat :=
  List.length (filter is_request tr).
Definition count_sleeps (tr : list Event) : nat :=
  List.length (filter (fun e => negb (is_request e)) tr).

(** A character that a URL takes as it is: a letter, a digit, [-] or [_]. *)
Definition is_urlsafe (c : N) : bool :=
  ((65 <=? c) && (c <=? 90) || (97 <=? c) && (c <=? 122)
   || (48 <=? c) && (c <=? 57) || (c =? 45) || (c =? 95))%N.

(** [JSON.parse] of a decoded segment, as [getTokenPayload] ends. *)
Definition parse_claims (JSON_parse : jsstring -> option json) (text : jsstring)
  : Outcome json :=
  match JSON_parse text with
  | Some v => Ok v
  | None => Throw SyntaxError
  end.

(** More of the sample environment. *)
Module MoreSample.

(** A 2xx answer of the exchange endpoint whose body has no [token]. *)
Definition exchange_without_token : Response :=
  {| ok := true; status := 200; resp_headers := [];
     json_body := Ok (JObj [(js "expires", JNum 60)]) |}.

(** An instance that holds a token without any dot. *)
Definition holding_garbage : Bridggy :=
  {| proxyToken := Some Sample.proxy_token; token := Some (JStr (js "invalid-token"));
     retry := Some true |}.

(** [{ token: proxy_token, retry: false }] *)
Definition no_retry : Config :=
  {| cfg_token := Sample.proxy_token; cfg_retry := Some false |}.

(** A clock past the [exp] of the sample tokens. *)
Definition late_clock (_ : list Event) : Z := 3000000.

(** [{"s":">>>???"}]: the base64 of this text has both a [+] and a [/], so
    that a token carrying it has a [-] and a [_] in its middle segment. *)
Definition text_marks : jsstring :=
  js "{" ++ Sample.quoted (js "s") ++ js ":" ++ Sample.quoted (js ">>>???") ++ js "}".
Definition claims_marks : json := JObj [(js "s", JStr (js ">>>???"))].

(** [Sample.parse] with that text added. *)
Definition parse_marks (text : jsstring) : option json :=
  if str_eqb text text_marks then Some claims_marks else Sample.parse text.

Definition token_marks : jsstring :=
  Sample.jwt_header ++ js ".eyJzIjoiPj4-Pz8_In0.signature".

Definition private_and_custom : header_list :=
  [(js "X-Custom", js "v"); (js "Cookie", js "session=123");
   (js "Accept", js "text/html")].

End MoreSample.

(** Some runs of the client in the sample environment. *)
Module Runs.
Import Sample MoreSample.

(** A [fetch] that has to exchange first and then retries once. *)
Definition exchange_and_retry : Outcome Response * Machine :=
  fetch parse stringify url_parse
    (scripted [exchange_granted; bad_gateway; plain_response]) clock None
    (InString destination) GET (machine configured).

(** The same call after [configure] with [retry: false]. *)
Definition exchange_no_retry : Outcome Response * Machine :=
  fetch parse stringify url_parse
    (scripted [exchange_granted; bad_gateway; plain_response]) clock None
    (InString destination) GET
    {| self := configure no_retry fresh; trace := [] |}.

Definition one_exchange : Outcome unit * Machine :=
  exchange parse stringify (scripted [exchange_granted]) clock (machine configured).

End Runs.

(** * Properties *)

Unset Implicit Arguments.

Lemma str_eqb_spec a b : reflect (a = b) (str_eqb a b).
Proof.
  revert b; induction a as [|x a IH]; intros [|y b]; simpl;
    try (constructor; congruence).
  destruct (N.eqb_spec x y) as [->|Hxy]; simpl.
  - destruct (IH b) as [->|Hab]; constructor; congruence.
  - constructor; congruence.
Qed.

Lemma str_eqb_refl a : str_eqb a a = true.
Proof. destruct (str_eqb_spec a a); congruence. Qed.

Lemma str_eqb_eq a b : str_eqb a b = true <-> a = b.
Proof. destruct (str_eqb_spec a b); split; congruence. Qed.

Lemma str_eqb_neq a b : str_eqb a b = false <-> a <> b.
Proof. destruct (str_eqb_spec a b); split; congruence. Qed.

Lemma split_no_separator sep s : ~ In sep s -> split sep s = [s].
Proof.
  induction s as [|c s IH]; simpl; intros Hn; [reflexivity|].
  destruct (N.eqb_spec c sep) as [->|_].
  - exfalso; apply Hn; now left.
  - rewrite IH by (intros Hin; apply Hn; now right). reflexivity.
Qed.

(** Two different literals are different strings. *)
Ltac literals_differ :=
  let H := fresh in intro H; vm_compute in H; discriminate H.

Lemma split_not_nil sep s : split sep s <> [].
Proof.
  destruct s as [|c s]; cbn [split]; [discriminate|].
  destruct (N.eqb c sep); [discriminate|].
  destruct (split sep s); discriminate.
Qed.

(** Joining the segments with the separator gives the string back. *)
Lemma join_split sep s : Headers.join [sep] (split sep s) = s.
Proof.
  induction s as [|c s IH]; [reflexivity|]. cbn [split].
  pose proof (split_not_nil sep s) as Hnil.
  destruct (N.eqb_spec c sep) as [->|Hne];
    destruct (split sep s) as [|seg segs]; try contradiction.
  - change (Headers.join [sep] ([] :: seg :: segs))
      with (sep :: Headers.join [sep] (seg :: segs)).
    now rewrite IH.
  - destruct segs as [|seg' segs].
    + cbn [Headers.join] in *. now rewrite IH.
    + change (Headers.join [sep] ((c :: seg) :: seg' :: segs))
        with (c :: Headers.join [sep] (seg :: seg' :: segs)).
      now rewrite IH.
Qed.

(** ** The safety margin *)

Lemma margin_inside_ms (now exp : Z) :
  (exp * 1000 <= now + 30000 -> exp * 1000 - 60000 < now)%Z.
Proof. lia. Qed.

Lemma margin_outside_ms (now exp : Z) :
  (exp * 1000 = now + 3600000 -> now <= exp * 1000 - 60000)%Z.
Proof. lia. Qed.

Lemma margin_inside (now exp : Z) :
  (exp <= now / 1000 + 30 -> exp * 1000 - 60000 < now)%Z.
Proof.
  intros H. pose proof (Z.mod_pos_bound now 1000 ltac:(lia)).
  pose proof (Z.div_mod now 1000 ltac:(lia)). lia.
Qed.

Lemma margin_outside (now exp : Z) :
  (exp = now / 1000 + 3600 -> now <= exp * 1000 - 60000)%Z.
Proof.
  intros H. pose proof (Z.mod_pos_bound now 1000 ltac:(lia)).
  pose proof (Z.div_mod now 1000 ltac:(lia)). lia.
Qed.

(** ** Objects *)

Lemma assoc_not_in {A} k (l : list (jsstring * A)) :
  ~ In k (map fst l) -> assoc k l = None.
Proof.
  induction l as [|[k' v] l IH]; simpl; intros Hn; [reflexivity|].
  destruct (str_eqb_spec k k') as [->|_].
  - exfalso. apply Hn. now left.
  - apply IH. intros Hin. apply Hn. now right.
Qed.

Lemma assoc_put_same o k v : assoc k (put o k v) = Some v.
Proof.
  induction o as [|[k' v'] o IH]; simpl.
  - now rewrite str_eqb_refl.
  - destruct (str_eqb_spec k k') as [->|Hne]; simpl.
    + now rewrite str_eqb_refl.
    + destruct (str_eqb_spec k k'); [contradiction | exact IH].
Qed.

Lemma assoc_put_other o k k' v : k' <> k -> assoc k' (put o k v) = assoc k' o.
Proof.
  intros Hne. induction o as [|[k0 v0] o IH]; simpl.
  - destruct (str_eqb_spec k' k); [contradiction | reflexivity].
  - destruct (str_eqb_spec k k0) as [->|Hk]; simpl.
    + destruct (str_eqb_spec k' k0); [contradiction | reflexivity].
    + now rewrite IH.
Qed.

Lemma member_put_same o k v : member (put o k v) k = v.
Proof. unfold member. now rewrite assoc_put_same. Qed.

Lemma member_put_other o k k' v : k' <> k -> member (put o k v) k' = member o k'.
Proof. intros H. unfold member. now rewrite assoc_put_other. Qed.

(** A member of [{ ...dst, ...src }] is the one of [src] if [src] has it,
    else the one of [dst]. *)
Lemma member_spread src : forall dst k,
  NoDup (map fst src) ->
  member (spread dst src) k
  = match assoc k src with
    | Some v => v
    | None => member dst k
    end.
Proof.
  induction src as [|[k0 v0] src IH]; intros dst k Hnd; [reflexivity|].
  inversion Hnd as [|? ? Hnotin Hnd']; subst.
  change (spread dst ((k0, v0) :: src)) with (spread (put dst k0 v0) src).
  rewrite IH by assumption. simpl.
  destruct (str_eqb_spec k k0) as [->|Hne].
  - rewrite (assoc_not_in _ _ Hnotin). apply member_put_same.
  - destruct (assoc k src); [reflexivity | now apply member_put_other].
Qed.

Lemma assoc_rest_without h o k : k <> h -> assoc k (rest_without h o) = assoc k o.
Proof.
  intros Hne. induction o as [|[k0 v0] o IH]; simpl; [reflexivity|].
  destruct (str_eqb_spec k0 h) as [->|Hk]; simpl.
  - destruct (str_eqb_spec k h); [contradiction | exact IH].
  - now rewrite IH.
Qed.

Lemma rest_without_NoDup h o :
  NoDup (map fst o) -> NoDup (map fst (rest_without h o)).
Proof.
  induction o as [|[k0 v0] o IH]; simpl; intros Hnd; [constructor|].
  inversion Hnd as [|? ? Hnotin Hnd']; subst.
  destruct (str_eqb k0 h); simpl; [now apply IH|].
  constructor; [|now apply IH].
  intros Hin. apply Hnotin. unfold rest_without in Hin.
  apply in_map_iff in Hin. destruct Hin as ([k1 v1] & Heq & Hin).
  apply filter_In in Hin. apply in_map_iff. exists (k1, v1). tauto.
Qed.

(** ** Base64 *)

(** Division and remainder by a constant are linear arithmetic. *)
Ltac Zify.zify_post_hook ::= Z.to_euclidean_division_equations.

Lemma list_ind3 {A} (P : list A -> Prop) :
  P [] -> (forall a, P [a]) -> (forall a b, P [a; b]) ->
  (forall a b c l, P l -> P (a :: b :: c :: l)) ->
  forall l, P l.
Proof.
  intros H0 H1 H2 H3. fix IH 1.
  intros [|a [|b [|c l]]]; [apply H0 | apply H1 | apply H2 | apply H3, IH].
Qed.

(** Comparisons whose outcome arithmetic settles. *)
Ltac settle_comparisons :=
  repeat match goal with
         | |- context [N.leb ?a ?b] =>
             first [ rewrite (proj2 (N.leb_le a b)) by lia
                   | rewrite (proj2 (N.leb_gt a b)) by lia ]
         | |- context [N.ltb ?a ?b] =>
             first [ rewrite (proj2 (N.ltb_lt a b)) by lia
                   | rewrite (proj2 (N.ltb_ge a b)) by lia ]
         | |- context [N.eqb ?a ?b] =>
             first [ rewrite (proj2 (N.eqb_eq a b)) by lia
                   | rewrite (proj2 (N.eqb_neq a b)) by lia ]
         end;
  cbn [andb orb negb].

Module Base64Facts.
Import Base64.
Local Open Scope N_scope.

Ltac split_sextet s :=
  destruct (N.ltb_spec s 26);
  [|destruct (N.ltb_spec s 52);
    [|destruct (N.ltb_spec s 62); [|destruct (N.eqb_spec s 62)]]].

Lemma dec_enc s : s < 64 -> dec (enc s) = Some s.
Proof.
  intros Hs. unfold enc. split_sextet s; unfold dec; settle_comparisons;
    f_equal; lia.
Qed.

(** A character of the alphabet is no padding, no white space and none of
    the two characters of the URL-safe variant. *)
Lemma enc_plain s :
  s < 64 ->
  enc s <> pad /\ is_ascii_whitespace (enc s) = false
  /\ enc s <> 45 /\ enc s <> 95.
Proof.
  intros Hs. unfold enc, pad, is_ascii_whitespace.
  split_sextet s; settle_comparisons; repeat split; lia.
Qed.

Lemma encode_split bs : encode bs = encode_body bs ++ encode_padding bs.
Proof.
  induction bs as [| a | a b | a b c l IH] using list_ind3; try reflexivity.
  cbn [encode encode_body encode_padding]. now rewrite IH.
Qed.

Ltac bytes_of H :=
  repeat match type of H with
         | Forall _ (_ :: _) =>
             let Hb := fresh "Hb" in
             let Hr := fresh "Hr" in
             inversion H as [|? ? Hb Hr]; subst; clear H; rename Hr into H
         end.

Lemma encode_body_plain bs :
  Forall (fun b => b < 256) bs -> Forall plain (encode_body bs).
Proof.
  induction bs as [| a | a b | a b c l IH] using list_ind3; intros H;
    cbn [encode_body]; bytes_of H;
    repeat (constructor; [eexists; (split; [|reflexivity]); lia|]);
    first [constructor | now apply IH].
Qed.

Lemma plain_not_pad s : Forall plain s -> Forall (fun c => c <> pad) s.
Proof.
  intros H. eapply Forall_impl; [|exact H].
  intros c (x & Hx & ->). now apply enc_plain.
Qed.

(** Decoding the characters of an encoding gives the bytes back. *)
Lemma decode_encode_body bs :
  Forall (fun b => b < 256) bs ->
  exists ss, sextets (encode_body bs) = Some ss /\ bytes_of_sextets ss = bs.
Proof.
  induction bs as [| a | a b | a b c l IH] using list_ind3; intros H;
    cbn [encode_body sextets]; bytes_of H.
  - now exists [].
  - rewrite !dec_enc by lia. eexists; split; [reflexivity|].
    cbn [bytes_of_sextets]. f_equal; lia.
  - rewrite !dec_enc by lia. eexists; split; [reflexivity|].
    cbn [bytes_of_sextets]. repeat (f_equal; try lia).
  - destruct (IH H) as (ss & Hss & Hbytes).
    rewrite !dec_enc by lia. rewrite Hss. eexists; split; [reflexivity|].
    cbn [bytes_of_sextets]. rewrite Hbytes. repeat (f_equal; try lia).
Qed.

Lemma encode_body_length bs :
  N.of_nat (List.length (encode_body bs)) mod 4 <> 1.
Proof.
  induction bs as [| a | a b | a b c l IH] using list_ind3;
    cbn [encode_body List.length]; lia.
Qed.

Lemma drop_padding_plain s : Forall (fun c => c <> pad) s -> drop_padding s = s.
Proof.
  intros H. unfold drop_padding.
  destruct (rev s) as [|p1 r] eqn:Hrev; [reflexivity|].
  assert (Hp : p1 <> pad).
  { rewrite Forall_forall in H. apply H. apply in_rev. rewrite Hrev. now left. }
  apply N.eqb_neq in Hp. rewrite Hp. now destruct r.
Qed.

Lemma filter_whitespace_plain s :
  Forall plain s -> filter (fun c => negb (is_ascii_whitespace c)) s = s.
Proof.
  induction 1 as [|c s (x & Hx & ->) _ IH]; [reflexivity|].
  cbn [filter]. destruct (enc_plain x Hx) as (_ & -> & _). cbn [negb].
  now rewrite IH.
Qed.

(** [atob] undoes [btoa] also when the padding has been taken away. *)
Lemma atob_encode_body bs :
  Forall (fun b => b < 256) bs -> atob (encode_body bs) = Ok bs.
Proof.
  intros Hb. pose proof (encode_body_plain bs Hb) as Hplain.
  unfold atob. rewrite filter_whitespace_plain by assumption.
  rewrite drop_padding_plain by now apply plain_not_pad.
  assert (Hlen := encode_body_length bs).
  destruct (N.eqb_spec (N.of_nat (List.length (encode_body bs)) mod 4) 0);
    (destruct (N.eqb_spec (N.of_nat (List.length (encode_body bs)) mod 4) 1);
     [contradiction|]);
    destruct (decode_encode_body bs Hb) as (ss & -> & ->); reflexivity.
Qed.

End Base64Facts.

(** ** The retry condition and the error header *)

Lemma should_retry_iff b req proxyStatus :
  should_retry b 0 req proxyStatus = true
  <-> retry b = Some true
      /\ member req (js "method") = VString (js "GET")
      /\ proxyStatus = Some (js "502").
Proof.
  unfold should_retry, strict_equal. split.
  - intros H. repeat (apply andb_true_iff in H; destruct H as [H ?]).
    destruct (retry b) as [[|]|]; try discriminate.
    destruct (member req (js "method")) as [|s| |]; try discriminate.
    destruct proxyStatus as [st|]; try discriminate.
    repeat split; f_equal; [f_equal|]; now apply str_eqb_eq.
  - intros (-> & -> & ->). now rewrite !str_eqb_refl.
Qed.

Lemma should_retry_later b i req proxyStatus :
  should_retry b (S i) req proxyStatus = false.
Proof. unfold should_retry. destruct (retry b) as [[|]|]; reflexivity. Qed.

Lemma error_text_none resp :
  error_text resp = None
  <-> Headers.get (resp_headers resp) HeaderError = None
      \/ Headers.get (resp_headers resp) HeaderError = Some [].
Proof.
  unfold error_text.
  destruct (Headers.get (resp_headers resp) HeaderError) as [[|c err]|];
    split; intros H; try reflexivity; try discriminate; auto;
    destruct H; discriminate.
Qed.

Lemma error_text_some resp err :
  error_text resp = Some err
  <-> Headers.get (resp_headers resp) HeaderError = Some err /\ err <> [].
Proof.
  unfold error_text.
  destruct (Headers.get (resp_headers resp) HeaderError) as [[|c e]|]; split;
    try discriminate; try (intros [H Hne]; congruence); try tauto.
  intros H; injection H as <-. split; [reflexivity | discriminate].
Qed.

(** ** UTF-8 *)

Lemma list_ind2 {A} (P : list A -> Prop) :
  P [] -> (forall a, P [a]) ->
  (forall a b l, P l -> P (b :: l) -> P (a :: b :: l)) ->
  forall l, P l.
Proof.
  intros H0 H1 H2 l.
  enough (H : P l /\ forall a, P (a :: l)) by apply H.
  induction l as [|b l [IH1 IH2]]; split; auto.
Qed.

Module Utf8Facts.
Import Utf8.
Local Open Scope N_scope.

Lemma code_points_cons c t :
  code_points (c :: t)
  = if is_lead c then
      match t with
      | d :: t' =>
          if is_trail d
          then (0x10000 + (c - 0xD800) * 0x400 + (d - 0xDC00)) :: code_points t'
          else 0xFFFD :: code_points t
      | [] => [0xFFFD]
      end
    else if is_trail c then 0xFFFD :: code_points t
    else c :: code_points t.
Proof. reflexivity. Qed.

Lemma encode_cons_plain c t :
  is_lead c = false -> is_trail c = false ->
  encode (c :: t) = encode_cp c ++ encode t.
Proof. intros Hl Ht. unfold encode. cbn [code_points]. now rewrite Hl, Ht. Qed.

Lemma encode_cons_pair c d t :
  is_lead c = true -> is_trail d = true ->
  encode (c :: d :: t)
  = encode_cp (0x10000 + (c - 0xD800) * 0x400 + (d - 0xDC00)) ++ encode t.
Proof. intros Hl Ht. unfold encode. cbn [code_points]. now rewrite Hl, Ht. Qed.

Lemma code_points_bounded s :
  code_units s -> Forall (fun cp => cp < 0x110000) (code_points s).
Proof.
  unfold code_units.
  induction s as [| c | c d t IH1 IH2] using list_ind2; intros H.
  - constructor.
  - inversion_clear H. cbn [code_points].
    destruct (is_lead c); [repeat constructor; lia|].
    destruct (is_trail c); repeat constructor; lia.
  - inversion H as [|? ? Hc Ht]; subst. inversion Ht as [|? ? Hd Ht']; subst.
    rewrite code_points_cons.
    destruct (is_lead c) eqn:Hl.
    + destruct (is_trail d) eqn:Htr.
      * constructor; [|now apply IH1].
        unfold is_lead, is_trail in *.
        apply andb_true_iff in Hl, Htr. rewrite !N.leb_le in Hl, Htr. lia.
      * constructor; [lia | now apply IH2].
    + destruct (is_trail c); (constructor; [lia | now apply IH2]).
Qed.

Lemma encode_cp_bytes cp :
  cp < 0x110000 -> Forall (fun b => b < 256) (encode_cp cp).
Proof.
  intros H. unfold encode_cp.
  destruct (N.ltb_spec cp 0x80); [|destruct (N.ltb_spec cp 0x800);
    [|destruct (N.ltb_spec cp 0x10000)]]; repeat constructor; lia.
Qed.

(** [TextEncoder] writes bytes. *)
Lemma encode_bytes s : code_units s -> Forall (fun b => b < 256) (encode s).
Proof.
  intros H. apply code_points_bounded in H. unfold encode.
  induction H as [|cp cps Hcp _ IH]; cbn [flat_map]; [constructor|].
  apply Forall_app. split; [now apply encode_cp_bytes | exact IH].
Qed.

Lemma decode_encode_cp cp rest :
  cp < 0x110000 ->
  decode (encode_cp cp ++ rest) = option_map (app (utf16 cp)) (decode rest).
Proof.
  intros H. unfold encode_cp.
  destruct (N.ltb_spec cp 0x80); [|destruct (N.ltb_spec cp 0x800);
    [|destruct (N.ltb_spec cp 0x10000)]];
    cbn [app decode]; unfold is_continuation; settle_comparisons.
  - unfold utf16. settle_comparisons. now destruct (decode rest).
  - replace ((0xC0 + cp / 64 - 0xC0) * 64 + (0x80 + cp mod 64 - 0x80)) with cp by lia.
    reflexivity.
  - replace (((0xE0 + cp / 4096 - 0xE0) * 64 + (0x80 + cp / 64 mod 64 - 0x80)) * 64
             + (0x80 + cp mod 64 - 0x80)) with cp by lia.
    reflexivity.
  - replace ((((0xF0 + cp / 262144 - 0xF0) * 64 + (0x80 + cp / 4096 mod 64 - 0x80)) * 64
              + (0x80 + cp / 64 mod 64 - 0x80)) * 64 + (0x80 + cp mod 64 - 0x80))
      with cp by lia.
    reflexivity.
Qed.

Lemma well_formed_code_units s : well_formed s = true -> code_units s.
Proof.
  unfold code_units.
  induction s as [| c | c d t IH1 IH2] using list_ind2; cbn [well_formed]; intros H.
  - constructor.
  - apply andb_true_iff in H. destruct H as [H _]. apply N.ltb_lt in H.
    now repeat constructor.
  - apply andb_true_iff in H. destruct H as [Hc H]. apply N.ltb_lt in Hc.
    constructor; [exact Hc|].
    destruct (is_lead c).
    + apply andb_true_iff in H. destruct H as [Hd H].
      constructor; [|now apply IH1].
      unfold is_trail in Hd. apply andb_true_iff in Hd.
      rewrite !N.leb_le in Hd. lia.
    + apply andb_true_iff in H. destruct H as [_ H]. now apply IH2.
Qed.

(** Decoding what [TextEncoder] wrote gives the string back, provided its
    surrogates come in pairs. *)
Lemma decode_encode s : well_formed s = true -> decode (encode s) = Some s.
Proof.
  induction s as [| c | c d t IH1 IH2] using list_ind2; intros H.
  - reflexivity.
  - cbn [well_formed] in H. apply andb_true_iff in H. destruct H as [Hc H].
    apply N.ltb_lt in Hc.
    destruct (is_lead c) eqn:Hl; [discriminate|].
    apply andb_true_iff in H. destruct H as [Ht _]. apply negb_true_iff in Ht.
    rewrite encode_cons_plain by assumption.
    rewrite decode_encode_cp by lia. unfold utf16.
    settle_comparisons. reflexivity.
  - pose proof H as Hwf. cbn [well_formed] in H.
    apply andb_true_iff in H. destruct H as [Hc H]. apply N.ltb_lt in Hc.
    destruct (is_lead c) eqn:Hl.
    + apply andb_true_iff in H. destruct H as [Hd H].
      rewrite encode_cons_pair by assumption.
      unfold is_lead in Hl. unfold is_trail in Hd.
      apply andb_true_iff in Hl, Hd. rewrite !N.leb_le in Hl, Hd.
      rewrite decode_encode_cp by lia. rewrite (IH1 H). unfold utf16.
      settle_comparisons. cbn [option_map app]. repeat (f_equal; try lia).
    + apply andb_true_iff in H. destruct H as [Ht H]. apply negb_true_iff in Ht.
      rewrite encode_cons_plain by assumption.
      rewrite decode_encode_cp by lia. rewrite (IH2 H). unfold utf16.
      settle_comparisons. reflexivity.
Qed.

(** On ASCII, which is all the href of a URL contains, [TextEncoder] changes
    nothing. *)
Lemma encode_ascii s : Forall (fun c => c < 128) s -> encode s = s.
Proof.
  induction 1 as [|c t Hc _ IH]; [reflexivity|].
  rewrite encode_cons_plain
    by (unfold is_lead, is_trail; settle_comparisons; reflexivity).
  rewrite IH. unfold encode_cp. settle_comparisons. reflexivity.
Qed.

End Utf8Facts.

(** ** The URL-safe transform *)

Module UrlSafeFacts.
Import Base64 Base64Facts.
Local Open Scope N_scope.

Lemma fold_append (l acc : list N) :
  fold_left (fun bin byte => bin ++ [byte]) l acc = acc ++ l.
Proof.
  revert acc. induction l as [|b l IH]; intros acc; cbn [fold_left].
  - now rewrite app_nil_r.
  - rewrite IH. now rewrite <- app_assoc.
Qed.

Lemma strip_trailing_all c p : Forall (eq c) p -> strip_trailing c p = [].
Proof.
  induction 1 as [|x p <- _ IH]; [reflexivity|].
  cbn [strip_trailing]. rewrite IH. now rewrite N.eqb_refl.
Qed.

Lemma strip_trailing_app c s p :
  Forall (fun x => x <> c) s -> Forall (eq c) p -> strip_trailing c (s ++ p) = s.
Proof.
  intros Hs Hp. induction Hs as [|x s Hx Hs IH]; cbn [app].
  - now apply strip_trailing_all.
  - cbn [strip_trailing]. rewrite IH.
    destruct s; [|reflexivity].
    apply N.eqb_neq in Hx. now rewrite Hx.
Qed.

Lemma encode_padding_pads bs : Forall (eq pad) (encode_padding bs).
Proof.
  induction bs as [| a | a b | a b c l IH] using list_ind3;
    cbn [encode_padding]; repeat constructor; assumption.
Qed.

Lemma urlsafe_padding p : Forall (eq pad) p -> urlsafe_alphabet p = p.
Proof.
  induction 1 as [|x p <- _ IH]; [reflexivity|].
  unfold urlsafe_alphabet, replace_all in *. cbn [map]. now rewrite IH.
Qed.

Lemma urlsafe_app s p :
  urlsafe_alphabet (s ++ p) = urlsafe_alphabet s ++ urlsafe_alphabet p.
Proof. unfold urlsafe_alphabet, replace_all. now rewrite !map_app. Qed.

Lemma urlsafe_not_pad s :
  Forall plain s -> Forall (fun c => c <> pad) (urlsafe_alphabet s).
Proof.
  induction 1 as [|c s (x & Hx & ->) _ IH]; [constructor|].
  unfold urlsafe_alphabet, replace_all in *. cbn [map].
  constructor; [|exact IH].
  destruct (enc_plain x Hx) as (Hp & _). unfold pad in *.
  destruct (N.eqb_spec (enc x) 43) as [E|E]; [cbn; lia|].
  destruct (N.eqb_spec (enc x) 47) as [E'|E']; [lia | exact Hp].
Qed.

(** Mapping back undoes the mapping: the alphabet has neither [-] nor [_]. *)
Lemma standard_urlsafe s :
  Forall plain s -> standard_alphabet (urlsafe_alphabet s) = s.
Proof.
  induction 1 as [|c s (x & Hx & ->) _ IH]; [reflexivity|].
  unfold standard_alphabet, urlsafe_alphabet, replace_all in *. cbn [map].
  rewrite IH. f_equal.
  destruct (enc_plain x Hx) as (_ & _ & H45 & H95).
  destruct (N.eqb_spec (enc x) 43) as [H43|H43]; [now rewrite H43|].
  destruct (N.eqb_spec (enc x) 47) as [H47|H47]; [now rewrite H47|].
  apply N.eqb_neq in H45, H95. now rewrite H45, H95.
Qed.

Lemma urlsafe_characters s :
  Forall plain s ->
  Forall (fun c => c <> 61 /\ c <> 43 /\ c <> 47) (urlsafe_alphabet s).
Proof.
  induction 1 as [|c s (x & Hx & ->) _ IH]; [constructor|].
  unfold urlsafe_alphabet, replace_all in *. cbn [map].
  constructor; [|exact IH].
  destruct (enc_plain x Hx) as (Hp & _). unfold pad in *.
  destruct (N.eqb_spec (enc x) 43) as [E|E]; [cbn; lia|].
  destruct (N.eqb_spec (enc x) 47) as [E'|E']; lia.
Qed.

(** What [b64urlEncode] returns: it never fails, and the padding is gone. *)
Lemma b64urlEncode_value s :
  code_units s ->
  b64urlEncode s = Ok (urlsafe_alphabet (encode_body (Utf8.encode s))).
Proof.
  intros Hs. pose proof (Utf8Facts.encode_bytes s Hs) as Hb.
  unfold b64urlEncode, btoa. rewrite fold_append. cbn [app].
  assert (Hall : forallb (fun c => c <? 256) (Utf8.encode s) = true).
  { apply forallb_forall. rewrite Forall_forall in Hb.
    intros c Hc. apply N.ltb_lt. now apply Hb. }
  rewrite Hall. cbn [obind]. f_equal.
  rewrite encode_split.
  change (replace_all 47 95 (replace_all 43 45 ?x)) with (urlsafe_alphabet x).
  rewrite urlsafe_app.
  rewrite (urlsafe_padding _ (encode_padding_pads _)).
  apply strip_trailing_app.
  - apply urlsafe_not_pad. now apply encode_body_plain.
  - apply encode_padding_pads.
Qed.

(** Reversing the transform gives the bytes back. *)
Lemma atob_urlsafe bs :
  Forall (fun b => b < 256) bs ->
  atob (standard_alphabet (urlsafe_alphabet (encode_body bs))) = Ok bs.
Proof.
  intros Hb. rewrite standard_urlsafe by now apply encode_body_plain.
  now apply atob_encode_body.
Qed.

End UrlSafeFacts.

(** ** Header lists *)

Module HeadersFacts.
Import Headers.

Lemma name_eqb_eq a b : name_eqb a b = true <-> toLowerCase a = toLowerCase b.
Proof. apply str_eqb_eq. Qed.

Lemma name_eqb_neq a b : name_eqb a b = false <-> toLowerCase a <> toLowerCase b.
Proof. apply str_eqb_neq. Qed.

Lemma name_eqb_refl a : name_eqb a a = true.
Proof. now apply name_eqb_eq. Qed.

Lemma filter_absorb {A} (P Q : A -> bool) l :
  (forall x, P x = true -> Q x = true) -> filter P (filter Q l) = filter P l.
Proof.
  intros H. induction l as [|x l IH]; [reflexivity|]. cbn [filter].
  destruct (Q x) eqn:HQ; cbn [filter]; rewrite IH; [reflexivity|].
  destruct (P x) eqn:HP; [|reflexivity].
  rewrite (H x HP) in HQ. discriminate.
Qed.

(** Deleting one name leaves the values of every other name alone. *)
Lemma values_delete_other h k n :
  name_eqb n k = false -> values (delete h k) n = values h n.
Proof.
  intros Hne. unfold values, delete. f_equal. apply filter_absorb.
  intros [n0 v0] Hm. cbn [fst] in *. apply negb_true_iff.
  apply name_eqb_eq in Hm. apply name_eqb_neq in Hne. apply name_eqb_neq.
  congruence.
Qed.

Lemma values_delete_same h k : values (delete h k) k = [].
Proof.
  unfold values, delete. induction h as [|[n0 v0] h IH]; [reflexivity|].
  cbn [filter fst]. destruct (name_eqb n0 k) eqn:Hm; cbn [negb filter fst];
    [exact IH | now rewrite Hm].
Qed.

Lemma values_set_same h k v : values (set h k v) k = [v].
Proof.
  induction h as [|[n0 v0] h IH]; cbn [set].
  - unfold values. cbn [filter fst]. now rewrite name_eqb_refl.
  - destruct (name_eqb n0 k) eqn:Hm.
    + unfold values. cbn [filter fst]. rewrite Hm. cbn [map snd].
      f_equal. apply values_delete_same.
    + unfold values in *. cbn [filter fst]. now rewrite Hm.
Qed.

Lemma values_set_other h k v n :
  name_eqb n k = false -> values (set h k v) n = values h n.
Proof.
  intros Hne. induction h as [|[n0 v0] h IH]; cbn [set].
  - unfold values. cbn [filter fst].
    assert (Hkn : name_eqb k n = false).
    { apply name_eqb_neq. apply name_eqb_neq in Hne. congruence. }
    now rewrite Hkn.
  - destruct (name_eqb n0 k) eqn:Hm.
    + assert (Hn0 : name_eqb n0 n = false).
      { apply name_eqb_neq. apply name_eqb_neq in Hne. apply name_eqb_eq in Hm.
        congruence. }
      unfold values at 1 2. cbn [filter fst]. rewrite Hn0.
      now apply values_delete_other.
    + unfold values in *. cbn [filter fst].
      destruct (name_eqb n0 n); cbn [map]; now rewrite IH.
Qed.

Lemma get_set_same h k v : get (set h k v) k = Some v.
Proof. unfold get. now rewrite values_set_same. Qed.

Lemma get_set_other h k v n :
  name_eqb n k = false -> get (set h k v) n = get h n.
Proof. intros H. unfold get. now rewrite values_set_other. Qed.

(** *** The iteration ends *)

Lemma insert_sorted_length x l :
  (List.length (insert_sorted x l) <= S (List.length l))%nat.
Proof.
  induction l as [|y l IH]; cbn [insert_sorted List.length]; [lia|].
  destruct (str_eqb x y); [cbn [List.length]; lia|].
  destruct (str_ltb x y); cbn [List.length]; lia.
Qed.

Lemma sorted_names_length h :
  (List.length (sorted_names h) <= List.length h)%nat.
Proof.
  induction h as [|p h IH]; cbn [sorted_names fold_right List.length]; [lia|].
  pose proof (insert_sorted_length (toLowerCase (fst p)) (sorted_names h)).
  unfold sorted_names in *. lia.
Qed.

Lemma flat_map_length_le {A B} (f : A -> list B) k l :
  (forall x, List.length (f x) <= k)%nat ->
  (List.length (flat_map f l) <= List.length l * k)%nat.
Proof.
  intros H. induction l as [|x l IH]; cbn [flat_map List.length]; [lia|].
  rewrite length_app. pose proof (H x). lia.
Qed.

Lemma values_length h n : (List.length (values h n) <= List.length h)%nat.
Proof. unfold values. rewrite length_map. apply filter_length_le. Qed.

Lemma sort_and_combine_length h :
  (List.length (sort_and_combine h) <= bound h)%nat.
Proof.
  unfold sort_and_combine, bound.
  etransitivity.
  - apply flat_map_length_le with (k := S (List.length h)).
    intros name. destruct (str_eqb name (js "set-cookie")).
    + rewrite length_map. pose proof (values_length h name). lia.
    + destruct (get h name); cbn [List.length]; lia.
  - pose proof (sorted_names_length h). nia.
Qed.

Lemma bound_mono h h' :
  (List.length h' <= List.length h)%nat -> (bound h' <= bound h)%nat.
Proof. unfold bound. nia. Qed.

(** With a callback that never makes the list longer, the iteration is over
    before the fuel is. *)
Lemma forEach_terminates cb :
  (forall v k h, List.length (cb v k h) <= List.length h)%nat ->
  forall fuel i h,
    (bound h < fuel + i)%nat ->
    exists h',
      forEach_from fuel cb i h = Some h' /\ (List.length h' <= List.length h)%nat.
Proof.
  intros Hcb. induction fuel as [|fuel IH]; intros i h Hb; cbn [forEach_from].
  - pose proof (sort_and_combine_length h) as Hl.
    destruct (nth_error (sort_and_combine h) i) as [[k v]|] eqn:Hn.
    + assert (nth_error (sort_and_combine h) i <> None) as Hi by congruence.
      apply nth_error_Some in Hi. lia.
    + exists h. split; [reflexivity | lia].
  - destruct (nth_error (sort_and_combine h) i) as [[k v]|] eqn:Hn.
    + pose proof (Hcb v k h) as Hlen. pose proof (bound_mono _ _ Hlen).
      destruct (IH (S i) (cb v k h)) as (h' & Hh' & Hl'); [lia|].
      exists h'. split; [exact Hh' | lia].
    + exists h. split; [reflexivity | lia].
Qed.

Lemma delete_length h k : (List.length (delete h k) <= List.length h)%nat.
Proof. apply filter_length_le. Qed.

End HeadersFacts.

(** ** The header filter *)

Lemma drop_if_private_length v k h :
  (List.length (drop_if_private v k h) <= List.length h)%nat.
Proof.
  unfold drop_if_private. destruct (is_private _); [|lia].
  apply HeadersFacts.delete_length.
Qed.

(** The filter ends: the iteration it runs never goes out of fuel. *)
Lemma remove_private_headers_ends h :
  exists h',
    Headers.forEach_from (S (Headers.bound h)) drop_if_private 0 h = Some h'
    /\ remove_private_headers h = h'.
Proof.
  destruct (HeadersFacts.forEach_terminates drop_if_private drop_if_private_length
              (S (Headers.bound h)) 0 h) as (h' & Hh' & _); [lia|].
  exists h'. split; [exact Hh'|]. unfold remove_private_headers. now rewrite Hh'.
Qed.

(** A header that the test of line 77 does not hit keeps its values whatever
    the iteration does. *)
Lemma forEach_keeps_public n :
  is_private (toLowerCase n) = false ->
  forall fuel i h h',
    Headers.forEach_from fuel drop_if_private i h = Some h' ->
    Headers.values h' n = Headers.values h n.
Proof.
  intros Hn. induction fuel as [|fuel IH]; intros i h h'; cbn [Headers.forEach_from];
    destruct (nth_error (Headers.sort_and_combine h) i) as [[k v]|];
    try discriminate; try (now intros [= <-]).
  intros H. rewrite (IH _ _ _ H). unfold drop_if_private.
  destruct (is_private (toLowerCase k)) eqn:Hk; [|reflexivity].
  apply HeadersFacts.values_delete_other. apply HeadersFacts.name_eqb_neq.
  congruence.
Qed.

Lemma remove_private_headers_keeps n h :
  is_private (toLowerCase n) = false ->
  Headers.get (remove_private_headers h) n = Headers.get h n.
Proof.
  intros Hn. destruct (remove_private_headers_ends h) as (h' & Hrun & ->).
  unfold Headers.get. now rewrite (forEach_keeps_public n Hn _ _ _ _ Hrun).
Qed.

(** ** More on the two alphabets *)

Module EncodingFacts.
Import Base64 Base64Facts UrlSafeFacts.
Local Open Scope N_scope.

Lemma urlsafe_alphabet_safe s :
  Forall plain s -> forallb is_urlsafe (urlsafe_alphabet s) = true.
Proof.
  induction 1 as [|c s (x & Hx & ->) _ IH]; [reflexivity|].
  unfold urlsafe_alphabet, replace_all in *. cbn [map forallb].
  rewrite IH, andb_true_r.
  unfold enc, is_urlsafe. split_sextet x; settle_comparisons; reflexivity.
Qed.

Lemma encode_body_length_exact bs :
  List.length (encode_body bs) = ((4 * List.length bs + 2) / 3)%nat.
Proof.
  induction bs as [| a | a b | a b c l IH] using list_ind3;
    cbn [encode_body List.length]; try reflexivity.
  rewrite IH.
  replace (4 * S (S (S (List.length l))) + 2)%nat
    with (4 * List.length l + 2 + 4 * 3)%nat by lia.
  rewrite Nat.div_add by discriminate. lia.
Qed.

Lemma urlsafe_length s : List.length (urlsafe_alphabet s) = List.length s.
Proof. unfold urlsafe_alphabet, replace_all. now rewrite !length_map. Qed.

End EncodingFacts.

Module PaddingFacts.
Import Base64 Base64Facts.
Local Open Scope N_scope.

Lemma enc_not_dot x : x < 64 -> enc x <> 46.
Proof. intros Hx. unfold enc. split_sextet x; lia. Qed.

Lemma encode_padding_cases bs :
  encode_padding bs = [] \/ encode_padding bs = [pad] \/ encode_padding bs = [pad; pad].
Proof.
  induction bs as [| a | a b | a b c l IH] using list_ind3;
    cbn [encode_padding]; auto.
Qed.

Lemma encode_length bs : N.of_nat (List.length (encode bs)) mod 4 = 0.
Proof.
  induction bs as [| a | a b | a b c l IH] using list_ind3;
    cbn [encode List.length]; try reflexivity. lia.
Qed.

Lemma drop_padding_encode bs :
  Forall (fun b => b < 256) bs -> drop_padding (encode bs) = encode_body bs.
Proof.
  intros Hb. rewrite encode_split.
  pose proof (plain_not_pad _ (encode_body_plain bs Hb)) as Hplain.
  destruct (encode_padding_cases bs) as [-> | [-> | ->]].
  - rewrite app_nil_r. now apply drop_padding_plain.
  - unfold drop_padding. rewrite rev_app_distr. cbn [rev app].
    destruct (rev (encode_body bs)) as [|p2 r] eqn:Hrev.
    + rewrite N.eqb_refl. apply (f_equal (@rev N)) in Hrev.
      rewrite rev_involutive in Hrev. now rewrite Hrev.
    + rewrite N.eqb_refl.
      assert (Hp2 : p2 <> pad).
      { rewrite Forall_forall in Hplain. apply Hplain. apply in_rev.
        rewrite Hrev. now left. }
      apply N.eqb_neq in Hp2. rewrite Hp2.
      apply (f_equal (@rev N)) in Hrev. rewrite rev_involutive in Hrev.
      now rewrite Hrev.
  - unfold drop_padding. rewrite rev_app_distr. cbn [rev app].
    rewrite !N.eqb_refl. apply rev_involutive.
Qed.

Lemma filter_whitespace_encode bs :
  Forall (fun b => b < 256) bs ->
  filter (fun c => negb (is_ascii_whitespace c)) (encode bs) = encode bs.
Proof.
  intros Hb. rewrite encode_split, filter_app.
  rewrite filter_whitespace_plain by now apply encode_body_plain.
  f_equal. destruct (encode_padding_cases bs) as [-> | [-> | ->]]; reflexivity.
Qed.

(** [atob] undoes [btoa], padding and all. *)
Lemma atob_encode bs : Forall (fun b => b < 256) bs -> atob (encode bs) = Ok bs.
Proof.
  intros Hb. unfold atob. rewrite filter_whitespace_encode by assumption.
  rewrite encode_length. cbn [N.eqb]. rewrite drop_padding_encode by assumption.
  pose proof (encode_body_length bs) as Hlen.
  apply N.eqb_neq in Hlen. rewrite Hlen.
  destruct (decode_encode_body bs Hb) as (ss & -> & ->). reflexivity.
Qed.

Lemma encode_standard bs :
  Forall (fun b => b < 256) bs -> standard_alphabet (encode bs) = encode bs.
Proof.
  intros Hb. rewrite encode_split.
  unfold standard_alphabet, replace_all. rewrite !map_app. f_equal.
  - pose proof (encode_body_plain bs Hb) as Hp.
    induction Hp as [|c s (x & Hx & ->) _ IH]; [reflexivity|]. cbn [map].
    rewrite IH. f_equal.
    destruct (enc_plain x Hx) as (_ & _ & H45 & H95).
    apply N.eqb_neq in H45, H95. now rewrite H45, H95.
  - destruct (encode_padding_cases bs) as [-> | [-> | ->]]; reflexivity.
Qed.

Lemma encode_no_dot bs : Forall (fun b => b < 256) bs -> ~ In 46 (encode bs).
Proof.
  intros Hb Hin. rewrite encode_split in Hin. apply in_app_or in Hin.
  destruct Hin as [Hin | Hin].
  - pose proof (encode_body_plain bs Hb) as Hp. rewrite Forall_forall in Hp.
    destruct (Hp _ Hin) as (x & Hx & Heq). now apply (enc_not_dot x Hx).
  - destruct (encode_padding_cases bs) as [E | [E | E]]; rewrite E in Hin;
      cbn in Hin; unfold pad in Hin; intuition discriminate.
Qed.

Lemma urlsafe_no_dot s : Forall plain s -> ~ In 46 (urlsafe_alphabet s).
Proof.
  intros Hp Hin. apply EncodingFacts.urlsafe_alphabet_safe in Hp.
  rewrite forallb_forall in Hp. specialize (Hp _ Hin). discriminate.
Qed.

Lemma encode_body_nil bs : encode_body bs = [] -> bs = [].
Proof. destruct bs as [|a [|b [|c l]]]; cbn [encode_body]; congruence. Qed.

End PaddingFacts.

(** The two substitutions, character by character. *)
Lemma standard_alphabet_map s :
  standard_alphabet s
  = map (fun c => if N.eqb c 45 then 43%N else if N.eqb c 95 then 47%N else c) s.
Proof.
  unfold standard_alphabet, replace_all. rewrite map_map. apply map_ext.
  intros c. destruct (N.eqb_spec c 45) as [->|_]; reflexivity.
Qed.

Lemma urlsafe_alphabet_map s :
  urlsafe_alphabet s
  = map (fun c => if N.eqb c 43 then 45%N else if N.eqb c 47 then 95%N else c) s.
Proof.
  unfold urlsafe_alphabet, replace_all. rewrite map_map. apply map_ext.
  intros c. destruct (N.eqb_spec c 43) as [->|_]; reflexivity.
Qed.

(** The padded encoding in the URL-safe alphabet decodes as well. *)
Lemma atob_urlsafe_padded bs :
  Forall (fun b => (b < 256)%N) bs ->
  Base64.atob (standard_alphabet (urlsafe_alphabet (Base64.encode bs))) = Ok bs.
Proof.
  intros Hb.
  replace (standard_alphabet (urlsafe_alphabet (Base64.encode bs)))
    with (Base64.encode bs); [now apply PaddingFacts.atob_encode|].
  rewrite Base64Facts.encode_split, UrlSafeFacts.urlsafe_app.
  rewrite (UrlSafeFacts.urlsafe_padding _ (UrlSafeFacts.encode_padding_pads _)).
  unfold standard_alphabet at 1. unfold replace_all. rewrite !map_app.
  change (map (fun x => if N.eqb x 95 then 47%N else x)
            (map (fun x => if N.eqb x 45 then 43%N else x) ?l))
    with (standard_alphabet l).
  rewrite UrlSafeFacts.standard_urlsafe
    by now apply Base64Facts.encode_body_plain.
  f_equal.
  destruct (PaddingFacts.encode_padding_cases bs) as [-> | [-> | ->]]; reflexivity.
Qed.

(** ** Numbers in decimal *)

Module NumberFacts.

Lemma js_append s t : js (s ++ t)%string = js s ++ js t.
Proof.
  unfold js. induction s as [|a s IH]; [reflexivity|].
  cbn [String.append list_ascii_of_string map app]. now rewrite IH.
Qed.

Lemma string_of_uint_app d d' :
  NilEmpty.string_of_uint (Decimal.app d d')
  = (NilEmpty.string_of_uint d ++ NilEmpty.string_of_uint d')%string.
Proof.
  rewrite <- (DecimalFacts.of_list_to_list (Decimal.app d d')).
  rewrite DecimalFacts.app_spec.
  rewrite <- (DecimalFacts.of_list_to_list d) at 2.
  rewrite <- (DecimalFacts.of_list_to_list d') at 2.
  induction (DecimalFacts.to_list d) as [|x l IH]; [reflexivity|].
  destruct x; cbn [app DecimalFacts.of_list NilEmpty.string_of_uint String.append];
    now rewrite IH.
Qed.

Lemma rev_snoc d d' :
  Decimal.rev (Decimal.app d d') = Decimal.app (Decimal.rev d') (Decimal.rev d).
Proof.
  apply DecimalFacts.to_list_inj.
  rewrite DecimalFacts.rev_spec, !DecimalFacts.app_spec, !DecimalFacts.rev_spec.
  apply rev_app_distr.
Qed.


Lemma of_uint_snoc d x :
  Pos.of_uint (Decimal.app d (DecimalFacts.of_list [x]))
  = (DecimalPos.Unsigned.of_lu (DecimalFacts.of_list [x]) + 10 * Pos.of_uint d)%N.
Proof.
  rewrite !DecimalPos.Unsigned.of_uint_alt, rev_snoc.
  destruct x; cbn [DecimalFacts.of_list Decimal.rev Decimal.revapp Decimal.app];
    rewrite DecimalPos.Unsigned.of_lu_eqn; reflexivity.
Qed.

Lemma to_uint_normal q :
  exists h t, DecimalFacts.to_list (Pos.to_uint q) = h :: t /\ h <> DecimalFacts.d0.
Proof.
  pose proof (DecimalPos.Unsigned.to_of (Pos.to_uint q)) as U.
  rewrite DecimalPos.Unsigned.of_to in U. cbn [N.to_uint] in U.
  apply (f_equal DecimalFacts.to_list) in U.
  rewrite DecimalFacts.unorm_spec in U. unfold DecimalFacts.lunorm in U.
  destruct (DecimalFacts.to_list (Pos.to_uint q)) as [|h t] eqn:E.
  - discriminate U.
  - exists h, t. split; [reflexivity|]. intros ->. cbn [DecimalFacts.lnzhead] in U.
    destruct (DecimalFacts.lnzhead t) as [|h' t'] eqn:E'.
    + injection U as Ht. apply (DecimalPos.Unsigned.to_uint_nonzero q).
      apply DecimalFacts.to_list_inj. now rewrite E, Ht.
    + rewrite <- U in E'. now apply DecimalFacts.lnzhead_neq_d0_head in E'.
Qed.

Lemma to_uint_snoc q x :
  N.to_uint (DecimalPos.Unsigned.of_lu (DecimalFacts.of_list [x]) + 10 * Npos q)
  = Decimal.app (Pos.to_uint q) (DecimalFacts.of_list [x]).
Proof.
  rewrite <- (DecimalPos.Unsigned.of_to q) at 1. rewrite <- of_uint_snoc.
  rewrite DecimalPos.Unsigned.to_of.
  apply DecimalFacts.to_list_inj.
  rewrite DecimalFacts.unorm_spec, DecimalFacts.app_spec.
  destruct (to_uint_normal q) as (h & t & -> & Hh).
  unfold DecimalFacts.lunorm. cbn [app].
  now rewrite DecimalFacts.lnzhead_head_nd0.
Qed.


Lemma string_of_uint_nonnil d :
  d <> Decimal.Nil -> NilZero.string_of_uint d = NilEmpty.string_of_uint d.
Proof. destruct d; [congruence | reflexivity ..]. Qed.

Lemma Z_toString_N n :
  (0 <= n)%Z -> Z_toString n = js (NilZero.string_of_uint (N.to_uint (Z.to_N n))).
Proof. destruct n; [reflexivity | reflexivity | lia]. Qed.

Lemma Z_toString_snoc q x :
  let r := DecimalPos.Unsigned.of_lu (DecimalFacts.of_list [x]) in
  Z_toString (10 * Zpos q + Z.of_N r)
  = Z_toString (Zpos q) ++ [Z.to_N (48 + Z.of_N r)].
Proof.
  intros r.
  replace (10 * Zpos q + Z.of_N r)%Z with (Z.of_N (r + 10 * Npos q)) by lia.
  replace (Z.to_N (48 + Z.of_N r)) with (48 + r)%N by lia.
  rewrite !Z_toString_N by lia. rewrite N2Z.id. cbn [Z.to_N N.to_uint].
  unfold r. rewrite to_uint_snoc.
  rewrite (string_of_uint_nonnil (Pos.to_uint q))
    by apply DecimalPos.Unsigned.to_uint_nonnil.
  rewrite string_of_uint_nonnil.
  - rewrite string_of_uint_app, js_append. f_equal. now destruct x.
  - intros H. apply (f_equal DecimalFacts.to_list) in H.
    rewrite DecimalFacts.app_spec in H. apply app_eq_nil in H.
    destruct H as [_ H]. now destruct x.
Qed.

Lemma Z_toString_digit k :
  (k < 10)%nat -> Z_toString (Z.of_nat k) = [Z.to_N (48 + Z.of_nat k)].
Proof. intros H. do 10 (destruct k as [|k]; [reflexivity|]). lia. Qed.

Lemma last_digit r :
  (0 <= r < 10)%Z ->
  exists x, Z.of_N (DecimalPos.Unsigned.of_lu (DecimalFacts.of_list [x])) = r.
Proof.
  intros H. rewrite <- (Z2Nat.id r) by lia.
  assert (Hk : (Z.to_nat r < 10)%nat) by lia. revert Hk.
  generalize (Z.to_nat r) as k. intros k Hk.
  exists (nth k [DecimalFacts.d0; DecimalFacts.d1; DecimalFacts.d2; DecimalFacts.d3;
                 DecimalFacts.d4; DecimalFacts.d5; DecimalFacts.d6; DecimalFacts.d7;
                 DecimalFacts.d8; DecimalFacts.d9] DecimalFacts.d0).
  do 10 (destruct k as [|k]; [reflexivity|]). lia.
Qed.

(** The decimal notation of a natural number, digit by digit: below ten it is
    the one digit, and from ten on the notation of the tenth followed by the
    last digit. *)
Lemma Z_toString_decimal n :
  (0 <= n)%Z ->
  Z_toString n
  = (if (n <? 10)%Z then [] else Z_toString (n / 10)) ++ [Z.to_N (48 + n mod 10)].
Proof.
  intros Hn.
  pose proof (Z.div_mod n 10 ltac:(lia)) as Hdm.
  pose proof (Z.mod_pos_bound n 10 ltac:(lia)) as Hr.
  destruct (Z.ltb_spec n 10) as [Hlt | Hge].
  - rewrite Z.mod_small by lia. rewrite <- (Z2Nat.id n) by lia.
    apply Z_toString_digit. lia.
  - assert (Hq : (0 < n / 10)%Z) by (apply Z.div_str_pos; lia).
    destruct (n / 10)%Z as [|q|q] eqn:Eq; try lia.
    destruct (last_digit (n mod 10) Hr) as (x & Hx).
    rewrite Hdm at 1. rewrite <- Hx. apply Z_toString_snoc.
Qed.

End NumberFacts.
Section Facts.

#[local] Set Default Proof Using "Type".

Variable JSON_parse : jsstring -> option json.
Variable JSON_stringify : json -> jsstring.
Variable URL_parse : jsstring -> option URL.
Variable transport : list Event -> jsstring -> object -> Outcome Response.
Variable clock : list Event -> Z.
Variable window_origin : option jsstring.

Local Abbreviation fetch' :=
  (fetch JSON_parse JSON_stringify URL_parse transport clock window_origin).
Local Abbreviation refresh' := (refresh JSON_parse JSON_stringify transport clock).
Local Abbreviation exchange' := (exchange JSON_parse JSON_stringify transport clock).
Local Abbreviation payload_of := (getTokenPayload JSON_parse).
Local Abbreviation expired_at := (isTokenExpired_at JSON_parse).
Local Abbreviation getUrl' := (getUrl URL_parse).

(** ** The precondition of [fetch] *)

(** C8.  A [fetch] on an instance on which [configure] has not stored a
    long-lived credential fails with the not-configured error at once: the
    instance and the trace are as before, so neither an exchange nor a
    proxied request was sent, and the instance is still unconfigured for the
    next call.  This is so for [new Bridggy()] in particular. *)
Theorem fetch_before_configure :
  forall (input : Input) (init : option object) (m : Machine),
    proxyToken (self m) = None ->
    fetch' input init m = (Throw NotConfigured, m)
    /\ fetch' input init {| self := fresh; trace := trace m |}
       = (Throw NotConfigured, {| self := fresh; trace := trace m |}).
Proof.
  intros input init m Hp. split; [|reflexivity].
  unfold fetch, bind, this. rewrite Hp. reflexivity.
Qed.

(** C10.  [configure] with the empty string as token leaves the instance
    unconfigured: the next [fetch] fails with the not-configured error and
    sends nothing.  What [fetch] asks for is a non-empty stored token: it
    fails in this way on every instance whose [proxyToken] is falsy. *)
Theorem fetch_after_configure_empty :
  (forall (b : Bridggy) (r : option bool) (input : Input)
          (init : option object) (tr : list Event),
      let m := {| self := configure {| cfg_token := []; cfg_retry := r |} b;
                  trace := tr |} in
      fetch' input init m = (Throw NotConfigured, m))
  /\ (forall (m : Machine) (input : Input) (init : option object),
         falsy_str (proxyToken (self m)) = true ->
         fetch' input init m = (Throw NotConfigured, m)).
Proof.
  split.
  - reflexivity.
  - intros m input init Hf. unfold fetch, bind, this, throw. now rewrite Hf.
Qed.

(** ** Input normalisation *)

(** [fetch] on a configured instance gets as far as [getUrl], whose failure
    is the failure of the call. *)
Lemma fetch_getUrl_fails input init m m1 e :
  falsy_str (proxyToken (self m)) = false ->
  refresh' m = (Ok tt, m1) ->
  getUrl' input = Throw e ->
  fetch' input init m = (Throw e, m1).
Proof.
  intros Hc Hr Hu. unfold fetch, bind, this, lift.
  rewrite Hc, Hr, Hu. reflexivity.
Qed.

(** C9.  [getUrl] turns the input into a URL: a string is parsed, and one
    that is not an absolute URL is refused with a [TypeError] whose message
    quotes it; a URL is taken as it is; a [Request] gives its own URL; any
    other value is refused as an unsupported input type.  The refusal is the
    outcome of [fetch]. *)
Theorem getUrl_normalizes :
  (forall s u, URL_parse s = Some u -> getUrl' (InString s) = Ok u)
  /\ (forall s, URL_parse s = None ->
        getUrl' (InString s)
        = Throw (TypeError (js "input string must be an absolute URL, got "
                              ++ [34%N] ++ s ++ [34%N])))
  /\ (forall u, getUrl' (InURL u) = Ok u)
  /\ (forall r u, URL_parse (req_url r) = Some u -> getUrl' (InRequest r) = Ok u)
  /\ (forall id, getUrl' (InOther id) = Throw UnsupportedInputType)
  /\ (forall input init m m1 e,
        falsy_str (proxyToken (self m)) = false ->
        refresh' m = (Ok tt, m1) ->
        getUrl' input = Throw e ->
        fetch' input init m = (Throw e, m1)).
Proof.
  repeat split.
  - intros s u H. simpl. now rewrite H.
  - intros s H. simpl. now rewrite H.
  - intros r u H. simpl. now rewrite H.
  - intros. now apply fetch_getUrl_fails.
Qed.

(** ** Claims of a token *)

Lemma payload_of_segment tok seg :
  nth_error (split 46 tok) 1 = Some seg -> seg <> [] ->
  payload_of tok
  = obind (Base64.atob (replace_all 95 47 (replace_all 45 43 seg)))
      (fun p => match JSON_parse p with
                | Some v => Ok v
                | None => Throw SyntaxError
                end).
Proof.
  intros Hs Hne. unfold getTokenPayload. rewrite Hs.
  destruct seg; [congruence | reflexivity].
Qed.

(** C7.  [getTokenPayload] takes the second of the segments that the dots
    of the token separate and fails with "Invalid token" when there is none
    or an empty one (so for every token without a dot).  Otherwise every [-]
    of the segment is read as [+] and every [_] as [/], the result goes
    through [atob] and the text through [JSON.parse].  Neither failure is
    caught: a segment that does not decode fails with the
    [InvalidCharacterError] of [atob], a text that does not parse with the
    [SyntaxError] of [JSON.parse].  Whatever is returned is the parse of the
    whole decoded segment; and a segment that is the base64 of some bytes in
    the URL-safe alphabet, padded or not, yields the parse of those bytes. *)
Theorem getTokenPayload_decodes :
  let standard :=
    map (fun c => if N.eqb c 45 then 43%N else if N.eqb c 95 then 47%N else c) in
  let urlsafe :=
    map (fun c => if N.eqb c 43 then 45%N else if N.eqb c 47 then 95%N else c) in
  (forall tok,
      nth_error (split 46 tok) 1 = None \/ nth_error (split 46 tok) 1 = Some [] ->
      payload_of tok = Throw InvalidToken)
  /\ (forall tok, ~ In 46%N tok -> payload_of tok = Throw InvalidToken)
  /\ (forall tok seg e,
        nth_error (split 46 tok) 1 = Some seg -> seg <> [] ->
        Base64.atob (standard seg) = Throw e ->
        payload_of tok = Throw e /\ e = InvalidCharacterError)
  /\ (forall tok seg p,
        nth_error (split 46 tok) 1 = Some seg -> seg <> [] ->
        Base64.atob (standard seg) = Ok p ->
        JSON_parse p = None ->
        payload_of tok = Throw SyntaxError)
  /\ (forall tok v,
        payload_of tok = Ok v ->
        exists seg p,
          nth_error (split 46 tok) 1 = Some seg /\ seg <> []
          /\ Base64.atob (standard seg) = Ok p
          /\ JSON_parse p = Some v)
  /\ (forall tok bytes,
        Forall (fun b => (b < 256)%N) bytes -> bytes <> [] ->
        nth_error (split 46 tok) 1 = Some (urlsafe (Base64.encode_body bytes))
        \/ nth_error (split 46 tok) 1 = Some (urlsafe (Base64.encode bytes)) ->
        payload_of tok
        = match JSON_parse bytes with
          | Some v => Ok v
          | None => Throw SyntaxError
          end).
Proof.
  intros standard urlsafe. repeat split.
  - intros tok [H | H]; unfold getTokenPayload; now rewrite H.
  - intros tok H. unfold getTokenPayload.
    now rewrite split_no_separator by assumption.
  - rewrite (payload_of_segment _ _ H H0).
    change (replace_all 95 47 (replace_all 45 43 seg)) with (standard_alphabet seg).
    rewrite standard_alphabet_map. fold standard. now rewrite H1.
  - revert H1. unfold Base64.atob.
    repeat match goal with
           | |- context [if ?c then _ else _] => destruct c
           | |- context [match ?c with Some _ => _ | None => _ end] => destruct c
           end; congruence.
  - intros tok seg p Hs Hne Ha Hp.
    rewrite (payload_of_segment _ _ Hs Hne).
    change (replace_all 95 47 (replace_all 45 43 seg)) with (standard_alphabet seg).
    rewrite standard_alphabet_map. fold standard. rewrite Ha. simpl. now rewrite Hp.
  - intros tok v H. unfold getTokenPayload in H.
    destruct (nth_error (split 46 tok) 1) as [[|c seg]|] eqn:Hs; try discriminate.
    rewrite standard_alphabet_map in H. fold standard in H.
    destruct (Base64.atob _) as [p|] eqn:Ha; simpl in H; try discriminate.
    destruct (JSON_parse p) as [v'|] eqn:Hp; try discriminate.
    exists (c :: seg), p. repeat split; congruence.
  - intros tok bytes Hb Hne Hs. unfold urlsafe in Hs.
    rewrite <- !urlsafe_alphabet_map in Hs.
    assert (Hbody : Base64.encode_body bytes <> [])
      by (intros E; now apply PaddingFacts.encode_body_nil in E).
    assert (Hu : forall pad, urlsafe_alphabet (Base64.encode_body bytes ++ pad) <> []).
    { intros pad E. apply (f_equal (@List.length N)) in E.
      rewrite EncodingFacts.urlsafe_length, length_app in E.
      destruct (Base64.encode_body bytes); [congruence | discriminate]. }
    destruct Hs as [Hs | Hs]; rewrite (payload_of_segment _ _ Hs);
      change (replace_all 95 47 (replace_all 45 43 ?x)) with (standard_alphabet x).
    + now rewrite UrlSafeFacts.atob_urlsafe.
    + rewrite <- (app_nil_r (Base64.encode_body bytes)). apply Hu.
    + now rewrite atob_urlsafe_padded.
    + rewrite Base64Facts.encode_split. apply Hu.
Qed.


(** ** Expiry *)

Lemma expired_at_held s now :
  s <> [] ->
  expired_at (Some (JStr s)) now
  = catch_rethrow (expiry_of JSON_parse (Some (JStr s)) now) InvalidOrMalformedToken.
Proof. intros Hs. unfold isTokenExpired_at. destruct s; [congruence | reflexivity]. Qed.

Lemma expired_at_numeric s data exp now :
  s <> [] -> payload_of s = Ok data -> prop data (js "exp") = Ok (Some (JNum exp)) ->
  expired_at (Some (JStr s)) now = Ok (now >? exp * 1000 - 60000)%Z.
Proof.
  intros Hs Hp He. rewrite expired_at_held by assumption.
  unfold expiry_of. simpl. rewrite Hp. simpl. rewrite He. reflexivity.
Qed.

(** C1, as the code has it.  With no access token held the check answers
    "expired" without failing.  A held token whose claims have no numeric
    [exp], or that cannot be decoded at all, makes the check fail with
    "invalid or malformed token".  Otherwise the answer is "expired" exactly
    when the clock is strictly past [exp] in milliseconds less 60000: so for
    every [exp] up to 30 seconds ahead of the clock it is "expired", and for
    an [exp] one hour ahead it is not. *)
Theorem isTokenExpired_margin :
  (forall tok now, truthy tok = false -> expired_at tok now = Ok true)
  /\ (forall s data now,
        s <> [] -> payload_of s = Ok data ->
        (forall z, prop data (js "exp") <> Ok (Some (JNum z))) ->
        expired_at (Some (JStr s)) now = Throw InvalidOrMalformedToken)
  /\ (forall s e now,
        s <> [] -> payload_of s = Throw e ->
        expired_at (Some (JStr s)) now = Throw InvalidOrMalformedToken)
  /\ (forall s data exp now,
        s <> [] -> payload_of s = Ok data ->
        prop data (js "exp") = Ok (Some (JNum exp)) ->
        exists b,
          expired_at (Some (JStr s)) now = Ok b
          /\ (b = true <-> (now > exp * 1000 - 60000)%Z)
          /\ ((exp * 1000 <= now + 30000)%Z -> b = true)
          /\ ((exp * 1000 = now + 3600000)%Z -> b = false)
          /\ ((exp <= now / 1000 + 30)%Z -> b = true)
          /\ ((exp = now / 1000 + 3600)%Z -> b = false)).
Proof.
  repeat split.
  - intros tok now Ht. unfold isTokenExpired_at. now rewrite Ht.
  - intros s data now Hs Hp He. rewrite expired_at_held by assumption.
    unfold expiry_of. simpl. rewrite Hp. simpl.
    destruct (prop data (js "exp")) as [[[| | z | | |]|]|] eqn:Hx; simpl;
      try reflexivity.
    now elim (He z).
  - intros s e now Hs Hp. rewrite expired_at_held by assumption.
    unfold expiry_of. simpl. now rewrite Hp.
  - intros s data exp now Hs Hp He.
    exists (now >? exp * 1000 - 60000)%Z.
    rewrite (expired_at_numeric s data exp now Hs Hp He).
    repeat split.
    + intros H. apply Z.gtb_lt in H. now apply Z.lt_gt.
    + intros H. apply Z.gtb_lt. now apply Z.gt_lt.
    + intros H. apply Z.gtb_lt. now apply margin_inside_ms.
    + intros H. rewrite Z.gtb_ltb. apply Z.ltb_ge. now apply margin_outside_ms.
    + intros H. apply Z.gtb_lt. now apply margin_inside.
    + intros H. rewrite Z.gtb_ltb. apply Z.ltb_ge. now apply margin_outside.
Qed.

(** ** Exchange *)

(** C6.  [exchange] first decodes the long-lived token: when that fails the
    failure is the outcome and nothing is sent.  Otherwise exactly one
    request goes out, a POST to [aud] followed by [/token/exchange], with the
    three headers (content type, timestamp in decimal milliseconds, source
    identity) and the JSON text of [{ token: proxyToken }] as body.  A
    response that is not [ok] gives the failure that embeds its status; an
    [ok] response gives, through the [token] member of its JSON body, the
    new access token, and nothing else of the instance changes.  The
    timestamp and the status are written in decimal: a number below ten is
    its digit, and a larger one is its tenth followed by its last digit. *)
Theorem exchange_protocol :
  (forall m p e,
      proxyToken (self m) = Some p ->
      payload_of p = Throw e
      \/ (exists payload, payload_of p = Ok payload
                          /\ prop payload (js "aud") = Throw e) ->
      exchange' m = (Throw e, m))
  /\ (forall m p payload aud,
        proxyToken (self m) = Some p ->
        payload_of p = Ok payload ->
        prop payload (js "aud") = Ok aud ->
        let url := template aud ++ js "/token/exchange" in
        let options := exchange_options JSON_stringify (clock (trace m)) p in
        let sent := {| self := self m; trace := trace m ++ [EvFetch url options] |} in
        member options (js "method") = VString (js "POST")
        /\ member options (js "body")
           = VString (JSON_stringify (JObj [(js "token", JStr p)]))
        /\ (exists h,
               member options (js "headers") = VHeaders h
               /\ List.length h = 3%nat
               /\ Headers.get h (js "Content-Type") = Some (js "application/json")
               /\ Headers.get h (js "gg-x-timestamp")
                  = Some (Z_toString (clock (trace m)))
               /\ Headers.get h (js "gg-x-source") = Some (js "client"))
        /\ (forall s, aud = Some (JStr s) -> url = s ++ js "/token/exchange")
        /\ (forall e,
               transport (trace m) url options = Throw e ->
               exchange' m = (Throw e, sent))
        /\ (forall resp,
               transport (trace m) url options = Ok resp -> ok resp = false ->
               exchange' m
               = (Throw (Error (js "status: " ++ Z_toString (status resp)
                                   ++ js " proxy: Token exchange failed")),
                  sent))
        /\ (forall resp e,
               transport (trace m) url options = Ok resp -> ok resp = true ->
               json_body resp = Throw e ->
               exchange' m = (Throw e, sent))
        /\ (forall resp body t,
               transport (trace m) url options = Ok resp -> ok resp = true ->
               json_body resp = Ok body -> prop body (js "token") = Ok t ->
               exchange' m
               = (Ok tt,
                  {| self := {| proxyToken := Some p; token := t;
                                retry := retry (self m) |};
                     trace := trace m ++ [EvFetch url options] |})))
  /\ (forall n,
        (0 <= n)%Z ->
        Z_toString n
        = (if (n <? 10)%Z then [] else Z_toString (n / 10))
            ++ [Z.to_N (48 + n mod 10)]).
Proof.
  split; [|split; [|exact NumberFacts.Z_toString_decimal]].
  - intros m p e Hp [Hd | (payload & Hd & Ha)];
      unfold exchange, bind, this, Date_now, lift; rewrite Hp, Hd;
      [|rewrite Ha]; reflexivity.
  - intros m p payload aud Hp Hd Ha url options sent.
    assert (Hex :
              exchange' m
              = match transport (trace m) url options with
                | Ok resp =>
                    (if negb (ok resp)
                     then throw (Error (exchange_failed_message (status resp)))
                     else bind (lift (json_body resp))
                            (fun tokenResp =>
                               bind (lift (prop tokenResp (js "token"))) set_token))
                      sent
                | Throw e => (Throw e, sent)
                end).
    { unfold exchange, bind, this, Date_now, lift, send.
      rewrite Hp, Hd, Ha. reflexivity. }
    split; [reflexivity|]. split; [reflexivity|]. split.
    { eexists. split; [reflexivity|]. repeat split. }
    split; [intros s ->; reflexivity|].
    split; [intros e He; rewrite Hex, He; reflexivity|].
    split; [intros resp Hr Hok; rewrite Hex, Hr, Hok; reflexivity|].
    split.
    + intros resp e Hr Hok Hj. rewrite Hex, Hr, Hok. simpl.
      unfold bind, lift. rewrite Hj. reflexivity.
    + intros resp body t Hr Hok Hj Ht. rewrite Hex, Hr, Hok. simpl.
      unfold bind, lift. rewrite Hj, Ht. unfold set_token, sent. simpl.
      rewrite Hp. reflexivity.
Qed.

(** ** The options of the outgoing request *)

(** The members of the outgoing options, as the code builds them.  The
    [headers] member is the assembled header set, whatever [init] says.
    Every other member that [init] carries is there with the value of
    [init].  Where [init] has no [method], [body] or [redirect], that member
    comes from the [Request] if the input is one, and is [undefined]
    otherwise.  No other member is added. *)
Lemma assemble_options_members :
  forall (input : Input) (init : option object) (headers : header_list),
    NoDup (map fst (init_members init)) ->
    let req := assemble_options input init headers in
    member req (js "headers") = VHeaders headers
    /\ (forall k v,
           k <> js "headers" -> assoc k (init_members init) = Some v ->
           member req k = v)
    /\ (forall r,
           input = InRequest r ->
           (assoc (js "method") (init_members init) = None ->
            member req (js "method") = VString (req_method r))
           /\ (assoc (js "body") (init_members init) = None ->
               member req (js "body") = req_body r)
           /\ (assoc (js "redirect") (init_members init) = None ->
               member req (js "redirect") = VString (req_redirect r)))
    /\ ((forall r, input <> InRequest r) ->
        member req (js "method") = opt_member init (js "method")
        /\ member req (js "body") = opt_member init (js "body")
        /\ member req (js "redirect") = opt_member init (js "redirect"))
    /\ (forall k,
           assoc k (init_members init) = None ->
           k <> js "headers" -> k <> js "method" -> k <> js "body" ->
           k <> js "redirect" ->
           member req k = VUndefined).
Proof.
  intros input init headers Hnd req.
  assert (Hrest : NoDup (map fst (rest_without (js "headers") (init_members init))))
    by now apply rest_without_NoDup.
  assert (Hm : forall k, k <> js "headers" ->
             member req k
             = match assoc k (init_members init) with
               | Some v => v
               | None =>
                   member
                     [ (js "method",
                        match input with
                        | InRequest r => VString (req_method r)
                        | _ => opt_member init (js "method")
                        end);
                       (js "body",
                        match input with
                        | InRequest r => req_body r
                        | _ => opt_member init (js "body")
                        end);
                       (js "redirect",
                        match input with
                        | InRequest r => VString (req_redirect r)
                        | _ => opt_member init (js "redirect")
                        end) ] k
               end).
  { intros k Hk. unfold req, assemble_options.
    rewrite member_put_other by assumption.
    rewrite member_spread by assumption.
    rewrite assoc_rest_without by assumption. reflexivity. }
  split; [apply member_put_same|].
  split.
  { intros k v Hk Hv. rewrite Hm by assumption. now rewrite Hv. }
  split.
  { intros r ->. repeat split; intros Hn; rewrite Hm by literals_differ;
      rewrite Hn; reflexivity. }
  split.
  { intros Hnr.
    repeat split; rewrite Hm by literals_differ;
      destruct input as [| |r|]; try (elim (Hnr r); reflexivity);
      destruct init as [o|]; simpl; unfold member;
      try (destruct (assoc _ o)); reflexivity. }
  intros k Hn H1 H2 H3 H4. rewrite Hm by assumption. rewrite Hn.
  unfold member. simpl.
  destruct (str_eqb_spec k (js "method")); [contradiction|].
  destruct (str_eqb_spec k (js "body")); [contradiction|].
  destruct (str_eqb_spec k (js "redirect")); [contradiction|].
  reflexivity.
Qed.

(** ** Dispatch and the single retry *)

Local Abbreviation dispatch' := (dispatch transport).
Local Abbreviation reaches :=
  (reaches_dispatch JSON_parse JSON_stringify URL_parse transport clock window_origin).

Lemma fetch_enters_loop input init m m1 proxyUrl req :
  reaches input init m m1 proxyUrl req ->
  fetch' input init m = dispatch' 2 0 proxyUrl req m1.
Proof.
  intros (Hc & Hr & url & tok & payload & scope & encoded & headers
          & Hu & Ht & Hp & Hs & He & Hh & -> & ->).
  unfold fetch. unfold bind at 1. unfold this at 1. rewrite Hc.
  unfold bind at 1. rewrite Hr. unfold bind at 1, lift at 1. rewrite Hu.
  unfold bind at 1, this at 1. unfold bind at 1, lift at 1. rewrite Ht. simpl.
  unfold bind at 1, lift at 1. rewrite Hp.
  unfold bind at 1, lift at 1. rewrite Hs.
  unfold bind at 1, lift at 1. rewrite He.
  unfold bind at 1, lift at 1. rewrite Hh. reflexivity.
Qed.

Lemma dispatch_unfold proxyUrl req m :
  let sent1 := {| self := self m; trace := trace m ++ [EvFetch proxyUrl req] |} in
  let slept := (trace m ++ [EvFetch proxyUrl req]) ++ [EvSleep RetryDelay] in
  let sent2 := {| self := self m; trace := slept ++ [EvFetch proxyUrl req] |} in
  dispatch' 2 0 proxyUrl req m
  = match transport (trace m) proxyUrl req with
    | Throw e => (Throw e, sent1)
    | Ok resp =>
        let proxyStatus := Headers.get (resp_headers resp) HeaderStatus in
        match error_text resp with
        | None => (Ok resp, sent1)
        | Some err =>
            if should_retry (self m) 0 req proxyStatus
            then match transport slept proxyUrl req with
                 | Throw e => (Throw e, sent2)
                 | Ok resp2 =>
                     match error_text resp2 with
                     | None => (Ok resp2, sent2)
                     | Some err2 =>
                         (Throw (Error (proxy_error_message
                                          (Headers.get (resp_headers resp2) HeaderStatus)
                                          err2)),
                          sent2)
                     end
                 end
            else (Throw (Error (proxy_error_message proxyStatus err)), sent1)
        end
    end.
Proof.
  intros sent1 slept sent2. unfold error_text.
  unfold dispatch. unfold bind at 1, send at 1.
  destruct (transport (trace m) proxyUrl req) as [resp|e]; [|reflexivity].
  destruct (Headers.get (resp_headers resp) HeaderError) as [[|c err]|];
    try reflexivity.
  unfold bind at 1, this at 1. cbn [self trace].
  destruct (should_retry (self m) 0 req _); [|reflexivity].
  unfold bind at 1, sleep at 1. cbn [self trace].
  unfold bind at 1, send at 1. cbn [self trace]. fold slept.
  destruct (transport slept proxyUrl req) as [resp2|e]; [|reflexivity].
  destruct (Headers.get (resp_headers resp2) HeaderError) as [[|c2 err2]|];
    try reflexivity.
  unfold bind at 1, this at 1. cbn [self trace].
  rewrite should_retry_later. reflexivity.
Qed.

(** Whatever the loop does, it sends the same request once, or twice with
    the delay in between. *)
Lemma dispatch_trace proxyUrl req m r m' :
  dispatch' 2 0 proxyUrl req m = (r, m') ->
  self m' = self m
  /\ (trace m' = trace m ++ [EvFetch proxyUrl req]
      \/ trace m'
         = trace m ++ [EvFetch proxyUrl req; EvSleep 2000; EvFetch proxyUrl req]).
Proof.
  rewrite dispatch_unfold. cbv zeta. rewrite <- !app_assoc. cbn [app].
  destruct (transport (trace m) proxyUrl req) as [resp|e];
    [destruct (error_text resp);
     [destruct (should_retry _ _ _ _);
      [destruct (transport _ proxyUrl req) as [resp2|e2];
       [destruct (error_text resp2)|]|]|]|];
    intros [= <- <-]; cbn [self trace]; auto.
Qed.

(** C2, as the code has it.  Once [fetch] has reached the loop: a response
    whose proxy-error header is absent (or empty) is returned as it is,
    whatever its HTTP status.  A response with a non-empty proxy-error
    header, for outgoing options that name a method, makes [fetch] sleep
    2000 ms and send the request once more exactly when the retry flag is
    on, that method is GET and the proxy-status header is "502"; the second
    response is returned or refused without any further retry.  In every
    other such case the call fails with the message "status: ", the proxy
    status, a space and the error text.  The proxied request is sent once or
    twice, never more. *)
Theorem fetch_retry_policy :
  forall input init m m1 proxyUrl req,
    reaches input init m m1 proxyUrl req ->
    let first := trace m1 ++ [EvFetch proxyUrl req] in
    let slept := trace m1 ++ [EvFetch proxyUrl req; EvSleep 2000] in
    let second := slept ++ [EvFetch proxyUrl req] in
    let after tr := {| self := self m1; trace := tr |} in
    (forall resp,
        transport (trace m1) proxyUrl req = Ok resp ->
        Headers.get (resp_headers resp) (js "gg-x-error") = None
        \/ Headers.get (resp_headers resp) (js "gg-x-error") = Some [] ->
        fetch' input init m = (Ok resp, after first))
    /\ (forall resp err method,
          transport (trace m1) proxyUrl req = Ok resp ->
          Headers.get (resp_headers resp) (js "gg-x-error") = Some err ->
          err <> [] ->
          member req (js "method") = VString method ->
          let proxyStatus := Headers.get (resp_headers resp) (js "gg-x-status") in
          let retrying :=
            retry (self m1) = Some true
            /\ method = js "GET"
            /\ proxyStatus = Some (js "502") in
          (~ retrying ->
           fetch' input init m
           = (Throw (Error (js "status: " ++ template_str proxyStatus
                               ++ js " " ++ err)),
              after first))
          /\ (retrying ->
              fetch' input init m
              = (match transport slept proxyUrl req with
                 | Throw e => Throw e
                 | Ok resp2 =>
                     match error_text resp2 with
                     | None => Ok resp2
                     | Some err2 =>
                         Throw (Error (js "status: "
                                         ++ template_str
                                              (Headers.get (resp_headers resp2)
                                                 (js "gg-x-status"))
                                         ++ js " " ++ err2))
                     end
                 end,
                 after second)))
    /\ (forall r m',
          fetch' input init m = (r, m') ->
          self m' = self m1 /\ (trace m' = first \/ trace m' = second)).
Proof.
  intros input init m m1 proxyUrl req Hreach first slept second after.
  rewrite (fetch_enters_loop _ _ _ _ _ _ Hreach).
  pose proof (dispatch_unfold proxyUrl req m1) as Hd. cbv zeta in Hd.
  replace ((trace m1 ++ [EvFetch proxyUrl req]) ++ [EvSleep RetryDelay])
    with slept in Hd by (unfold slept; now rewrite <- app_assoc).
  fold first second in Hd. rewrite Hd. clear Hd.
  split; [|split].
  - intros resp Hr Hnone. rewrite Hr.
    apply error_text_none in Hnone. now rewrite Hnone.
  - intros resp err method Hr He Hne Hm proxyStatus retrying. rewrite Hr.
    rewrite (proj2 (error_text_some resp err) (conj He Hne)).
    change (Headers.get (resp_headers resp) HeaderStatus) with proxyStatus.
    pose proof (should_retry_iff (self m1) req proxyStatus) as Hiff.
    assert (Hret : retry (self m1) = Some true
                   /\ member req (js "method") = VString (js "GET")
                   /\ proxyStatus = Some (js "502") <-> retrying).
    { unfold retrying. rewrite Hm. split; intros (H1 & H2 & H3);
        repeat split; congruence. }
    rewrite Hret in Hiff. clear Hret.
    destruct (should_retry (self m1) 0 req proxyStatus); split; intros Hret.
    + elim Hret. now apply Hiff.
    + destruct (transport slept proxyUrl req) as [resp2|e]; [|reflexivity].
      destruct (error_text resp2); reflexivity.
    + reflexivity.
    + apply Hiff in Hret. discriminate.
  - intros r m'.
    destruct (transport (trace m1) proxyUrl req) as [resp|e].
    + destruct (error_text resp).
      * destruct (should_retry _ _ _ _).
        -- destruct (transport slept proxyUrl req) as [resp2|e2].
           ++ destruct (error_text resp2); intros [= <- <-]; auto.
           ++ intros [= <- <-]; auto.
        -- intros [= <- <-]; auto.
      * intros [= <- <-]; auto.
    + intros [= <- <-]; auto.
Qed.

(** ** The proxy URL *)

(** C4.  The URL to which [fetch] sends the request is [https://], the
    [scope] claim of the access token as a template literal prints it,
    [.bridggy.com/proxy?u=] and the encoded href of the destination.  The
    encoding of a string never fails; it is the base64 text of the UTF-8
    bytes with [+] turned into [-], [/] into [_] and the padding removed, so
    it has none of [=], [+], [/].  Mapping the two characters back and
    decoding gives the UTF-8 bytes again, which read back as the very same
    string (a string whose surrogates are paired; on ASCII, as in the href
    of a URL, the bytes are the string itself). *)
Theorem proxy_url_roundtrip :
  (forall input init m m1 proxyUrl req,
      reaches input init m m1 proxyUrl req ->
      exists url tok payload scope encoded,
        getUrl' input = Ok url
        /\ token (self m1) = Some (JStr tok)
        /\ payload_of tok = Ok payload
        /\ prop payload (js "scope") = Ok scope
        /\ b64urlEncode (href url) = Ok encoded
        /\ proxyUrl
           = js "https://" ++ template scope ++ js ".bridggy.com/proxy?u=" ++ encoded
        /\ (forall s, scope = Some (JStr s) ->
              proxyUrl = js "https://" ++ s ++ js ".bridggy.com/proxy?u=" ++ encoded)
        /\ (forall r m',
              fetch' input init m = (r, m') ->
              exists rest,
                trace m' = trace m1 ++ EvFetch proxyUrl req :: rest
                /\ Forall (fun e => match e with
                                    | EvFetch u _ => u = proxyUrl
                                    | EvSleep _ => True
                                    end) rest))
  /\ (forall href,
        code_units href ->
        exists u,
          b64urlEncode href = Ok u
          /\ u = strip_trailing 61
                   (replace_all 47 95
                      (replace_all 43 45 (Base64.encode (Utf8.encode href))))
          /\ Forall (fun c => c <> 61 /\ c <> 43 /\ c <> 47)%N u
          /\ Base64.atob (replace_all 95 47 (replace_all 45 43 u))
             = Ok (Utf8.encode href)
          /\ (Utf8.well_formed href = true ->
              Utf8.decode (Utf8.encode href) = Some href)
          /\ (Forall (fun c => c < 128)%N href -> Utf8.encode href = href)).
Proof.
  split.
  - intros input init m m1 proxyUrl req Hreach.
    pose proof (fetch_enters_loop _ _ _ _ _ _ Hreach) as Hloop.
    destruct Hreach as (Hc & Hr & url & tok & payload & scope & encoded & headers
                        & Hu & Ht & Hp & Hs & He & Hh & Hurl & Hreq).
    exists url, tok, payload, scope, encoded.
    repeat (split; [assumption|]).
    split; [intros s ->; exact Hurl|].
    intros r m' Hf. rewrite Hloop in Hf.
    apply dispatch_trace in Hf. destruct Hf as (_ & [Htr | Htr]); rewrite Htr.
    + exists []. split; [reflexivity | constructor].
    + exists [EvSleep 2000; EvFetch proxyUrl req].
      split; [reflexivity | repeat constructor].
  - intros href Hcu.
    pose proof (UrlSafeFacts.b64urlEncode_value href Hcu) as Hv.
    pose proof (Utf8Facts.encode_bytes href Hcu) as Hb.
    exists (urlsafe_alphabet (Base64.encode_body (Utf8.encode href))).
    split; [exact Hv|].
    split.
    { unfold b64urlEncode, Base64.btoa in Hv.
      rewrite UrlSafeFacts.fold_append in Hv. cbn [app] in Hv.
      destruct (forallb _ _); cbn [obind] in Hv; [|discriminate].
      now injection Hv as <-. }
    split; [apply UrlSafeFacts.urlsafe_characters;
            now apply Base64Facts.encode_body_plain|].
    split; [now apply UrlSafeFacts.atob_urlsafe|].
    split; [apply Utf8Facts.decode_encode | apply Utf8Facts.encode_ascii].
Qed.

(** ** The header set of the outgoing request *)

(** What header assembly gets right: the two headers of the client are there
    with their values (and [Origin] where there is a [window]), and a header
    of the caller that is neither private nor one of those keeps its
    value. *)
Lemma assemble_headers_sets input init tok h0 hs :
  new_Headers (caller_headers input init) = Ok h0 ->
  assemble_headers window_origin input init tok = Ok hs ->
  Headers.get hs (js "gg-x-source") = Some (js "client")
  /\ Headers.get hs (js "gg-x-token") = Some tok
  /\ (forall origin, window_origin = Some origin ->
        Headers.get hs (js "Origin") = Some origin)
  /\ (forall n,
        is_private (toLowerCase n) = false ->
        Headers.name_eqb n (js "gg-x-source") = false ->
        Headers.name_eqb n (js "gg-x-token") = false ->
        (window_origin <> None -> Headers.name_eqb n (js "Origin") = false) ->
        Headers.get hs n = Headers.get h0 n).
Proof.
  intros H0 H. unfold assemble_headers in H. rewrite H0 in H. cbn [obind] in H.
  injection H as <-.
  split; [|split; [|split]].
  - rewrite remove_private_headers_keeps by reflexivity.
    destruct window_origin;
      rewrite ?HeadersFacts.get_set_other by reflexivity;
      apply HeadersFacts.get_set_same.
  - rewrite remove_private_headers_keeps by reflexivity.
    destruct window_origin;
      rewrite ?HeadersFacts.get_set_other by reflexivity;
      apply HeadersFacts.get_set_same.
  - intros origin ->.
    rewrite remove_private_headers_keeps by reflexivity.
    apply HeadersFacts.get_set_same.
  - intros n Hn Hs Ht Ho.
    rewrite remove_private_headers_keeps by assumption.
    destruct window_origin.
    + rewrite HeadersFacts.get_set_other by (apply Ho; discriminate).
      now rewrite !HeadersFacts.get_set_other by assumption.
    + now rewrite !HeadersFacts.get_set_other by assumption.
Qed.

End Facts.

(** * The properties at work in the sample environment *)

(** The test vectors of RFC 4648 for [btoa], and two characters outside ASCII
    for [TextEncoder]: the euro sign and a surrogate pair. *)
Example btoa_vectors :
  map Base64.btoa [js ""; js "f"; js "fo"; js "foo"; js "foob"; js "fooba"; js "foobar"]
  = map Ok [js ""; js "Zg=="; js "Zm8="; js "Zm9v"; js "Zm9vYg=="; js "Zm9vYmE=";
            js "Zm9vYmFy"].
Proof. vm_compute. reflexivity. Qed.

Example atob_vectors :
  map Base64.atob [js "Zg=="; js "Zg"; js "Zm8="; js "Zm 9v"; js "Z"; js "Zm9v!"]
  = [Ok (js "f"); Ok (js "f"); Ok (js "fo"); Ok (js "foo");
     Throw InvalidCharacterError; Throw InvalidCharacterError].
Proof. vm_compute. reflexivity. Qed.

Example TextEncoder_vectors :
  Utf8.encode [0x20AC; 0xD83D; 0xDE00]%N
  = [0xE2; 0x82; 0xAC; 0xF0; 0x9F; 0x98; 0x80]%N
  /\ Utf8.encode [0xD83D]%N = [0xEF; 0xBF; 0xBD]%N.
Proof. split; vm_compute; reflexivity. Qed.

Module SampleFacts.
Import Sample.

(** The prepared instance of the tests gets to the loop without an exchange,
    whatever the transport. *)
Lemma ready_reaches transport init :
  opt_member init (js "headers") = VUndefined ->
  reaches_dispatch parse stringify url_parse transport clock None
    (InString destination) init (machine ready) (machine ready)
    proxied_url (outgoing init).
Proof.
  intros Hh. split; [reflexivity|]. split; [reflexivity|].
  exists {| href := destination |}, access_token, claims_access,
    (Some (JStr (js "localhost:8787"))),
    (js "aHR0cHM6Ly9hcGkuZXhhbXBsZS5jb20vZGF0YQ"), client_headers.
  repeat split; try (vm_compute; reflexivity).
  unfold assemble_headers, caller_headers. rewrite Hh. vm_compute. reflexivity.
Qed.

End SampleFacts.

(** C1 as the specification words it, with "greater than or equal", fails
    at the boundary: sixty seconds to the millisecond before [exp] the token
    is not yet reported expired. *)
Lemma isTokenExpired_boundary :
  (40000 >= 100 * 1000 - 60000)%Z
  /\ isTokenExpired_at Sample.parse (Some (JStr Sample.token_exp100)) 40000 = Ok false.
Proof. split; [lia | vm_compute; reflexivity]. Qed.

Lemma isTokenExpired_margin_witness :
  isTokenExpired_at Sample.parse None 0 = Ok true
  /\ isTokenExpired_at Sample.parse (Some (JStr Sample.token_scope_only)) 0
     = Throw InvalidOrMalformedToken
  /\ isTokenExpired_at Sample.parse (Some (JStr Sample.token_not_json)) 0
     = Throw InvalidOrMalformedToken
  /\ exists b,
       isTokenExpired_at Sample.parse (Some (JStr Sample.token_exp100)) 70000 = Ok b
       /\ (b = true <-> (70000 > 100 * 1000 - 60000)%Z)
       /\ ((100 * 1000 <= 70000 + 30000)%Z -> b = true)
       /\ ((100 * 1000 = 70000 + 3600000)%Z -> b = false)
       /\ ((100 <= 70000 / 1000 + 30)%Z -> b = true)
       /\ ((100 = 70000 / 1000 + 3600)%Z -> b = false).
Proof.
  destruct (isTokenExpired_margin Sample.parse) as (H1 & H2 & H3 & H4).
  split; [apply H1; reflexivity|].
  split; [apply (H2 _ Sample.claims_scope_only);
          [discriminate | vm_compute; reflexivity | intros z; vm_compute; discriminate]|].
  split; [apply (H3 _ SyntaxError); [discriminate | vm_compute; reflexivity]|].
  apply (H4 _ Sample.claims_exp100);
    [discriminate | vm_compute; reflexivity | vm_compute; reflexivity].
Defined.

Lemma fetch_before_configure_witness :
  fetch Sample.parse Sample.stringify Sample.url_parse
        (Sample.scripted [Sample.plain_response])
        Sample.clock None (InString Sample.destination) Sample.GET
        {| self := {| proxyToken := None;
                      token := Some (JStr Sample.access_token);
                      retry := None |};
           trace := [] |}
  = (Throw NotConfigured,
     {| self := {| proxyToken := None;
                   token := Some (JStr Sample.access_token);
                   retry := None |};
        trace := [] |}).
Proof.
  apply (fetch_before_configure Sample.parse Sample.stringify Sample.url_parse
           (Sample.scripted [Sample.plain_response]) Sample.clock None).
  reflexivity.
Defined.

Lemma fetch_after_configure_empty_witness :
  fetch Sample.parse Sample.stringify Sample.url_parse (Sample.scripted [])
        Sample.clock None (InString Sample.destination) None
        {| self := fresh; trace := [] |}
  = (Throw NotConfigured, {| self := fresh; trace := [] |}).
Proof.
  apply (fetch_after_configure_empty Sample.parse Sample.stringify Sample.url_parse
           (Sample.scripted []) Sample.clock None).
  reflexivity.
Defined.

Lemma getTokenPayload_decodes_witness :
  getTokenPayload MoreSample.parse_marks (js "invalid-token") = Throw InvalidToken
  /\ getTokenPayload MoreSample.parse_marks (js "a.b!") = Throw InvalidCharacterError
  /\ getTokenPayload MoreSample.parse_marks Sample.token_not_json = Throw SyntaxError
  /\ getTokenPayload MoreSample.parse_marks
       (js "eyJhbGciOiJIUzI1NiIsInR5cCI6IkpXVCJ9.eyJzIjoiPj4-Pz8_In0.signature")
     = Ok (JObj [(js "s", JStr (js ">>>???"))])
  /\ getTokenPayload MoreSample.parse_marks
       (js "eyJhbGciOiJIUzI1NiIsInR5cCI6IkpXVCJ9.eyJzIjoiPj4-Pz8_In0=.signature")
     = Ok (JObj [(js "s", JStr (js ">>>???"))])
  /\ exists seg p,
       nth_error (split 46 MoreSample.token_marks) 1 = Some seg /\ seg <> []
       /\ Base64.atob (map (fun c => if N.eqb c 45 then 43%N
                                     else if N.eqb c 95 then 47%N else c) seg)
          = Ok p
       /\ MoreSample.parse_marks p = Some MoreSample.claims_marks.
Proof.
  destruct (getTokenPayload_decodes MoreSample.parse_marks)
    as (_ & H2 & H3 & H4 & H5 & H6).
  split.
  { apply H2. vm_compute. intuition discriminate. }
  split.
  { apply (H3 (js "a.b!") (js "b!") InvalidCharacterError);
      [reflexivity | discriminate | reflexivity]. }
  split.
  { apply (H4 Sample.token_not_json (js "bm90IGpzb24=") (js "not json"));
      [reflexivity | discriminate | reflexivity | reflexivity]. }
  split.
  { apply (H6 _ MoreSample.text_marks);
      [repeat constructor | discriminate | left; reflexivity]. }
  split.
  { apply (H6 _ MoreSample.text_marks);
      [repeat constructor | discriminate | right; reflexivity]. }
  apply H5. vm_compute. reflexivity.
Defined.

(** C7 as the specification words it fails: a segment that [atob] refuses
    and a text that [JSON.parse] refuses make [getTokenPayload] fail, but
    with the error of [atob] and of [JSON.parse], which nothing catches, and
    not with one of the token errors of the class. *)
Lemma getTokenPayload_foreign_errors :
  (getTokenPayload Sample.parse (js "a.b!") = Throw InvalidCharacterError
   /\ getTokenPayload Sample.parse (js "a.b!") <> Throw InvalidToken
   /\ getTokenPayload Sample.parse (js "a.b!") <> Throw InvalidOrMalformedToken)
  /\ (getTokenPayload Sample.parse Sample.token_not_json = Throw SyntaxError
      /\ getTokenPayload Sample.parse Sample.token_not_json <> Throw InvalidToken
      /\ getTokenPayload Sample.parse Sample.token_not_json
         <> Throw InvalidOrMalformedToken).
Proof.
  split; (split; [reflexivity | split; intros H; vm_compute in H; discriminate H]).
Qed.

Lemma getUrl_normalizes_witness :
  getUrl Sample.url_parse (InString Sample.destination)
  = Ok {| href := Sample.destination |}
  /\ getUrl Sample.url_parse (InString (js "/relative"))
     = Throw (TypeError (js "input string must be an absolute URL, got "
                           ++ [34%N] ++ js "/relative" ++ [34%N]))
  /\ getUrl Sample.url_parse (InRequest Sample.post_request)
     = Ok {| href := Sample.destination |}
  /\ fetch Sample.parse Sample.stringify Sample.url_parse (Sample.scripted [])
       Sample.clock None (InOther 0) None (Sample.machine Sample.ready)
     = (Throw UnsupportedInputType, Sample.machine Sample.ready).
Proof.
  destruct (getUrl_normalizes Sample.parse Sample.stringify Sample.url_parse
              (Sample.scripted []) Sample.clock None)
    as (H1 & H2 & _ & H4 & H5 & H6).
  split; [apply H1; reflexivity|].
  split; [apply H2; reflexivity|].
  split; [apply H4; reflexivity|].
  apply H6; [reflexivity | reflexivity | apply H5].
Defined.

Lemma exchange_protocol_witness :
  let sent :=
    EvFetch (js "http://localhost:8787/token/exchange")
      [ (js "method", VString (js "POST"));
        (js "headers",
         VHeaders [ (js "Content-Type", js "application/json");
                    (js "gg-x-timestamp", js "1000000");
                    (js "gg-x-source", js "client") ]);
        (js "body",
         VString (js "{" ++ Sample.quoted (js "token") ++ js ":"
                     ++ Sample.quoted Sample.proxy_token ++ js "}")) ] in
  exchange Sample.parse Sample.stringify (Sample.scripted [Sample.exchange_granted])
    Sample.clock (Sample.machine Sample.configured)
  = (Ok tt,
     {| self := {| proxyToken := Some Sample.proxy_token;
                   token := Some (JStr Sample.access_token);
                   retry := Some true |};
        trace := [sent] |})
  /\ exchange Sample.parse Sample.stringify (Sample.scripted [Sample.exchange_denied])
       Sample.clock (Sample.machine Sample.configured)
     = (Throw (Error (js "status: 401 proxy: Token exchange failed")),
        {| self := Sample.configured; trace := [sent] |})
  /\ exchange Sample.parse Sample.stringify (Sample.scripted [])
       Sample.clock
       (Sample.machine {| proxyToken := Some (js "invalid-token"); token := None;
                          retry := Some true |})
     = (Throw InvalidToken,
        Sample.machine {| proxyToken := Some (js "invalid-token"); token := None;
                          retry := Some true |})
  /\ Z_toString 401 = Z_toString 40 ++ js "1"
  /\ Z_toString 7 = js "7".
Proof.
  intros sent. split; [|split; [|split]].
  - destruct (exchange_protocol Sample.parse Sample.stringify
                (Sample.scripted [Sample.exchange_granted]) Sample.clock)
      as (_ & H & _).
    destruct (H (Sample.machine Sample.configured) Sample.proxy_token
                Sample.claims_proxy (Some (JStr (js "http://localhost:8787")))
                eq_refl eq_refl eq_refl)
      as (_ & _ & _ & _ & _ & _ & _ & Hok).
    rewrite (Hok Sample.exchange_granted
               (JObj [(js "token", JStr Sample.access_token)])
               (Some (JStr Sample.access_token)) eq_refl eq_refl eq_refl eq_refl).
    reflexivity.
  - destruct (exchange_protocol Sample.parse Sample.stringify
                (Sample.scripted [Sample.exchange_denied]) Sample.clock)
      as (_ & H & _).
    destruct (H (Sample.machine Sample.configured) Sample.proxy_token
                Sample.claims_proxy (Some (JStr (js "http://localhost:8787")))
                eq_refl eq_refl eq_refl)
      as (_ & _ & _ & _ & _ & Hdenied & _).
    rewrite (Hdenied Sample.exchange_denied eq_refl eq_refl).
    reflexivity.
  - destruct (exchange_protocol Sample.parse Sample.stringify
                (Sample.scripted []) Sample.clock) as (H & _).
    apply (H _ (js "invalid-token")); [reflexivity | left; reflexivity].
  - destruct (exchange_protocol Sample.parse Sample.stringify
                (Sample.scripted []) Sample.clock) as (_ & _ & H).
    split; [apply (H 401%Z); lia | apply (H 7%Z); lia].
Defined.

(** C2 as the specification words it fails twice.  A proxy-error header that
    is present but empty is not taken for an error: on a first attempt, with
    the retry flag on, method GET and proxy status 502, the response is
    handed back at once and nothing is sent again.  And the transport can be
    called three times in one [fetch]: the exchange, the proxied request and
    its retry. *)
Lemma fetch_retry_exceptions :
  (let resp := Sample.proxy_failure (js "502") [] in
   Headers.get (resp_headers resp) (js "gg-x-error") = Some []
   /\ Headers.get (resp_headers resp) (js "gg-x-status") = Some (js "502")
   /\ retry Sample.ready = Some true
   /\ member (Sample.outgoing Sample.GET) (js "method") = VString (js "GET")
   /\ fetch Sample.parse Sample.stringify Sample.url_parse
        (Sample.scripted [resp; Sample.plain_response]) Sample.clock None
        (InString Sample.destination) Sample.GET (Sample.machine Sample.ready)
      = (Ok resp,
         {| self := Sample.ready;
            trace := [EvFetch Sample.proxied_url (Sample.outgoing Sample.GET)] |}))
  /\ (exists r m',
         fetch Sample.parse Sample.stringify Sample.url_parse
           (Sample.scripted [Sample.exchange_granted; Sample.bad_gateway;
                             Sample.plain_response])
           Sample.clock None
           (InString Sample.destination) Sample.GET (Sample.machine Sample.configured)
         = (r, m')
         /\ Sample.requests_so_far (trace m') = 3%nat).
Proof.
  split.
  - repeat split; vm_compute; reflexivity.
  - eexists. eexists. split; [vm_compute; reflexivity|]. vm_compute. reflexivity.
Qed.

Lemma fetch_retry_policy_witness :
  (* GET, 502, retry on: the second response is the result *)
  fetch Sample.parse Sample.stringify Sample.url_parse
    (Sample.scripted [Sample.bad_gateway; Sample.plain_response]) Sample.clock None
    (InString Sample.destination) Sample.GET (Sample.machine Sample.ready)
  = (Ok Sample.plain_response,
     {| self := Sample.ready;
        trace := [EvFetch Sample.proxied_url (Sample.outgoing Sample.GET);
                  EvSleep 2000;
                  EvFetch Sample.proxied_url (Sample.outgoing Sample.GET)] |})
  (* POST: no retry *)
  /\ fetch Sample.parse Sample.stringify Sample.url_parse
       (Sample.scripted [Sample.bad_gateway; Sample.plain_response]) Sample.clock None
       (InString Sample.destination) Sample.POST (Sample.machine Sample.ready)
     = (Throw (Error (js "status: 502 Bad Gateway")),
        {| self := Sample.ready;
           trace := [EvFetch Sample.proxied_url (Sample.outgoing Sample.POST)] |})
  (* no error header: the response as it is *)
  /\ fetch Sample.parse Sample.stringify Sample.url_parse
       (Sample.scripted [Sample.exchange_denied]) Sample.clock None
       (InString Sample.destination) None (Sample.machine Sample.ready)
     = (Ok Sample.exchange_denied,
        {| self := Sample.ready;
           trace := [EvFetch Sample.proxied_url (Sample.outgoing None)] |}).
Proof.
  split; [|split].
  - destruct (fetch_retry_policy Sample.parse Sample.stringify Sample.url_parse
                (Sample.scripted [Sample.bad_gateway; Sample.plain_response])
                Sample.clock None _ _ _ _ _ _
                (SampleFacts.ready_reaches _ Sample.GET eq_refl))
      as (_ & H & _).
    destruct (H Sample.bad_gateway (js "Bad Gateway") (js "GET") eq_refl eq_refl
                ltac:(discriminate) eq_refl) as (_ & Hretry).
    rewrite Hretry; [reflexivity|]. repeat split; reflexivity.
  - destruct (fetch_retry_policy Sample.parse Sample.stringify Sample.url_parse
                (Sample.scripted [Sample.bad_gateway; Sample.plain_response])
                Sample.clock None _ _ _ _ _ _
                (SampleFacts.ready_reaches _ Sample.POST eq_refl))
      as (_ & H & _).
    destruct (H Sample.bad_gateway (js "Bad Gateway") (js "POST") eq_refl eq_refl
                ltac:(discriminate) eq_refl) as (Hfail & _).
    rewrite Hfail; [reflexivity|].
    intros (_ & Hm & _). vm_compute in Hm. discriminate.
  - destruct (fetch_retry_policy Sample.parse Sample.stringify Sample.url_parse
                (Sample.scripted [Sample.exchange_denied])
                Sample.clock None _ _ _ _ _ _
                (SampleFacts.ready_reaches _ None eq_refl))
      as (H & _).
    apply (H Sample.exchange_denied); [reflexivity | left; reflexivity].
Defined.

(** C5 fails on the code.  The object literal of line 84 sets [method],
    [body] and [redirect] from the [Request] and only then spreads what
    [init] carries, so a [method] of [init] replaces the one of the
    [Request]: with a POST [Request] and [{ method: 'PUT' }] the outgoing
    method is PUT. *)
Theorem assemble_options_init_wins :
  let init := Some [(js "method", VString (js "PUT"))] in
  req_method Sample.post_request = js "POST"
  /\ member (assemble_options (InRequest Sample.post_request) init []) (js "method")
     = VString (js "PUT")
  /\ member (assemble_options (InRequest Sample.post_request) init []) (js "method")
     <> VString (req_method Sample.post_request).
Proof.
  intros init. split; [reflexivity|]. split; [vm_compute; reflexivity|].
  vm_compute. discriminate.
Qed.

Example assemble_options_members_example :
  let init := Some [(js "method", VString (js "PUT")); (js "mode", VString (js "cors"));
                    (js "headers", VHeaders [(js "X-Custom", js "v")])] in
  let req := assemble_options (InRequest Sample.post_request) init
               Sample.client_headers in
  member req (js "headers") = VHeaders Sample.client_headers
  /\ member req (js "method") = VString (js "PUT")
  /\ member req (js "mode") = VString (js "cors")
  /\ member req (js "body") = VOpaque 1
  /\ member req (js "redirect") = VString (js "follow")
  /\ member req (js "signal") = VUndefined.
Proof.
  intros init req.
  assert (Hnd : NoDup (map fst (init_members init))).
  { repeat constructor; cbn; intuition discriminate. }
  destruct (assemble_options_members (InRequest Sample.post_request) init
              Sample.client_headers Hnd) as (H1 & H2 & H3 & _ & H5).
  split; [exact H1|].
  split; [apply H2; [literals_differ | reflexivity]|].
  split; [apply H2; [literals_differ | reflexivity]|].
  destruct (H3 Sample.post_request eq_refl) as (_ & Hb & Hr).
  split; [apply Hb; reflexivity|].
  split; [apply Hr; reflexivity|].
  apply H5; [reflexivity | literals_differ ..].
Qed.

Lemma proxy_url_roundtrip_witness :
  (exists u,
      b64urlEncode Sample.destination = Ok u
      /\ u = js "aHR0cHM6Ly9hcGkuZXhhbXBsZS5jb20vZGF0YQ"
      /\ Base64.atob (replace_all 95 47 (replace_all 45 43 u)) = Ok Sample.destination
      /\ Utf8.decode (Utf8.encode Sample.destination) = Some Sample.destination)
  /\ exists rest,
       trace (snd (fetch Sample.parse Sample.stringify Sample.url_parse
                     (Sample.scripted [Sample.plain_response]) Sample.clock None
                     (InString Sample.destination) None (Sample.machine Sample.ready)))
       = EvFetch (js "https://localhost:8787.bridggy.com/proxy?u="
                    ++ js "aHR0cHM6Ly9hcGkuZXhhbXBsZS5jb20vZGF0YQ")
           (Sample.outgoing None) :: rest.
Proof.
  destruct (proxy_url_roundtrip Sample.parse Sample.stringify Sample.url_parse
              (Sample.scripted [Sample.plain_response]) Sample.clock None)
    as (Hform & Hcode).
  split.
  - assert (Hcu : code_units Sample.destination).
    { unfold code_units. apply Forall_forall. intros c Hc. vm_compute in Hc.
      repeat (destruct Hc as [<- | Hc]; [reflexivity|]). destruct Hc. }
    destruct (Hcode Sample.destination Hcu) as (u & Hu & Hval & _ & Hback & Hwf & Hascii).
    exists u. split; [exact Hu|]. split; [rewrite Hval; vm_compute; reflexivity|].
    split.
    + rewrite Hback, Hascii; [reflexivity|].
      apply Forall_forall. intros c Hc. vm_compute in Hc.
      repeat (destruct Hc as [<- | Hc]; [reflexivity|]). destruct Hc.
    + apply Hwf. vm_compute. reflexivity.
  - destruct (Hform _ _ _ _ _ _ (SampleFacts.ready_reaches _ None eq_refl))
      as (url & tok & payload & scope & encoded & _ & _ & _ & _ & _ & _ & _ & Htrace).
    destruct (fetch Sample.parse Sample.stringify Sample.url_parse
                (Sample.scripted [Sample.plain_response]) Sample.clock None
                (InString Sample.destination) None (Sample.machine Sample.ready))
      as [r m'] eqn:Hf.
    destruct (Htrace r m' eq_refl) as (rest & Hrest & _).
    exists rest. exact Hrest.
Defined.

(** C3 fails on the code.  The filter deletes from the header set while it
    iterates over it, and the iteration goes by position in the current
    sorted pairs.  With [Connection] and [Cookie] from the caller the pairs
    are connection, cookie, gg-x-source, gg-x-token: position 0 is
    [connection], which is deleted; the pairs are then cookie, gg-x-source,
    gg-x-token, and position 1 is [gg-x-source].  [cookie] is never visited
    and goes out with the request. *)
Theorem private_header_survives :
  exists hs,
    assemble_headers None (InString Sample.destination) Sample.with_private_headers
      Sample.access_token = Ok hs
    /\ includes NonProxyHeaders (toLowerCase (js "Cookie")) = true
    /\ Headers.has hs (js "connection") = false
    /\ Headers.get hs (js "cookie") = Some (js "session=123")
    /\ fetch Sample.parse Sample.stringify Sample.url_parse
         (Sample.scripted [Sample.plain_response]) Sample.clock None
         (InString Sample.destination) Sample.with_private_headers
         (Sample.machine Sample.ready)
       = (Ok Sample.plain_response,
          {| self := Sample.ready;
             trace := [EvFetch Sample.proxied_url
                         (assemble_options (InString Sample.destination)
                            Sample.with_private_headers hs)] |}).
Proof.
  eexists. split; [vm_compute; reflexivity|].
  repeat split; vm_compute; reflexivity.
Qed.

(** The same with two [sec-] headers: the second one stays. *)
Example sec_header_survives :
  let hs := remove_private_headers
              [(js "Sec-Fetch-Dest", js "empty"); (js "Sec-Fetch-Mode", js "cors")] in
  Headers.has hs (js "sec-fetch-dest") = false
  /\ Headers.get hs (js "sec-fetch-mode") = Some (js "cors").
Proof. split; vm_compute; reflexivity. Qed.

(** The header test of the repository passes: there no two private headers
    are neighbours in the sorted order. *)
Example repository_header_test :
  let init := Some [(js "headers",
                     VHeaders [(js "Content-Type", js "application/json");
                               (js "User-Agent", js "test-agent");
                               (js "Cookie", js "session=123");
                               (js "X-Custom", js "custom-value")])] in
  exists hs,
    assemble_headers None (InString Sample.destination) init Sample.access_token
    = Ok hs
    /\ Headers.has hs (js "user-agent") = false
    /\ Headers.has hs (js "cookie") = false
    /\ Headers.get hs (js "x-custom") = Some (js "custom-value")
    /\ Headers.get hs (js "content-type") = Some (js "application/json").
Proof.
  eexists. split; [vm_compute; reflexivity|].
  repeat split; vm_compute; reflexivity.
Qed.

(** Without a [method] in the options the request goes out as a GET of the
    transport's own default, and the loop does not retry it. *)
Example fetch_without_method :
  member (Sample.outgoing None) (js "method") = VUndefined
  /\ fetch Sample.parse Sample.stringify Sample.url_parse
       (Sample.scripted [Sample.bad_gateway; Sample.plain_response]) Sample.clock None
       (InString Sample.destination) None (Sample.machine Sample.ready)
     = (Throw (Error (js "status: 502 Bad Gateway")),
        {| self := Sample.ready;
           trace := [EvFetch Sample.proxied_url (Sample.outgoing None)] |}).
Proof. split; vm_compute; reflexivity. Qed.

(** * More of the code *)

(** ** How a call unfolds *)

Section Unfolding.

#[local] Set Default Proof Using "Type".

Variable JSON_parse : jsstring -> option json.
Variable JSON_stringify : json -> jsstring.
Variable URL_parse : jsstring -> option URL.
Variable transport : list Event -> jsstring -> object -> Outcome Response.
Variable clock : list Event -> Z.
Variable window_origin : option jsstring.

Local Abbreviation fetch' :=
  (fetch JSON_parse JSON_stringify URL_parse transport clock window_origin).
Local Abbreviation refresh' := (refresh JSON_parse JSON_stringify transport clock).
Local Abbreviation exchange' := (exchange JSON_parse JSON_stringify transport clock).
Local Abbreviation payload_of := (getTokenPayload JSON_parse).
Local Abbreviation expired_at := (isTokenExpired_at JSON_parse).
Local Abbreviation prepare' := (prepare JSON_parse URL_parse window_origin).
Local Abbreviation dispatch' := (dispatch transport).

(** [fetch] is the guard, the freshness step, the preparation and the loop. *)
Lemma fetch_steps input init m :
  fetch' input init m
  = if falsy_str (proxyToken (self m)) then (Throw NotConfigured, m)
    else match refresh' m with
         | (Throw e, m1) => (Throw e, m1)
         | (Ok _, m1) =>
             match prepare' input init (self m1) with
             | Throw e => (Throw e, m1)
             | Ok (proxyUrl, req) => dispatch' 2 0 proxyUrl req m1
             end
         end.
Proof.
  unfold fetch. unfold bind at 1, this at 1.
  destruct (falsy_str (proxyToken (self m))); [reflexivity|].
  unfold bind at 1. destruct (refresh' m) as [[[]|e] m1]; [|reflexivity].
  unfold prepare.
  unfold bind at 1, lift at 1.
  destruct (getUrl URL_parse input) as [url|e]; [|reflexivity]. cbn [obind].
  unfold bind at 1, this at 1. unfold bind at 1, lift at 1.
  destruct (as_string (token (self m1))) as [tok|e]; [|reflexivity]. cbn [obind].
  unfold bind at 1, lift at 1.
  destruct (payload_of tok) as [payload|e]; [|reflexivity]. cbn [obind].
  unfold bind at 1, lift at 1.
  destruct (prop payload (js "scope")) as [scope|e]; [|reflexivity]. cbn [obind].
  unfold bind at 1, lift at 1.
  destruct (b64urlEncode (href url)) as [encoded|e]; [|reflexivity]. cbn [obind].
  unfold bind at 1, lift at 1.
  destruct (assemble_headers window_origin input init tok) as [headers|e];
    reflexivity.
Qed.

(** The freshness step is the expiry check and, when it says so, the
    exchange. *)
Lemma refresh_steps m :
  refresh' m
  = match expired_at (token (self m)) (clock (trace m)) with
    | Throw e => (Throw e, m)
    | Ok true => exchange' m
    | Ok false => (Ok tt, m)
    end.
Proof.
  unfold refresh, isTokenExpired, bind, this, Date_now, lift. cbn [self trace].
  destruct (expired_at (token (self m)) (clock (trace m))) as [[|]|e]; reflexivity.
Qed.

(** The exchange, step by step. *)
Lemma exchange_steps m :
  exchange' m
  = match proxyToken (self m) with
    | None => (Throw EngineTypeError, m)
    | Some p =>
        match payload_of p with
        | Throw e => (Throw e, m)
        | Ok payload =>
            match prop payload (js "aud") with
            | Throw e => (Throw e, m)
            | Ok aud =>
                let url := exchange_endpoint aud in
                let options := exchange_options JSON_stringify (clock (trace m)) p in
                let sent := {| self := self m;
                               trace := trace m ++ [EvFetch url options] |} in
                match transport (trace m) url options with
                | Throw e => (Throw e, sent)
                | Ok resp =>
                    if negb (ok resp)
                    then (Throw (Error (exchange_failed_message (status resp))), sent)
                    else match json_body resp with
                         | Throw e => (Throw e, sent)
                         | Ok body =>
                             match prop body (js "token") with
                             | Throw e => (Throw e, sent)
                             | Ok t =>
                                 (Ok tt,
                                  {| self := {| proxyToken := proxyToken (self m);
                                                token := t;
                                                retry := retry (self m) |};
                                     trace := trace sent |})
                             end
                         end
                end
            end
        end
    end.
Proof.
  unfold exchange, bind, this, Date_now, lift, send, throw, set_token.
  cbn [self trace].
  destruct (proxyToken (self m)) as [p|] eqn:Hp; [|reflexivity].
  destruct (payload_of p) as [payload|e]; [|reflexivity].
  destruct (prop payload (js "aud")) as [aud|e]; [|reflexivity]. cbv zeta.
  destruct (transport (trace m) (exchange_endpoint aud) _) as [resp|e];
    [|reflexivity].
  destruct (negb (ok resp)); [reflexivity|].
  destruct (json_body resp) as [body|e]; [|reflexivity].
  destruct (prop body (js "token")) as [t|e]; [|reflexivity].
  cbn [self trace]. now rewrite Hp.
Qed.

End Unfolding.

(** ** What a call does to the instance and to the world *)

Lemma count_requests_app a b :
  count_requests (a ++ b) = (count_requests a + count_requests b)%nat.
Proof. unfold count_requests. now rewrite filter_app, length_app. Qed.

Lemma count_sleeps_app a b :
  count_sleeps (a ++ b) = (count_sleeps a + count_sleeps b)%nat.
Proof. unfold count_sleeps. now rewrite filter_app, length_app. Qed.

Section Effects.

#[local] Set Default Proof Using "Type".

Variable JSON_parse : jsstring -> option json.
Variable JSON_stringify : json -> jsstring.
Variable URL_parse : jsstring -> option URL.
Variable transport : list Event -> jsstring -> object -> Outcome Response.
Variable clock : list Event -> Z.
Variable window_origin : option jsstring.

Local Abbreviation fetch' :=
  (fetch JSON_parse JSON_stringify URL_parse transport clock window_origin).
Local Abbreviation refresh' := (refresh JSON_parse JSON_stringify transport clock).
Local Abbreviation exchange' := (exchange JSON_parse JSON_stringify transport clock).
Local Abbreviation payload_of := (getTokenPayload JSON_parse).
Local Abbreviation expired_at := (isTokenExpired_at JSON_parse).
Local Abbreviation prepare' := (prepare JSON_parse URL_parse window_origin).
Local Abbreviation dispatch' := (dispatch transport).

(** What an exchange can have done. *)
Lemma exchange_effect m r m' :
  exchange' m = (r, m') ->
  proxyToken (self m') = proxyToken (self m)
  /\ retry (self m') = retry (self m)
  /\ (trace m' = trace m \/ exists u o, trace m' = trace m ++ [EvFetch u o])
  /\ (forall e, r = Throw e -> self m' = self m).
Proof.
  rewrite exchange_steps. cbv zeta.
  destruct (proxyToken (self m)) as [p|] eqn:Hp;
    [destruct (payload_of p) as [payload|];
     [destruct (prop payload (js "aud")) as [aud|];
      [destruct (transport (trace m) _ _) as [resp|];
       [destruct (negb (ok resp));
        [|destruct (json_body resp) as [body|];
          [destruct (prop body (js "token")) as [t|]|]]|]|]|]|];
    intros [= <- <-]; cbn [self trace proxyToken retry];
    repeat split; eauto; discriminate.
Qed.

(** What the loop can have done: one request, or two around the delay, and
    two only with the retry flag on and the method GET. *)
Lemma dispatch_effect proxyUrl req m r m' :
  dispatch' 2 0 proxyUrl req m = (r, m') ->
  self m' = self m
  /\ (trace m' = trace m ++ [EvFetch proxyUrl req]
      \/ (trace m'
          = trace m ++ [EvFetch proxyUrl req; EvSleep 2000; EvFetch proxyUrl req]
          /\ retry (self m) = Some true
          /\ member req (js "method") = VString (js "GET"))).
Proof.
  rewrite dispatch_unfold. cbv zeta. rewrite <- !app_assoc. cbn [app].
  destruct (transport (trace m) proxyUrl req) as [resp|e];
    [|intros [= <- <-]; cbn [self trace]; auto].
  destruct (error_text resp); [|intros [= <- <-]; cbn [self trace]; auto].
  destruct (should_retry _ _ _ _) eqn:Hs; [|intros [= <- <-]; cbn [self trace]; auto].
  apply should_retry_iff in Hs. destruct Hs as (Hr & Hm & _).
  destruct (transport _ proxyUrl req) as [resp2|e2];
    [destruct (error_text resp2)|];
    intros [= <- <-]; cbn [self trace]; auto.
Qed.

(** What the freshness step can have done. *)
Lemma refresh_effect m r m1 :
  refresh' m = (r, m1) ->
  proxyToken (self m1) = proxyToken (self m)
  /\ retry (self m1) = retry (self m)
  /\ (trace m1 = trace m
      \/ (exists u o, trace m1 = trace m ++ [EvFetch u o])
         /\ expired_at (token (self m)) (clock (trace m)) = Ok true)
  /\ (forall e, r = Throw e -> self m1 = self m)
  /\ (m1 <> m -> expired_at (token (self m)) (clock (trace m)) = Ok true).
Proof.
  rewrite refresh_steps.
  destruct (expired_at (token (self m)) (clock (trace m))) as [[|]|e] eqn:He.
  - intros Hx. destruct (exchange_effect _ _ _ Hx) as (H1 & H2 & H3 & H4).
    repeat split; try assumption. destruct H3; auto.
  - intros [= <- <-]. repeat split; auto. congruence.
  - intros [= <- <-]. repeat split; auto. congruence.
Qed.

(** What a [fetch] adds to the trace: the request of an exchange or nothing,
    and then nothing, the proxied request, or the proxied request twice
    around the delay. *)
Lemma fetch_trace_shape input init m r m' :
  fetch' input init m = (r, m') ->
  exists ex ds,
    trace m' = trace m ++ ex ++ ds
    /\ (ex = []
        \/ (exists u o, ex = [EvFetch u o])
           /\ expired_at (token (self m)) (clock (trace m)) = Ok true)
    /\ (ds = []
        \/ (exists u o, ds = [EvFetch u o])
        \/ (exists u o, ds = [EvFetch u o; EvSleep 2000; EvFetch u o])
           /\ retry (self m) = Some true).
Proof.
  rewrite fetch_steps.
  destruct (falsy_str (proxyToken (self m))).
  { intros [= <- <-]. exists [], []. rewrite app_nil_r. auto. }
  destruct (refresh' m) as [r1 m1] eqn:Hr.
  pose proof (refresh_effect _ _ _ Hr) as (_ & H2 & H3 & _).
  assert (Hex : exists ex,
             trace m1 = trace m ++ ex
             /\ (ex = []
                 \/ (exists u o, ex = [EvFetch u o])
                    /\ expired_at (token (self m)) (clock (trace m)) = Ok true)).
  { destruct H3 as [H3 | ((u & o & H3) & He)].
    - exists []. rewrite app_nil_r. auto.
    - exists [EvFetch u o]. split; [exact H3|]. right. eauto. }
  destruct Hex as (ex & Htr & Hex).
  assert (Hstop : m' = m1 ->
                  exists ex ds,
                    trace m' = trace m ++ ex ++ ds
                    /\ (ex = []
                        \/ (exists u o, ex = [EvFetch u o])
                           /\ expired_at (token (self m)) (clock (trace m)) = Ok true)
                    /\ (ds = []
                        \/ (exists u o, ds = [EvFetch u o])
                        \/ (exists u o, ds = [EvFetch u o; EvSleep 2000; EvFetch u o])
                           /\ retry (self m) = Some true)).
  { intros ->. exists ex, []. rewrite app_nil_r. auto. }
  destruct r1 as [[]|e]; [|intros [= <- <-]; now apply Hstop].
  destruct (prepare' input init (self m1)) as [[proxyUrl req]|e];
    [|intros [= <- <-]; now apply Hstop].
  intros Hd. apply dispatch_effect in Hd.
  destruct Hd as (_ & [Ht | (Ht & Hret & _)]); rewrite Ht, Htr, <- app_assoc.
  - exists ex, [EvFetch proxyUrl req]. split; [reflexivity|]. split; [exact Hex|].
    right. left. eauto.
  - exists ex, [EvFetch proxyUrl req; EvSleep 2000; EvFetch proxyUrl req].
    split; [reflexivity|]. split; [exact Hex|].
    right. right. split; [eauto | congruence].
Qed.

(** X1.  An exchange never touches the configuration, calls the transport
    at most once and never sleeps; when it fails the instance is exactly as
    it was, held token included. *)
Theorem exchange_keeps_instance :
  forall m r m',
    exchange' m = (r, m') ->
    proxyToken (self m') = proxyToken (self m)
    /\ retry (self m') = retry (self m)
    /\ (exists new,
           trace m' = trace m ++ new
           /\ (count_requests new <= 1)%nat /\ count_sleeps new = 0%nat)
    /\ (forall e, r = Throw e -> self m' = self m).
Proof.
  intros m r m' Hx.
  destruct (exchange_effect _ _ _ Hx) as (H1 & H2 & [H3 | (u & o & H3)] & H4).
  - repeat split; try assumption. exists []. rewrite app_nil_r.
    repeat split; cbn; auto.
  - repeat split; try assumption. exists [EvFetch u o].
    repeat split; cbn; auto.
Qed.

(** X2.  A [fetch], however it ends, leaves [proxyToken] and [retry] as they
    were; the held access token is another one afterwards only if the
    expiry check had said "expired", and then the call did pass the
    exchange. *)
Theorem fetch_keeps_configuration :
  forall input init m r m',
    fetch' input init m = (r, m') ->
    proxyToken (self m') = proxyToken (self m)
    /\ retry (self m') = retry (self m)
    /\ (token (self m') <> token (self m) ->
        expired_at (token (self m)) (clock (trace m)) = Ok true
        /\ exists m1, exchange' m = (Ok tt, m1) /\ token (self m') = token (self m1)).
Proof.
  intros input init m r m'. rewrite fetch_steps.
  destruct (falsy_str (proxyToken (self m))).
  { intros [= <- <-]. repeat split; congruence. }
  destruct (refresh' m) as [r1 m1] eqn:Hr.
  pose proof (refresh_effect _ _ _ Hr) as (H1 & H2 & _ & H4 & H5).
  assert (Hend : self m' = self m1 ->
                 proxyToken (self m') = proxyToken (self m)
                 /\ retry (self m') = retry (self m)
                 /\ (token (self m') <> token (self m) ->
                     expired_at (token (self m)) (clock (trace m)) = Ok true
                     /\ exists m2, exchange' m = (Ok tt, m2)
                                   /\ token (self m') = token (self m2))).
  { intros Hs. rewrite Hs. repeat split; try assumption.
    - apply H5. congruence.
    - rewrite refresh_steps in Hr.
      destruct (expired_at (token (self m)) (clock (trace m))) as [[|]|e].
      + destruct r1 as [[]|e]; [now exists m1|].
        specialize (H4 e eq_refl). congruence.
      + injection Hr as <- <-. congruence.
      + injection Hr as <- <-. congruence. }
  destruct r1 as [[]|e]; [|intros [= <- <-]; now apply Hend].
  destruct (prepare' input init (self m1)) as [[proxyUrl req]|e];
    [|intros [= <- <-]; now apply Hend].
  intros Hd. apply dispatch_effect in Hd. now apply Hend.
Qed.

(** X3.  A [fetch] only adds to the trace, and what it adds is at most three
    calls of the transport (an exchange and the proxied request twice) and
    at most one sleep, of 2000 ms; the sleep needs the retry flag on.  With
    the held token not expired there are at most two calls. *)
Theorem fetch_trace_bound :
  forall input init m r m',
    fetch' input init m = (r, m') ->
    exists new,
      trace m' = trace m ++ new
      /\ (count_requests new <= 3)%nat
      /\ (count_sleeps new <= 1)%nat
      /\ Forall (fun e => match e with
                          | EvSleep ms => ms = 2000%Z
                          | EvFetch _ _ => True
                          end) new
      /\ (count_sleeps new = 1%nat -> retry (self m) = Some true)
      /\ (expired_at (token (self m)) (clock (trace m)) = Ok false ->
          (count_requests new <= 2)%nat).
Proof.
  intros input init m r m' Hf.
  destruct (fetch_trace_shape _ _ _ _ _ Hf) as (ex & ds & Htr & Hex & Hds).
  exists (ex ++ ds). split; [exact Htr|].
  rewrite count_requests_app, count_sleeps_app.
  destruct Hex as [-> | ((u & o & ->) & He)];
    destruct Hds as [-> | [(u' & o' & ->) | ((u' & o' & ->) & Hret)]];
    cbn; repeat split; try lia; try (repeat constructor); try congruence.
Qed.

(** X4.  After [configure] with [retry: false] a [fetch] never sleeps and
    sends the proxied request at most once: at most two calls of the
    transport, the exchange included. *)
Theorem retry_disabled_sends_once :
  forall c b input init tr r m',
    cfg_retry c = Some false ->
    fetch' input init {| self := configure c b; trace := tr |} = (r, m') ->
    exists new,
      trace m' = tr ++ new
      /\ count_sleeps new = 0%nat
      /\ (count_requests new <= 2)%nat.
Proof.
  intros c b input init tr r m' Hc Hf.
  destruct (fetch_trace_shape _ _ _ _ _ Hf) as (ex & ds & Htr & Hex & Hds).
  exists (ex ++ ds). split; [exact Htr|].
  rewrite count_requests_app, count_sleeps_app.
  destruct Hex as [-> | ((u & o & ->) & He)];
    destruct Hds as [-> | [(u' & o' & ->) | (_ & Hret)]];
    cbn; try (split; lia);
    cbn in Hret; rewrite Hc in Hret; discriminate.
Qed.


(** ** The freshness step inside [fetch] *)

Lemma expired_at_malformed s now :
  s <> [] ->
  (forall data z, payload_of s = Ok data -> prop data (js "exp") <> Ok (Some (JNum z))) ->
  expired_at (Some (JStr s)) now = Throw InvalidOrMalformedToken.
Proof.
  intros Hs Hbad. rewrite expired_at_held by assumption.
  unfold expiry_of. cbn [as_string obind].
  destruct (payload_of s) as [data|e] eqn:Hp; [|reflexivity]. cbn [obind].
  destruct (prop data (js "exp")) as [[[| | z | | |]|]|] eqn:Hx; try reflexivity.
  now elim (Hbad data z).
Qed.

(** X5.  A configured instance that holds a token whose claims cannot be
    read, or have no numeric [exp], is stuck: [fetch] fails with "invalid or
    malformed token" whatever the clock says, sends nothing, attempts no
    exchange and leaves the instance as it is, so that the next [fetch]
    fails in the same way. *)
Theorem fetch_malformed_token_stuck :
  forall input init m s,
    falsy_str (proxyToken (self m)) = false ->
    token (self m) = Some (JStr s) -> s <> [] ->
    (forall data z,
        payload_of s = Ok data -> prop data (js "exp") <> Ok (Some (JNum z))) ->
    fetch' input init m = (Throw InvalidOrMalformedToken, m).
Proof.
  intros input init m s Hc Ht Hs Hbad.
  rewrite fetch_steps, Hc, refresh_steps, Ht.
  now rewrite expired_at_malformed.
Qed.

(** X6.  When the expiry check says "expired" and the exchange endpoint
    answers with a status that is not a success, [fetch] fails with the
    failure of the exchange: the proxied request is never sent, the held
    token stays, and the one request on the trace is the exchange. *)
Theorem fetch_exchange_refused :
  forall input init m p payload aud resp,
    proxyToken (self m) = Some p -> p <> [] ->
    expired_at (token (self m)) (clock (trace m)) = Ok true ->
    payload_of p = Ok payload ->
    prop payload (js "aud") = Ok aud ->
    transport (trace m) (exchange_endpoint aud)
      (exchange_options JSON_stringify (clock (trace m)) p) = Ok resp ->
    ok resp = false ->
    fetch' input init m
    = (Throw (Error (js "status: " ++ Z_toString (status resp)
                        ++ js " proxy: Token exchange failed")),
       {| self := self m;
          trace := trace m
                   ++ [EvFetch (exchange_endpoint aud)
                         (exchange_options JSON_stringify (clock (trace m)) p)] |}).
Proof.
  intros input init m p payload aud resp Hp Hne He Hd Ha Ht Hok.
  rewrite fetch_steps, Hp.
  destruct p as [|c p]; [congruence|]. cbn [falsy_str].
  rewrite refresh_steps, He, exchange_steps, Hp, Hd, Ha. cbv zeta.
  rewrite Ht, Hok. reflexivity.
Qed.

(** X7.  A success answer of the exchange endpoint whose JSON body has no
    [token] member is taken all the same: the held token becomes
    [undefined], and the [fetch] that exchanged fails with the engine's
    [TypeError] before any proxied request is sent. *)
Theorem fetch_exchange_without_token :
  forall input init m p payload aud resp body url,
    proxyToken (self m) = Some p -> p <> [] ->
    expired_at (token (self m)) (clock (trace m)) = Ok true ->
    payload_of p = Ok payload ->
    prop payload (js "aud") = Ok aud ->
    transport (trace m) (exchange_endpoint aud)
      (exchange_options JSON_stringify (clock (trace m)) p) = Ok resp ->
    ok resp = true ->
    json_body resp = Ok body ->
    prop body (js "token") = Ok None ->
    getUrl URL_parse input = Ok url ->
    fetch' input init m
    = (Throw EngineTypeError,
       {| self := {| proxyToken := Some p; token := None; retry := retry (self m) |};
          trace := trace m
                   ++ [EvFetch (exchange_endpoint aud)
                         (exchange_options JSON_stringify (clock (trace m)) p)] |}).
Proof.
  intros input init m p payload aud resp body url Hp Hne He Hd Ha Ht Hok Hb Hn Hu.
  rewrite fetch_steps, Hp.
  destruct p as [|c p]; [congruence|]. cbn [falsy_str].
  rewrite refresh_steps, He, exchange_steps, Hp, Hd, Ha. cbv zeta.
  rewrite Ht, Hok, Hb, Hn. cbn [negb self token].
  unfold prepare. rewrite Hu. reflexivity.
Qed.

(** X8.  Every proxied request that a [fetch] sends carries the source
    header and, as [gg-x-token], the access token that the instance holds
    once the freshness step is over: the one just exchanged when an exchange
    took place. *)
Theorem proxied_requests_carry_token :
  forall input init m m1 r m' ds u o,
    refresh' m = (Ok tt, m1) ->
    fetch' input init m = (r, m') ->
    falsy_str (proxyToken (self m)) = false ->
    trace m' = trace m1 ++ ds ->
    In (EvFetch u o) ds ->
    exists s hs,
      token (self m1) = Some (JStr s)
      /\ member o (js "headers") = VHeaders hs
      /\ Headers.get hs (js "gg-x-token") = Some s
      /\ Headers.get hs (js "gg-x-source") = Some (js "client").
Proof.
  intros input init m m1 r m' ds u o Hr Hf Hc Htr Hin.
  rewrite fetch_steps, Hc, Hr in Hf.
  unfold prepare in Hf.
  destruct (getUrl URL_parse input) as [url|e]; cbn [obind] in Hf;
    [|injection Hf as <- <-; apply (f_equal (@List.length Event)) in Htr;
      rewrite length_app in Htr; destruct ds; [destruct Hin | cbn in Htr; lia]].
  destruct (token (self m1)) as [[| | | s | |]|] eqn:Ht; cbn [as_string obind] in Hf;
    try (injection Hf as <- <-; apply (f_equal (@List.length Event)) in Htr;
         rewrite length_app in Htr; destruct ds; [destruct Hin | cbn in Htr; lia]).
  destruct (payload_of s) as [payload|e]; cbn [obind] in Hf;
    [|injection Hf as <- <-; apply (f_equal (@List.length Event)) in Htr;
      rewrite length_app in Htr; destruct ds; [destruct Hin | cbn in Htr; lia]].
  destruct (prop payload (js "scope")) as [scope|e]; cbn [obind] in Hf;
    [|injection Hf as <- <-; apply (f_equal (@List.length Event)) in Htr;
      rewrite length_app in Htr; destruct ds; [destruct Hin | cbn in Htr; lia]].
  destruct (b64urlEncode (href url)) as [encoded|e]; cbn [obind] in Hf;
    [|injection Hf as <- <-; apply (f_equal (@List.length Event)) in Htr;
      rewrite length_app in Htr; destruct ds; [destruct Hin | cbn in Htr; lia]].
  destruct (assemble_headers window_origin input init s) as [hs|e] eqn:Hh;
    cbn [obind] in Hf;
    [|injection Hf as <- <-; apply (f_equal (@List.length Event)) in Htr;
      rewrite length_app in Htr; destruct ds; [destruct Hin | cbn in Htr; lia]].
  apply dispatch_effect in Hf. destruct Hf as (_ & Hds).
  assert (Ho : o = assemble_options input init hs).
  { destruct Hds as [Hds | (Hds & _)]; rewrite Hds in Htr;
      apply app_inv_head in Htr; subst ds; cbn in Hin;
      repeat (destruct Hin as [Hin | Hin]; [congruence|]); destruct Hin. }
  exists s, hs. split; [reflexivity|]. subst o.
  split; [apply member_put_same|].
  destruct (new_Headers (caller_headers input init)) as [h0|e] eqn:H0.
  - destruct (assemble_headers_sets window_origin input init s h0 hs H0 Hh)
      as (Hsrc & Htok & _).
    now split.
  - unfold assemble_headers in Hh. rewrite H0 in Hh. discriminate.
Qed.

(** X9.  [configure] replaces the configuration as a whole and leaves the
    held access token alone: when that token is not expired, a [fetch] on
    the re-configured instance goes to the preparation and the loop without
    any exchange, under the token obtained for the earlier configuration. *)
Theorem reconfigure_keeps_token :
  forall c1 c2 b input init tr,
    cfg_token c2 <> [] ->
    expired_at (token b) (clock tr) = Ok false ->
    let m := {| self := configure c2 (configure c1 b); trace := tr |} in
    configure c2 (configure c1 b) = configure c2 b
    /\ token (self m) = token b
    /\ fetch' input init m
       = match prepare' input init (self m) with
         | Throw e => (Throw e, m)
         | Ok (proxyUrl, req) => dispatch' 2 0 proxyUrl req m
         end.
Proof.
  intros c1 c2 b input init tr Hne He m.
  split; [reflexivity|]. split; [reflexivity|].
  rewrite fetch_steps, refresh_steps. cbn [m self proxyToken configure trace token].
  rewrite He. destruct (cfg_token c2); [congruence | reflexivity].
Qed.

(** X20.  A client that was just constructed with a configuration holds no
    access token, so its first [fetch] starts with an exchange: a failure of
    the exchange is the outcome of the call, and only after its success are
    the request prepared and sent. *)
Theorem first_fetch_exchanges :
  forall c input init tr,
    cfg_token c <> [] ->
    let m := {| self := constructor (Some c); trace := tr |} in
    fetch' input init m
    = match exchange' m with
      | (Throw e, m1) => (Throw e, m1)
      | (Ok _, m1) =>
          match prepare' input init (self m1) with
          | Throw e => (Throw e, m1)
          | Ok (proxyUrl, req) => dispatch' 2 0 proxyUrl req m1
          end
      end.
Proof.
  intros c input init tr Hne m.
  rewrite fetch_steps, refresh_steps. cbn [m self constructor configure proxyToken token].
  destruct (cfg_token c); [congruence | reflexivity].
Qed.

End Effects.

(** ** More on the encoding of the destination *)

(** X10.  [b64urlEncode] never fails on a string; what it returns consists
    of letters, digits, [-] and [_] only, so that it can stand in a query
    string as it is, and has one character for every six bits of the UTF-8
    bytes, rounded up. *)
Theorem b64urlEncode_urlsafe :
  forall s,
    code_units s ->
    exists u,
      b64urlEncode s = Ok u
      /\ forallb is_urlsafe u = true
      /\ List.length u = ((4 * List.length (Utf8.encode s) + 2) / 3)%nat.
Proof.
  intros s Hs. eexists. split; [now apply UrlSafeFacts.b64urlEncode_value|].
  split.
  - apply EncodingFacts.urlsafe_alphabet_safe.
    apply Base64Facts.encode_body_plain. now apply Utf8Facts.encode_bytes.
  - rewrite EncodingFacts.urlsafe_length.
    apply EncodingFacts.encode_body_length_exact.
Qed.

(** X11.  [b64urlEncode] tells strings apart: two strings (with paired
    surrogates) that encode alike are the same string, so no two
    destinations share a proxy URL under one scope. *)
Theorem b64urlEncode_injective :
  forall s1 s2,
    Utf8.well_formed s1 = true -> Utf8.well_formed s2 = true ->
    b64urlEncode s1 = b64urlEncode s2 ->
    s1 = s2.
Proof.
  intros s1 s2 H1 H2 He.
  pose proof (Utf8Facts.well_formed_code_units s1 H1) as C1.
  pose proof (Utf8Facts.well_formed_code_units s2 H2) as C2.
  rewrite (UrlSafeFacts.b64urlEncode_value s1 C1) in He.
  rewrite (UrlSafeFacts.b64urlEncode_value s2 C2) in He.
  injection He as He.
  pose proof (UrlSafeFacts.atob_urlsafe _ (Utf8Facts.encode_bytes s1 C1)) as A1.
  pose proof (UrlSafeFacts.atob_urlsafe _ (Utf8Facts.encode_bytes s2 C2)) as A2.
  rewrite He in A1. rewrite A1 in A2. injection A2 as Hb.
  pose proof (Utf8Facts.decode_encode s1 H1) as D1.
  pose proof (Utf8Facts.decode_encode s2 H2) as D2.
  rewrite Hb in D1. congruence.
Qed.

(** ** More on the claims of a token *)

Lemma split_app sep a b :
  ~ In sep a -> split sep (a ++ sep :: b) = a :: split sep b.
Proof.
  induction a as [|c a IH]; intros Hn; cbn [app split].
  - now rewrite N.eqb_refl.
  - destruct (N.eqb_spec c sep) as [->|_]; [exfalso; apply Hn; now left|].
    rewrite IH by (intros Hin; apply Hn; now right). reflexivity.
Qed.

(** The second segment of [header.segment] and of [header.segment.rest]. *)
Lemma second_segment h seg :
  ~ In 46%N h -> ~ In 46%N seg ->
  nth_error (split 46 (h ++ 46%N :: seg)) 1 = Some seg
  /\ forall rest, nth_error (split 46 (h ++ 46%N :: seg ++ 46%N :: rest)) 1 = Some seg.
Proof.
  intros Hh Hs. split; [|intros rest]; rewrite split_app by assumption; cbn [nth_error].
  - now rewrite split_no_separator.
  - now rewrite split_app.
Qed.

Section ClaimsFacts.

#[local] Set Default Proof Using "Type".

Variable JSON_parse : jsstring -> option json.

Local Abbreviation payload_of := (getTokenPayload JSON_parse).
Local Abbreviation expired_at := (isTokenExpired_at JSON_parse).

Lemma payload_of_second tok seg :
  nth_error (split 46 tok) 1 = Some seg ->
  payload_of tok
  = match seg with
    | [] => Throw InvalidToken
    | _ => obind (Base64.atob (standard_alphabet seg)) (parse_claims JSON_parse)
    end.
Proof. intros Hs. unfold getTokenPayload. rewrite Hs. now destruct seg. Qed.

(** X12.  [getTokenPayload] reads the middle segment and nothing else: two
    tokens with the same middle segment give the same claims or the same
    failure whatever their first segment is and whatever follows the second
    dot, a signature or none.  No signature is ever checked. *)
Theorem getTokenPayload_reads_middle_segment :
  forall h h' seg rest rest',
    ~ In 46%N h -> ~ In 46%N h' -> ~ In 46%N seg ->
    getTokenPayload JSON_parse (h ++ 46%N :: seg ++ 46%N :: rest)
    = getTokenPayload JSON_parse (h' ++ 46%N :: seg ++ 46%N :: rest')
    /\ getTokenPayload JSON_parse (h ++ 46%N :: seg ++ 46%N :: rest)
       = getTokenPayload JSON_parse (h' ++ 46%N :: seg).
Proof.
  intros h h' seg rest rest' Hh Hh' Hs.
  destruct (second_segment h seg Hh Hs) as (_ & H1).
  destruct (second_segment h' seg Hh' Hs) as (H2 & H3).
  rewrite (payload_of_second _ _ (H1 rest)), (payload_of_second _ _ (H3 rest')),
    (payload_of_second _ _ H2).
  split; reflexivity.
Qed.

(** X13.  The two halves of the class agree on the encoding: a token whose
    middle segment is what [b64urlEncode] makes of a text yields
    [JSON.parse] of the UTF-8 bytes of that text, and so does a token whose
    middle segment is the padded [btoa] of those bytes, as the tests of the
    repository build theirs. *)
Theorem getTokenPayload_of_encoded :
  forall h text rest u,
    ~ In 46%N h -> code_units text -> text <> [] ->
    b64urlEncode text = Ok u ->
    payload_of (h ++ 46%N :: u ++ 46%N :: rest)
    = parse_claims JSON_parse (Utf8.encode text)
    /\ payload_of (h ++ 46%N :: Base64.encode (Utf8.encode text) ++ 46%N :: rest)
       = parse_claims JSON_parse (Utf8.encode text).
Proof.
  intros h text rest u Hh Hcu Hne Hu.
  pose proof (Utf8Facts.encode_bytes text Hcu) as Hb.
  assert (Hbytes : Utf8.encode text <> []).
  { destruct text as [|c t]; [congruence|].
    unfold Utf8.encode. rewrite Utf8Facts.code_points_cons.
    unfold Utf8.encode_cp.
    destruct (Utf8.is_lead c); [destruct t as [|d t]; [|destruct (Utf8.is_trail d)]|
                                destruct (Utf8.is_trail c)];
      cbn [flat_map];
      repeat match goal with
             | |- context [N.ltb ?a ?b] => destruct (N.ltb a b)
             end; discriminate. }
  rewrite (UrlSafeFacts.b64urlEncode_value text Hcu) in Hu. injection Hu as <-.
  pose proof (Base64Facts.encode_body_plain _ Hb) as Hplain.
  split.
  - destruct (second_segment h _ Hh (PaddingFacts.urlsafe_no_dot _ Hplain)) as (_ & H1).
    rewrite (payload_of_second _ _ (H1 rest)).
    destruct (urlsafe_alphabet (Base64.encode_body (Utf8.encode text))) eqn:He.
    + apply (f_equal (@List.length N)) in He.
      rewrite EncodingFacts.urlsafe_length in He.
      destruct (Base64.encode_body (Utf8.encode text)) eqn:Hbody; [|discriminate].
      now apply PaddingFacts.encode_body_nil in Hbody.
    + rewrite <- He. now rewrite UrlSafeFacts.atob_urlsafe.
  - destruct (second_segment h _ Hh (PaddingFacts.encode_no_dot _ Hb)) as (_ & H1).
    rewrite (payload_of_second _ _ (H1 rest)).
    destruct (Base64.encode (Utf8.encode text)) eqn:He.
    + rewrite Base64Facts.encode_split in He. apply app_eq_nil in He.
      destruct He as [He _]. now apply PaddingFacts.encode_body_nil in He.
    + rewrite <- He. rewrite PaddingFacts.encode_standard by assumption.
      now rewrite PaddingFacts.atob_encode.
Qed.

(** X14.  Expiry only moves one way: a token that the check reports expired
    stays expired as the clock goes on, one that is not yet expired was not
    expired before, and a failure of the check does not depend on the clock
    at all. *)
Theorem isTokenExpired_monotone :
  forall tok now later,
    (now <= later)%Z ->
    (isTokenExpired_at JSON_parse tok now = Ok true
     -> isTokenExpired_at JSON_parse tok later = Ok true)
    /\ (isTokenExpired_at JSON_parse tok later = Ok false
        -> isTokenExpired_at JSON_parse tok now = Ok false)
    /\ (forall e, isTokenExpired_at JSON_parse tok now = Throw e
                  -> isTokenExpired_at JSON_parse tok later = Throw e).
Proof.
  intros tok now later Hle. unfold isTokenExpired_at.
  destruct (negb (truthy tok)); [repeat split; congruence|].
  unfold expiry_of.
  destruct (as_string tok) as [s|e]; cbn [obind catch_rethrow];
    [|repeat split; congruence].
  destruct (payload_of s) as [data|e]; cbn [obind catch_rethrow];
    [|repeat split; congruence].
  destruct (prop data (js "exp")) as [[[| | exp | | |]|]|e];
    cbn [obind catch_rethrow]; try (repeat split; congruence).
  clear - Hle.
  destruct (Z.gtb_spec now (exp * 1000 - 60000));
    destruct (Z.gtb_spec later (exp * 1000 - 60000));
    repeat split; try congruence; lia.
Qed.

End ClaimsFacts.

(** ** More on the header filter *)

Lemma filter_filter {A} (f g : A -> bool) l :
  filter f (filter g l) = filter (fun x => g x && f x) l.
Proof.
  induction l as [|x l IH]; [reflexivity|]. cbn [filter].
  destruct (g x); cbn [filter andb]; [destruct (f x)|]; now rewrite IH.
Qed.

(** Whatever the iteration deletes, what is left is the list it started
    from without some of the private headers. *)
Lemma forEach_is_filter fuel : forall i h h',
  Headers.forEach_from fuel drop_if_private i h = Some h' ->
  exists keep,
    h' = filter keep h
    /\ forall p, is_private (toLowerCase (fst p)) = false -> keep p = true.
Proof.
  induction fuel as [|fuel IH]; intros i h h'; cbn [Headers.forEach_from];
    destruct (nth_error (Headers.sort_and_combine h) i) as [[k v]|];
    try discriminate;
    try (intros [= <-]; exists (fun _ => true); split;
         [symmetry; apply forallb_filter_id; now apply forallb_forall | reflexivity]).
  intros H. destruct (IH _ _ _ H) as (keep & -> & Hkeep).
  unfold drop_if_private. destruct (is_private (toLowerCase k)) eqn:Hk.
  - unfold Headers.delete. rewrite filter_filter. eexists. split; [reflexivity|].
    intros p Hp. cbn beta. rewrite (Hkeep p Hp), andb_true_r.
    apply negb_true_iff. apply HeadersFacts.name_eqb_neq. congruence.
  - exists keep. now split.
Qed.

Lemma has_filter keep h k :
  Headers.has h k = false -> Headers.has (filter keep h) k = false.
Proof.
  unfold Headers.has. induction h as [|p h IH]; [reflexivity|]. cbn [existsb filter].
  intros H. apply orb_false_iff in H. destruct H as [Hp Hh].
  destruct (keep p); cbn [existsb]; [rewrite Hp|]; now apply IH.
Qed.

Lemma has_delete h k : Headers.has (Headers.delete h k) k = false.
Proof.
  unfold Headers.has, Headers.delete. induction h as [|p h IH]; [reflexivity|].
  cbn [filter]. destruct (Headers.name_eqb (fst p) k) eqn:Hm; cbn [negb existsb];
    [exact IH | now rewrite Hm].
Qed.

Lemma values_absent h k : Headers.has h k = false -> Headers.values h k = [].
Proof.
  unfold Headers.has, Headers.values. induction h as [|p h IH]; [reflexivity|].
  cbn [existsb filter]. intros H. apply orb_false_iff in H.
  destruct H as [Hp Hh]. rewrite Hp. now apply IH.
Qed.

(** The iteration gets to a private header when none comes before it. *)
Lemma forEach_reaches fuel : forall i j h h' k v,
  Headers.forEach_from fuel drop_if_private i h = Some h' ->
  (i <= j)%nat ->
  nth_error (Headers.sort_and_combine h) j = Some (k, v) ->
  is_private (toLowerCase k) = true ->
  (forall n k' v', (i <= n < j)%nat ->
      nth_error (Headers.sort_and_combine h) n = Some (k', v') ->
      is_private (toLowerCase k') = false) ->
  Headers.has h' k = false.
Proof.
  induction fuel as [|fuel IH]; intros i j h h' k v Hrun Hij Hj Hk Hbefore;
    cbn [Headers.forEach_from] in Hrun;
    destruct (nth_error (Headers.sort_and_combine h) i) as [[ki vi]|] eqn:Hi;
    try discriminate.
  - exfalso. apply nth_error_None in Hi.
    assert (nth_error (Headers.sort_and_combine h) j <> None) as Hs by congruence.
    apply nth_error_Some in Hs. lia.
  - destruct (Nat.eq_dec i j) as [->|Hne].
    + rewrite Hj in Hi. injection Hi as <- <-.
      destruct (forEach_is_filter _ _ _ _ Hrun) as (keep & -> & _).
      apply has_filter. unfold drop_if_private. rewrite Hk. apply has_delete.
    + assert (Hpub : is_private (toLowerCase ki) = false)
        by (apply (Hbefore i ki vi); [lia | exact Hi]).
      unfold drop_if_private in Hrun. rewrite Hpub in Hrun.
      apply (IH (S i) j h h' k v Hrun); try assumption; [lia|].
      intros n k' v' Hn. apply Hbefore. lia.
  - exfalso. apply nth_error_None in Hi.
    assert (nth_error (Headers.sort_and_combine h) j <> None) as Hs by congruence.
    apply nth_error_Some in Hs. lia.
Qed.

(** X15.  The header filter only ever takes headers away, and only private
    ones: what it returns is the header list it was given, in the same
    order and with the same values, without some of the headers whose name
    is in the deny list or starts with [sec-]. *)
Theorem remove_private_headers_is_filter :
  forall h,
    exists keep,
      remove_private_headers h = filter keep h
      /\ forall p, is_private (toLowerCase (fst p)) = false -> keep p = true.
Proof.
  intros h. destruct (remove_private_headers_ends h) as (h' & Hrun & ->).
  exact (forEach_is_filter _ _ _ _ Hrun).
Qed.

(** X16.  The private header that comes first in the sorted order of the
    names is always removed, with every header of that name; so a header
    set with a single private name leaves the filter without it. *)
Theorem first_private_header_removed :
  forall h j k v,
    nth_error (Headers.sort_and_combine h) j = Some (k, v) ->
    is_private (toLowerCase k) = true ->
    (forall n k' v', (n < j)%nat ->
        nth_error (Headers.sort_and_combine h) n = Some (k', v') ->
        is_private (toLowerCase k') = false) ->
    Headers.has (remove_private_headers h) k = false
    /\ Headers.get (remove_private_headers h) k = None.
Proof.
  intros h j k v Hj Hk Hbefore.
  destruct (remove_private_headers_ends h) as (h' & Hrun & ->).
  assert (Hhas : Headers.has h' k = false).
  { apply (forEach_reaches _ 0 j h h' k v Hrun); try assumption; [lia|].
    intros n k' v' Hn. apply Hbefore. lia. }
  split; [exact Hhas|].
  unfold Headers.get. now rewrite values_absent.
Qed.

(** The values of a name do not depend on its case. *)
Lemma values_any_case h n k :
  toLowerCase n = toLowerCase k -> Headers.values h n = Headers.values h k.
Proof.
  intros H. unfold Headers.values, Headers.name_eqb. now rewrite H.
Qed.

Section HeaderFacts.

#[local] Set Default Proof Using "Type".

Variable window_origin : option jsstring.

(** X17.  The headers that the client sets win over the caller's, whatever
    the case of the caller's names: the outgoing set has exactly one
    [gg-x-source], [client], and exactly one [gg-x-token], the access token;
    where there is a [window] it has exactly one [Origin], the origin of
    the window, and elsewhere the [Origin] of the caller goes through. *)
Theorem client_headers_override_caller :
  forall input init tok hs,
    assemble_headers window_origin input init tok = Ok hs ->
    Headers.values hs (js "GG-X-Source") = [js "client"]
    /\ Headers.values hs (js "GG-X-Token") = [tok]
    /\ (forall origin, window_origin = Some origin ->
          Headers.values hs (js "origin") = [origin])
    /\ (forall h0, window_origin = None ->
          new_Headers (caller_headers input init) = Ok h0 ->
          Headers.values hs (js "origin") = Headers.values h0 (js "origin")).
Proof.
  intros input init tok hs H. unfold assemble_headers in H.
  destruct (new_Headers (caller_headers input init)) as [h0|e]; [|discriminate].
  cbn [obind] in H. injection H as <-.
  assert (Hkeep : forall n h, is_private (toLowerCase n) = false ->
                    Headers.values (remove_private_headers h) n = Headers.values h n).
  { intros n h Hn. destruct (remove_private_headers_ends h) as (h' & Hrun & ->).
    exact (forEach_keeps_public n Hn _ _ _ _ Hrun). }
  repeat split.
  - rewrite (values_any_case _ (js "GG-X-Source") HeaderSource eq_refl).
    rewrite Hkeep by reflexivity.
    destruct window_origin;
      rewrite ?HeadersFacts.values_set_other by reflexivity;
      apply HeadersFacts.values_set_same.
  - rewrite (values_any_case _ (js "GG-X-Token") HeaderToken eq_refl).
    rewrite Hkeep by reflexivity.
    destruct window_origin;
      rewrite ?HeadersFacts.values_set_other by reflexivity;
      apply HeadersFacts.values_set_same.
  - intros origin ->.
    rewrite (values_any_case _ (js "origin") HeaderOrigin eq_refl).
    rewrite Hkeep by reflexivity.
    apply HeadersFacts.values_set_same.
  - intros h1 -> [= <-]. rewrite Hkeep by reflexivity.
    now rewrite !HeadersFacts.values_set_other by reflexivity.
Qed.

End HeaderFacts.

(** ** More on the options of the outgoing request *)

(** X18.  For an input that is a string or a URL the outgoing options are
    those of [init] with the headers replaced: every member other than
    [headers] has the value it has in [init] ([undefined] when [init] has no
    such member or there is no [init]). *)
Theorem options_for_plain_input :
  forall input init headers k,
    (forall r, input <> InRequest r) ->
    NoDup (map fst (init_members init)) ->
    k <> js "headers" ->
    member (assemble_options input init headers) k = opt_member init k.
Proof.
  intros input init headers k Hplain Hnd Hk.
  destruct (assemble_options_members input init headers Hnd)
    as (_ & Hpass & _ & Hin & Hnone).
  assert (Hopt : opt_member init k = member (init_members init) k)
    by (destruct init; reflexivity).
  rewrite Hopt. unfold member at 2.
  destruct (assoc k (init_members init)) as [v|] eqn:Ha; [now apply Hpass|].
  destruct (Hin Hplain) as (Hm & Hb & Hr).
  assert (Hundef : forall k', assoc k' (init_members init) = None ->
                     opt_member init k' = VUndefined).
  { intros k' Hk'. destruct init as [o|]; [|reflexivity].
    cbn in *. unfold member. now rewrite Hk'. }
  destruct (str_eqb_spec k (js "method")) as [->|H1]; [rewrite Hm; now apply Hundef|].
  destruct (str_eqb_spec k (js "body")) as [->|H2]; [rewrite Hb; now apply Hundef|].
  destruct (str_eqb_spec k (js "redirect")) as [->|H3]; [rewrite Hr; now apply Hundef|].
  now apply Hnone.
Qed.

Section RequestFacts.

#[local] Set Default Proof Using "Type".

Variable JSON_parse : jsstring -> option json.
Variable JSON_stringify : json -> jsstring.
Variable URL_parse : jsstring -> option URL.
Variable transport : list Event -> jsstring -> object -> Outcome Response.
Variable clock : list Event -> Z.
Variable window_origin : option jsstring.

Local Abbreviation fetch' :=
  (fetch JSON_parse JSON_stringify URL_parse transport clock window_origin).

(** X19.  With a [Request] as input the [headers] of [init] are dropped
    without a trace: two calls whose [init] differ in that member only do
    the same and send the same, the headers of the [Request] alone being
    used. *)
Theorem request_input_drops_init_headers :
  forall r init init' m,
    rest_without (js "headers") (init_members init)
    = rest_without (js "headers") (init_members init') ->
    fetch' (InRequest r) init m = fetch' (InRequest r) init' m.
Proof.
  intros r init init' m Hrest. rewrite !fetch_steps.
  destruct (falsy_str (proxyToken (self m))); [reflexivity|].
  destruct (refresh _ _ _ _ m) as [[[]|e] m1]; [|reflexivity].
  assert (Hprep : prepare JSON_parse URL_parse window_origin (InRequest r) init (self m1)
                  = prepare JSON_parse URL_parse window_origin (InRequest r) init' (self m1)).
  { unfold prepare, assemble_headers, assemble_options, caller_headers.
    now rewrite Hrest. }
  now rewrite Hprep.
Qed.

End RequestFacts.

(** ** The further properties at work in the sample environment *)


Lemma exchange_keeps_instance_witness :
  proxyToken (self (snd Runs.one_exchange)) = Some Sample.proxy_token
  /\ retry (self (snd Runs.one_exchange)) = Some true
  /\ (exists new,
         trace (snd Runs.one_exchange) = [] ++ new
         /\ (count_requests new <= 1)%nat /\ count_sleeps new = 0%nat)
  /\ (forall e, fst Runs.one_exchange = Throw e ->
        self (snd Runs.one_exchange) = Sample.configured).
Proof.
  exact (exchange_keeps_instance Sample.parse Sample.stringify
           (Sample.scripted [Sample.exchange_granted]) Sample.clock
           (Sample.machine Sample.configured) _ _ (surjective_pairing _)).
Defined.

Lemma fetch_keeps_configuration_witness :
  proxyToken (self (snd Runs.exchange_and_retry)) = Some Sample.proxy_token
  /\ retry (self (snd Runs.exchange_and_retry)) = Some true
  /\ (token (self (snd Runs.exchange_and_retry)) <> None ->
      isTokenExpired_at Sample.parse None 1000000 = Ok true
      /\ exists m1,
           exchange Sample.parse Sample.stringify
             (Sample.scripted [Sample.exchange_granted; Sample.bad_gateway;
                               Sample.plain_response])
             Sample.clock (Sample.machine Sample.configured) = (Ok tt, m1)
           /\ token (self (snd Runs.exchange_and_retry)) = token (self m1)).
Proof.
  exact (fetch_keeps_configuration Sample.parse Sample.stringify Sample.url_parse
           (Sample.scripted [Sample.exchange_granted; Sample.bad_gateway;
                             Sample.plain_response])
           Sample.clock None (InString Sample.destination) Sample.GET
           (Sample.machine Sample.configured) _ _ (surjective_pairing _)).
Defined.

Lemma fetch_trace_bound_witness :
  exists new,
    trace (snd Runs.exchange_and_retry) = [] ++ new
    /\ (count_requests new <= 3)%nat
    /\ (count_sleeps new <= 1)%nat
    /\ Forall (fun e => match e with
                        | EvSleep ms => ms = 2000%Z
                        | EvFetch _ _ => True
                        end) new
    /\ (count_sleeps new = 1%nat -> Some true = Some true)
    /\ (isTokenExpired_at Sample.parse None 1000000 = Ok false ->
        (count_requests new <= 2)%nat).
Proof.
  exact (fetch_trace_bound Sample.parse Sample.stringify Sample.url_parse
           (Sample.scripted [Sample.exchange_granted; Sample.bad_gateway;
                             Sample.plain_response])
           Sample.clock None (InString Sample.destination) Sample.GET
           (Sample.machine Sample.configured) _ _ (surjective_pairing _)).
Defined.

Lemma retry_disabled_sends_once_witness :
  exists new,
    trace (snd Runs.exchange_no_retry) = [] ++ new
    /\ count_sleeps new = 0%nat
    /\ (count_requests new <= 2)%nat.
Proof.
  exact (retry_disabled_sends_once Sample.parse Sample.stringify Sample.url_parse
           (Sample.scripted [Sample.exchange_granted; Sample.bad_gateway;
                             Sample.plain_response])
           Sample.clock None MoreSample.no_retry fresh
           (InString Sample.destination) Sample.GET [] _ _
           eq_refl (surjective_pairing _)).
Defined.

Lemma fetch_malformed_token_stuck_witness :
  fetch Sample.parse Sample.stringify Sample.url_parse
    (Sample.scripted [Sample.exchange_granted]) Sample.clock None
    (InString Sample.destination) None (Sample.machine MoreSample.holding_garbage)
  = (Throw InvalidOrMalformedToken, Sample.machine MoreSample.holding_garbage).
Proof.
  apply (fetch_malformed_token_stuck Sample.parse Sample.stringify Sample.url_parse
           (Sample.scripted [Sample.exchange_granted]) Sample.clock None
           (InString Sample.destination) None
           (Sample.machine MoreSample.holding_garbage) (js "invalid-token"));
    [reflexivity | reflexivity | discriminate |].
  intros data z H. vm_compute in H. discriminate.
Defined.

Lemma fetch_exchange_refused_witness :
  fetch Sample.parse Sample.stringify Sample.url_parse
    (Sample.scripted [Sample.exchange_denied]) Sample.clock None
    (InString Sample.destination) None (Sample.machine Sample.configured)
  = (Throw (Error (js "status: 401 proxy: Token exchange failed")),
     {| self := Sample.configured;
        trace := [EvFetch (js "http://localhost:8787/token/exchange")
                    (exchange_options Sample.stringify 1000000 Sample.proxy_token)] |}).
Proof.
  apply (fetch_exchange_refused Sample.parse Sample.stringify Sample.url_parse
           (Sample.scripted [Sample.exchange_denied]) Sample.clock None
           (InString Sample.destination) None (Sample.machine Sample.configured)
           Sample.proxy_token Sample.claims_proxy
           (Some (JStr (js "http://localhost:8787"))) Sample.exchange_denied);
    first [reflexivity | discriminate].
Defined.

Lemma fetch_exchange_without_token_witness :
  fetch Sample.parse Sample.stringify Sample.url_parse
    (Sample.scripted [MoreSample.exchange_without_token]) MoreSample.late_clock None
    (InString Sample.destination) None (Sample.machine Sample.ready)
  = (Throw EngineTypeError,
     {| self := {| proxyToken := Some Sample.proxy_token; token := None;
                   retry := Some true |};
        trace := [EvFetch (js "http://localhost:8787/token/exchange")
                    (exchange_options Sample.stringify 3000000 Sample.proxy_token)] |}).
Proof.
  apply (fetch_exchange_without_token Sample.parse Sample.stringify Sample.url_parse
           (Sample.scripted [MoreSample.exchange_without_token])
           MoreSample.late_clock None
           (InString Sample.destination) None (Sample.machine Sample.ready)
           Sample.proxy_token Sample.claims_proxy
           (Some (JStr (js "http://localhost:8787")))
           MoreSample.exchange_without_token
           (JObj [(js "expires", JNum 60)]) {| href := Sample.destination |});
    first [reflexivity | discriminate].
Defined.

Lemma proxied_requests_carry_token_witness :
  exists s hs,
    token (self (Sample.machine Sample.ready)) = Some (JStr s)
    /\ member (Sample.outgoing Sample.GET) (js "headers") = VHeaders hs
    /\ Headers.get hs (js "gg-x-token") = Some s
    /\ Headers.get hs (js "gg-x-source") = Some (js "client").
Proof.
  apply (proxied_requests_carry_token Sample.parse Sample.stringify Sample.url_parse
           (Sample.scripted [Sample.bad_gateway; Sample.plain_response])
           Sample.clock None (InString Sample.destination) Sample.GET
           (Sample.machine Sample.ready) (Sample.machine Sample.ready)
           (Ok Sample.plain_response)
           {| self := Sample.ready;
              trace := [EvFetch Sample.proxied_url (Sample.outgoing Sample.GET);
                        EvSleep 2000;
                        EvFetch Sample.proxied_url (Sample.outgoing Sample.GET)] |}
           [EvFetch Sample.proxied_url (Sample.outgoing Sample.GET);
            EvSleep 2000;
            EvFetch Sample.proxied_url (Sample.outgoing Sample.GET)]
           Sample.proxied_url (Sample.outgoing Sample.GET));
    try (vm_compute; reflexivity).
  right. right. left. reflexivity.
Defined.

Lemma reconfigure_keeps_token_witness :
  let c1 := {| cfg_token := js "first.token"; cfg_retry := Some false |} in
  let c2 := {| cfg_token := Sample.proxy_token; cfg_retry := None |} in
  let m := {| self := configure c2 (configure c1 Sample.ready); trace := [] |} in
  configure c2 (configure c1 Sample.ready) = configure c2 Sample.ready
  /\ token (self m) = Some (JStr Sample.access_token)
  /\ fetch Sample.parse Sample.stringify Sample.url_parse
       (Sample.scripted [Sample.plain_response]) Sample.clock None
       (InString Sample.destination) None m
     = match prepare Sample.parse Sample.url_parse None
               (InString Sample.destination) None (self m) with
       | Throw e => (Throw e, m)
       | Ok (proxyUrl, req) =>
           dispatch (Sample.scripted [Sample.plain_response]) 2 0 proxyUrl req m
       end.
Proof.
  intros c1 c2 m.
  apply (reconfigure_keeps_token Sample.parse Sample.stringify Sample.url_parse
           (Sample.scripted [Sample.plain_response]) Sample.clock None
           c1 c2 Sample.ready (InString Sample.destination) None []);
    [discriminate | vm_compute; reflexivity].
Defined.

Lemma code_units_destination : code_units Sample.destination.
Proof.
  unfold code_units. apply Forall_forall. intros c Hc. vm_compute in Hc.
  repeat (destruct Hc as [<- | Hc]; [reflexivity|]). destruct Hc.
Qed.

Lemma b64urlEncode_urlsafe_witness :
  exists u,
    b64urlEncode Sample.destination = Ok u
    /\ forallb is_urlsafe u = true
    /\ List.length u
       = ((4 * List.length (Utf8.encode Sample.destination) + 2) / 3)%nat.
Proof.
  apply b64urlEncode_urlsafe. exact code_units_destination.
Defined.

Lemma b64urlEncode_injective_witness :
  js "https://a.example/" ++ [0x20AC%N] = js "https://a." ++ js "example/" ++ [0x20AC%N].
Proof.
  apply b64urlEncode_injective; vm_compute; reflexivity.
Defined.

Lemma getTokenPayload_reads_middle_segment_witness :
  getTokenPayload Sample.parse Sample.access_token
  = getTokenPayload Sample.parse
      (js "x.eyJleHAiOjIwMDAsInNjb3BlIjoibG9jYWxob3N0Ojg3ODcifQ==.forged.more")
  /\ getTokenPayload Sample.parse Sample.access_token
     = getTokenPayload Sample.parse
         (js "x.eyJleHAiOjIwMDAsInNjb3BlIjoibG9jYWxob3N0Ojg3ODcifQ==").
Proof.
  apply (getTokenPayload_reads_middle_segment Sample.parse
           Sample.jwt_header (js "x")
           (js "eyJleHAiOjIwMDAsInNjb3BlIjoibG9jYWxob3N0Ojg3ODcifQ==")
           (js "signature") (js "forged.more"));
    vm_compute; intuition discriminate.
Defined.

Lemma getTokenPayload_of_encoded_witness :
  getTokenPayload Sample.parse
    (Sample.jwt_header ++ 46%N :: js "eyJleHAiOjEwMH0" ++ 46%N :: js "signature")
  = Ok Sample.claims_exp100
  /\ getTokenPayload Sample.parse
       (Sample.jwt_header ++ 46%N :: js "eyJleHAiOjEwMH0=" ++ 46%N :: js "signature")
     = Ok Sample.claims_exp100.
Proof.
  apply (getTokenPayload_of_encoded Sample.parse Sample.jwt_header
           Sample.text_exp100 (js "signature") (js "eyJleHAiOjEwMH0")).
  - vm_compute. intuition discriminate.
  - unfold code_units. apply Forall_forall. intros c Hc. vm_compute in Hc.
    repeat (destruct Hc as [<- | Hc]; [reflexivity|]). destruct Hc.
  - discriminate.
  - vm_compute. reflexivity.
Defined.

Lemma isTokenExpired_monotone_witness :
  (isTokenExpired_at Sample.parse (Some (JStr Sample.token_exp100)) 40001 = Ok true ->
   isTokenExpired_at Sample.parse (Some (JStr Sample.token_exp100)) 70000 = Ok true)
  /\ (isTokenExpired_at Sample.parse (Some (JStr Sample.token_exp100)) 70000 = Ok false ->
      isTokenExpired_at Sample.parse (Some (JStr Sample.token_exp100)) 40001 = Ok false)
  /\ (forall e,
         isTokenExpired_at Sample.parse (Some (JStr Sample.token_exp100)) 40001 = Throw e ->
         isTokenExpired_at Sample.parse (Some (JStr Sample.token_exp100)) 70000 = Throw e).
Proof.
  apply (isTokenExpired_monotone Sample.parse (Some (JStr Sample.token_exp100))
           40001 70000).
  lia.
Defined.

Lemma remove_private_headers_is_filter_witness :
  exists keep,
    remove_private_headers MoreSample.private_and_custom
    = filter keep MoreSample.private_and_custom
    /\ forall p, is_private (toLowerCase (fst p)) = false -> keep p = true.
Proof. exact (remove_private_headers_is_filter MoreSample.private_and_custom). Defined.

Lemma first_private_header_removed_witness :
  Headers.has (remove_private_headers MoreSample.private_and_custom) (js "cookie") = false
  /\ Headers.get (remove_private_headers MoreSample.private_and_custom) (js "cookie")
     = None.
Proof.
  apply (first_private_header_removed MoreSample.private_and_custom 1 (js "cookie")
           (js "session=123")); [reflexivity | reflexivity |].
  intros n k' v' Hn Hnth.
  destruct n as [|n]; [|lia].
  vm_compute in Hnth. injection Hnth as <- _. reflexivity.
Defined.

Lemma client_headers_override_caller_witness :
  exists hs,
    assemble_headers (Some (js "https://app.example"))
      (InString Sample.destination)
      (Some [(js "headers",
              VHeaders [(js "GG-X-Token", js "mine"); (js "Origin", js "null");
                        (js "gg-x-token", js "mine too")])])
      Sample.access_token = Ok hs
    /\ Headers.values hs (js "GG-X-Source") = [js "client"]
    /\ Headers.values hs (js "GG-X-Token") = [Sample.access_token]
    /\ Headers.values hs (js "origin") = [js "https://app.example"].
Proof.
  eexists. split; [vm_compute; reflexivity|].
  match goal with
  | |- Headers.values ?hs _ = _ /\ _ =>
      destruct (client_headers_override_caller (Some (js "https://app.example"))
                  (InString Sample.destination)
                  (Some [(js "headers",
                          VHeaders [(js "GG-X-Token", js "mine");
                                    (js "Origin", js "null");
                                    (js "gg-x-token", js "mine too")])])
                  Sample.access_token hs ltac:(vm_compute; reflexivity))
        as (H1 & H2 & H3 & _)
  end.
  split; [exact H1|]. split; [exact H2|]. now apply H3.
Defined.

Lemma options_for_plain_input_witness :
  member (assemble_options (InString Sample.destination) Sample.POST
            Sample.client_headers) (js "method")
  = VString (js "POST")
  /\ member (assemble_options (InString Sample.destination) Sample.POST
               Sample.client_headers) (js "signal")
     = VUndefined.
Proof.
  split;
    apply (options_for_plain_input (InString Sample.destination) Sample.POST
             Sample.client_headers);
    try discriminate; try literals_differ;
    repeat constructor; cbn; intuition discriminate.
Defined.

Lemma request_input_drops_init_headers_witness :
  fetch Sample.parse Sample.stringify Sample.url_parse
    (Sample.scripted [Sample.plain_response]) Sample.clock None
    (InRequest Sample.post_request) Sample.with_private_headers
    (Sample.machine Sample.ready)
  = fetch Sample.parse Sample.stringify Sample.url_parse
      (Sample.scripted [Sample.plain_response]) Sample.clock None
      (InRequest Sample.post_request) None (Sample.machine Sample.ready).
Proof.
  apply request_input_drops_init_headers. reflexivity.
Defined.

Lemma first_fetch_exchanges_witness :
  let m := {| self := constructor (Some MoreSample.no_retry); trace := [] |} in
  fetch Sample.parse Sample.stringify Sample.url_parse
    (Sample.scripted [Sample.exchange_denied]) Sample.clock None
    (InString Sample.destination) None m
  = match exchange Sample.parse Sample.stringify
            (Sample.scripted [Sample.exchange_denied]) Sample.clock m with
    | (Throw e, m1) => (Throw e, m1)
    | (Ok _, m1) =>
        match prepare Sample.parse Sample.url_parse None
                (InString Sample.destination) None (self m1) with
        | Throw e => (Throw e, m1)
        | Ok (proxyUrl, req) =>
            dispatch (Sample.scripted [Sample.exchange_denied]) 2 0 proxyUrl req m1
        end
    end.
Proof.
  intros m.
  apply (first_fetch_exchanges Sample.parse Sample.stringify Sample.url_parse
           (Sample.scripted [Sample.exchange_denied]) Sample.clock None
           MoreSample.no_retry (InString Sample.destination) None []).
  discriminate.
Defined.
